(** * The html5 playback engine and its native media-source adapter

    A shallow embedding of [src/engines/html5/html5.js]: the [Html5] engine
    (the facade owning the video element) and the [NativeAdapter] (the
    strategy driving that same element).  Both classes mutate one shared
    video element, so the element, the promise objects and the observable
    calls live in one [World] that every method threads through. *)

From Stdlib Require Import QArith Qcanon.
From stdpp Require Import base numbers list strings gmap.

Open Scope Z_scope.

(** ** JavaScript values used by the engine *)

(** A JS number: finite doubles are rationals; the three special values are
    kept apart because [isLive] compares against [Infinity] with [===]. *)
Inductive number :=
| Num (q : Qc)
| Infinity
| NegInfinity
| NaN.

(** [a === b] on numbers: [NaN] equals nothing, itself included. *)
Definition strict_eq (a b : number) : bool :=
  match a, b with
  | Num x, Num y => bool_decide (x = y)
  | Infinity, Infinity => true
  | NegInfinity, NegInfinity => true
  | _, _ => false
  end.

(** Truthiness of an optional number argument ([if (startTime)]). *)
Definition truthy_number (n : option number) : bool :=
  match n with
  | None => false
  | Some (Num q) => negb (bool_decide (q = 0%Qc))
  | Some NaN => false
  | Some _ => true
  end.

(** [list[i]] for a JS index: [undefined] outside [0 .. length-1]. *)
Definition js_get {A} (l : list A) (i : Z) : option A :=
  if decide (0 ≤ i) then l !! Z.to_nat i else None.

(** ** Data model *)

Record DrmData := mkDrm { drm_scheme : string; drm_licenseUrl : string }.

Record Source := mkSource {
  src_id : string;
  src_url : string;
  src_mimetype : string;
  src_drmData : option (list DrmData);
  src_bandwidth : Z;
  src_width : Z;
  src_height : Z;
}.

(** Modelled from the spec: the track value classes ([track/video-track],
    [track/audio-track], [track/text-track]) are imported by the source but
    not part of it; §3 gives their fields.  One settings record serves the
    three classes, the constructor tells the class ([instanceof]). *)
Record Settings := mkSettings {
  id : option string;
  index : Z;
  active : bool;
  label : option string;
  language : option string;
  kind : option string;
  bandwidth : option Z;
  width : option Z;
  height : option Z;
}.

Inductive Track :=
| VideoTrack (s : Settings)
| AudioTrack (s : Settings)
| PKTextTrack (s : Settings).

Definition settings (t : Track) : Settings :=
  match t with VideoTrack s | AudioTrack s | PKTextTrack s => s end.

(** What a caller may pass where a track is expected: an instance of one of
    the track classes, or any other value. *)
Inductive Arg :=
| ATrack (t : Track)
| AOther.

Definition instanceof_VideoTrack (a : Arg) : option Settings :=
  match a with ATrack (VideoTrack s) => Some s | _ => None end.
Definition instanceof_AudioTrack (a : Arg) : option Settings :=
  match a with ATrack (AudioTrack s) => Some s | _ => None end.
Definition instanceof_PKTextTrack (a : Arg) : option Settings :=
  match a with ATrack (PKTextTrack s) => Some s | _ => None end.

(** Platform cues.  [_onCueChange] tells them apart with [instanceof]:
    a [VTTCue], a [TextTrackCue] that is not a [VTTCue], or neither. *)
Record VTTCueObj := mkVTT {
  vtt_startTime : number;
  vtt_endTime : number;
  vtt_text : string;
  vtt_align : string;
  vtt_vertical : string;
}.

Record TextTrackCueObj := mkTTC {
  ttc_id : string;
  ttc_startTime : number;
  ttc_endTime : number;
  ttc_text : string;
}.

Inductive PlatformCue :=
| IsVTTCue (c : VTTCueObj)
| IsTextTrackCue (c : TextTrackCueObj)
| IsForeign (description : string).

(** Modelled from the spec: the [Cue] class of [track/vtt-cue] is not in the
    source; §3 gives it as [{startTime, endTime, text}]. *)
Record Cue := mkCue {
  cue_startTime : number;
  cue_endTime : number;
  cue_text : string;
}.

(** An element of the [cues] payload: a [VTTCue] is pushed as it is, any
    other [TextTrackCue] is rebuilt as a [Cue]. *)
Inductive PayloadCue :=
| Passed (c : VTTCueObj)
| Built (c : Cue).

Definition startTime (c : PayloadCue) : number :=
  match c with Passed v => vtt_startTime v | Built k => cue_startTime k end.
Definition endTime (c : PayloadCue) : number :=
  match c with Passed v => vtt_endTime v | Built k => cue_endTime k end.
Definition text (c : PayloadCue) : string :=
  match c with Passed v => vtt_text v | Built k => cue_text k end.

(** ** The platform sink: an HTMLVideoElement *)

Inductive Mode := disabled | hidden | showing.

Global Instance Mode_eq_dec : EqDecision Mode.
Proof. solve_decision. Defined.

(** The only handler the engine ever stores in [oncuechange]. *)
Inductive CueHandler := call_onCueChange.

Record PlatVideoTrack := mkPVT {
  pvt_id : string;
  pvt_selected : bool;
  pvt_label : string;
  pvt_language : string;
}.

Record PlatAudioTrack := mkPAT {
  pat_id : string;
  pat_enabled : bool;
  pat_label : string;
  pat_language : string;
}.

Record PlatTextTrack := mkPTT {
  ptt_kind : string;
  ptt_mode : Mode;
  ptt_label : string;
  ptt_language : string;
  ptt_oncuechange : option CueHandler;
  ptt_activeCues : list PlatformCue;
}.

(** A [TimeRanges] object: its ranges in order, as (start, end). *)
Definition TimeRanges := list (number * number).

Record VideoElement := mkEl {
  el_src : string;
  el_currentTime : number;
  el_paused : bool;
  el_duration : number;
  el_seekable : TimeRanges;
  el_buffered : TimeRanges;
  el_offsetWidth : Z;
  el_offsetHeight : Z;
  el_videoTracks : option (list PlatVideoTrack);
  el_audioTracks : option (list PlatAudioTrack);
  el_textTracks : list PlatTextTrack;
}.

(** [ranges.end(i)]: throws (here [None]) when [i] is not a valid index. *)
Definition ranges_end (r : TimeRanges) (i : Z) : option number :=
  snd <$> js_get r i.

(** ** Promises, signals, events and the shared world *)

Inductive LoadData :=
| EmptyObject
| TracksObject (tracks : list Track).

Inductive PromiseState :=
| Pending
| Resolved (data : LoadData)
| Rejected (error : string).

(** A promise object is known by its position in the world's promise heap;
    two handles are the same object exactly when they are equal. *)
Definition handle := nat.

Inductive SignalName := LOADED_DATA | ERROR | DURATION_CHANGE | SEEKED | TIME_UPDATE.

Global Instance SignalName_eq_dec : EqDecision SignalName.
Proof. solve_decision. Defined.

Inductive AbrMode := abr_manual | abr_auto.

Inductive Event :=
| VIDEO_TRACK_CHANGED (t : Track)
| AUDIO_TRACK_CHANGED (t : Track)
| TEXT_TRACK_CHANGED (t : Track)
| ABR_MODE_CHANGED (mode : AbrMode)
| TEXT_CUE_CHANGED (cues : list PayloadCue).

Inductive Caller := ByEngine | ByAdapter.

(** The DRM protocol collaborator, as far as [canPlayDrm] uses it. *)
Record DrmProtocol := mkProtocol {
  protocol_name : string;
  protocol_canPlayDrm : list DrmData → bool;
}.

(** Every call the two classes make on the platform and every event they
    emit, in the order made. *)
Inductive Effect :=
| E_load (c : Caller)
| E_set_src (url : string)
| E_set_currentTime (t : number)
| E_play
| E_pause
| E_set_selected (i : nat) (b : bool)
| E_set_enabled (i : nat) (b : bool)
| E_set_mode (c : Caller) (i : nat) (m : Mode)
| E_set_oncuechange (i : nat) (h : option CueHandler)
| E_emit (c : Caller) (ev : Event)
| E_probe (protocol : string)
| E_setDrmPlayback (protocol : string)
| E_drm_destroy (protocol : string).

Record World := mkWorld {
  el : VideoElement;
  promises : list PromiseState;
  drmProtocol : option DrmProtocol;
  trace : list Effect;
}.

Definition with_el (f : VideoElement → VideoElement) (w : World) : World :=
  mkWorld (f (el w)) (promises w) (drmProtocol w) (trace w).

Definition log (e : Effect) (w : World) : World :=
  mkWorld (el w) (promises w) (drmProtocol w) (trace w ++ [e]).

(** [new Promise(...)]: a fresh pending object. *)
Definition new_promise (st : PromiseState) (w : World) : handle * World :=
  (length (promises w),
   mkWorld (el w) (promises w ++ [st]) (drmProtocol w) (trace w)).

(** [resolve]/[reject]: only a pending promise changes state. *)
Definition settle (p : handle) (st : PromiseState) (w : World) : World :=
  match promises w !! p with
  | Some Pending =>
      mkWorld (el w) (<[p := st]> (promises w)) (drmProtocol w) (trace w)
  | _ => w
  end.

(** *** Calls on the video element

    The element is an external collaborator.  Its setters are modelled by
    the contract of an HTML media element: assigning [src] and calling
    [load()] run the load algorithm, which pauses the element and rewinds
    it; [play()] clears [paused], [pause()] sets it; assigning
    [currentTime] seeks to a finite position and throws a [TypeError] for
    [NaN] and the infinities.  Autoplay is not modelled. *)

Definition media_load_algorithm (e : VideoElement) : VideoElement :=
  mkEl (el_src e) (Num 0%Qc) true (el_duration e) (el_seekable e)
       (el_buffered e) (el_offsetWidth e) (el_offsetHeight e)
       (el_videoTracks e) (el_audioTracks e) (el_textTracks e).

Definition put_src (url : string) (e : VideoElement) : VideoElement :=
  mkEl url (el_currentTime e) (el_paused e) (el_duration e) (el_seekable e)
       (el_buffered e) (el_offsetWidth e) (el_offsetHeight e)
       (el_videoTracks e) (el_audioTracks e) (el_textTracks e).

Definition put_currentTime (t : number) (e : VideoElement) : VideoElement :=
  mkEl (el_src e) t (el_paused e) (el_duration e) (el_seekable e)
       (el_buffered e) (el_offsetWidth e) (el_offsetHeight e)
       (el_videoTracks e) (el_audioTracks e) (el_textTracks e).

Definition put_paused (b : bool) (e : VideoElement) : VideoElement :=
  mkEl (el_src e) (el_currentTime e) b (el_duration e) (el_seekable e)
       (el_buffered e) (el_offsetWidth e) (el_offsetHeight e)
       (el_videoTracks e) (el_audioTracks e) (el_textTracks e).

Definition put_videoTracks (f : list PlatVideoTrack → list PlatVideoTrack)
    (e : VideoElement) : VideoElement :=
  mkEl (el_src e) (el_currentTime e) (el_paused e) (el_duration e)
       (el_seekable e) (el_buffered e) (el_offsetWidth e) (el_offsetHeight e)
       (f <$> el_videoTracks e) (el_audioTracks e) (el_textTracks e).

Definition put_audioTracks (f : list PlatAudioTrack → list PlatAudioTrack)
    (e : VideoElement) : VideoElement :=
  mkEl (el_src e) (el_currentTime e) (el_paused e) (el_duration e)
       (el_seekable e) (el_buffered e) (el_offsetWidth e) (el_offsetHeight e)
       (el_videoTracks e) (f <$> el_audioTracks e) (el_textTracks e).

Definition put_textTracks (f : list PlatTextTrack → list PlatTextTrack)
    (e : VideoElement) : VideoElement :=
  mkEl (el_src e) (el_currentTime e) (el_paused e) (el_duration e)
       (el_seekable e) (el_buffered e) (el_offsetWidth e) (el_offsetHeight e)
       (el_videoTracks e) (el_audioTracks e) (f (el_textTracks e)).

Definition set_src (url : string) (w : World) : World :=
  log (E_set_src url) (with_el (λ e, media_load_algorithm (put_src url e)) w).

Definition el_load (c : Caller) (w : World) : World :=
  log (E_load c) (with_el media_load_algorithm w).

(** A seek that the element accepts. *)
Definition seek_to (t : number) (w : World) : World :=
  log (E_set_currentTime t) (with_el (put_currentTime t) w).

Definition finite (t : number) : bool :=
  match t with Num _ => true | _ => false end.

(** [el.currentTime = t]; [None] is the [TypeError] the setter throws. *)
Definition set_currentTime (t : number) (w : World) : option World :=
  if finite t then Some (seek_to t w) else None.

Definition play (w : World) : World :=
  log E_play (with_el (put_paused false) w).

Definition pause (w : World) : World :=
  log E_pause (with_el (put_paused true) w).

Definition selected_to (b : bool) (t : PlatVideoTrack) : PlatVideoTrack :=
  mkPVT (pvt_id t) b (pvt_label t) (pvt_language t).

Definition enabled_to (b : bool) (t : PlatAudioTrack) : PlatAudioTrack :=
  mkPAT (pat_id t) b (pat_label t) (pat_language t).

Definition mode_to (m : Mode) (t : PlatTextTrack) : PlatTextTrack :=
  mkPTT (ptt_kind t) m (ptt_label t) (ptt_language t) (ptt_oncuechange t)
        (ptt_activeCues t).

Definition oncuechange_to (h : option CueHandler) (t : PlatTextTrack)
    : PlatTextTrack :=
  mkPTT (ptt_kind t) (ptt_mode t) (ptt_label t) (ptt_language t) h
        (ptt_activeCues t).

(** [videoTracks[i].selected = b] and its siblings. *)
Definition set_selected (i : nat) (b : bool) (w : World) : World :=
  log (E_set_selected i b) (with_el (put_videoTracks (alter (selected_to b) i)) w).

Definition set_enabled (i : nat) (b : bool) (w : World) : World :=
  log (E_set_enabled i b) (with_el (put_audioTracks (alter (enabled_to b) i)) w).

Definition set_mode (c : Caller) (i : nat) (m : Mode) (w : World) : World :=
  log (E_set_mode c i m) (with_el (put_textTracks (alter (mode_to m) i)) w).

Definition set_oncuechange (i : nat) (h : option CueHandler) (w : World)
    : World :=
  log (E_set_oncuechange i h)
      (with_el (put_textTracks (alter (oncuechange_to h) i)) w).

(** Modelled from the spec: [_trigger] and [_onTrackChanged] belong to
    [BaseMediaSourceAdapter], which is not in the source.  By §4.3 and §6 a
    track change is announced as [video-], [audio-] or
    [text-track-changed], by the class of the track. *)
Definition _trigger (ev : Event) (w : World) : World :=
  log (E_emit ByAdapter ev) w.

Definition _onTrackChanged (t : Track) (w : World) : World :=
  match t with
  | VideoTrack _ => _trigger (VIDEO_TRACK_CHANGED t) w
  | AudioTrack _ => _trigger (AUDIO_TRACK_CHANGED t) w
  | PKTextTrack _ => _trigger (TEXT_TRACK_CHANGED t) w
  end.

(** ** The adapter's own state *)

(** The bodies of the arrow functions the adapter hands to [listenOnce],
    each with the variables it closes over. *)
Inductive Handler :=
| load_resolve (p : handle)
| load_reject (p : handle)
| switch_loaded (videoTrack : Track) (currentTime : number) (paused : bool)
| switch_duration (currentTime : number)
| switch_seeked_android (videoTrack : Track) (paused : bool)
| switch_seeked (videoTrack : Track).

Record Adapter := mkAdapter {
  _sourceObj : option Source;
  _progressiveSources : option (list Source);
  _loadPromise : option handle;
  _eventManager : list (SignalName * Handler);
}.

(** What the adapter imports and the source does not contain: the browser
    name read from [Env.browser.name] and the resolution-match rule
    [getSuitableSourceForResolution] of [utils/resolution]. *)
Record Env := mkEnv {
  browser_name : string;
  getSuitableSourceForResolution :
    option (list Source) → Z → Z → option Source;
}.

(** Modelled from the spec: [EventManager.listenOnce] is not in the source.
    By §4.3 and §5 it is a one-shot subscription: the handler runs on the
    next signal of its type and is gone afterwards. *)
Definition listenOnce (n : SignalName) (h : Handler) (a : Adapter) : Adapter :=
  mkAdapter (_sourceObj a) (_progressiveSources a) (_loadPromise a)
            (_eventManager a ++ [(n, h)]).

Definition with_sourceObj (s : option Source) (a : Adapter) : Adapter :=
  mkAdapter s (_progressiveSources a) (_loadPromise a) (_eventManager a).

Definition with_loadPromise (p : option handle) (a : Adapter) : Adapter :=
  mkAdapter (_sourceObj a) (_progressiveSources a) p (_eventManager a).

Definition with_listeners (l : list (SignalName * Handler)) (a : Adapter)
    : Adapter :=
  mkAdapter (_sourceObj a) (_progressiveSources a) (_loadPromise a) l.

Module NativeAdapter.

(** [static canPlayDrm(drmData)]: [protocols] is the static registry
    [_drmProtocols]; its one entry, FairPlay, is not in the source. *)
Fixpoint canPlayDrm_loop (protocols : list DrmProtocol)
    (drmData : list DrmData) (w : World) : bool * World :=
  match protocols with
  | [] => (false, w)
  | drmProtocol :: rest =>
      let w := log (E_probe (protocol_name drmProtocol)) w in
      if protocol_canPlayDrm drmProtocol drmData
      then (true, mkWorld (el w) (promises w) (Some drmProtocol) (trace w))
      else canPlayDrm_loop rest drmData w
  end.

Definition canPlayDrm (protocols : list DrmProtocol)
    (drmData : list DrmData) (w : World) : bool * World :=
  canPlayDrm_loop protocols drmData w.

(** [_maybeSetDrmPlayback] and the constructor. *)
Definition _maybeSetDrmPlayback (a : Adapter) (w : World) : World :=
  match drmProtocol w, _sourceObj a with
  | Some p, Some s =>
      match src_drmData s with
      | Some _ => log (E_setDrmPlayback (protocol_name p)) w
      | None => w
      end
  | _, _ => w
  end.

Definition constructor (source : option Source)
    (progressive : option (list Source)) (w : World) : Adapter * World :=
  let a := mkAdapter source progressive None [] in
  (a, _maybeSetDrmPlayback a w).

Definition _isProgressivePlayback (a : Adapter) : bool :=
  match _sourceObj a with
  | Some s => bool_decide (src_mimetype s = "video/mp4")
  | None => false
  end.

(** Track enumeration, on demand. *)
Definition _getParsedProgressiveVideoTracks (a : Adapter) : list Track :=
  match _progressiveSources a with
  | Some videoTracks =>
      imap (λ i v, VideoTrack
        (mkSettings (Some (src_id v)) (Z.of_nat i)
           (match _sourceObj a with
            | Some s => bool_decide (src_id v = src_id s)
            | None => false
            end)
           None None None
           (Some (src_bandwidth v)) (Some (src_width v))
           (Some (src_height v)))) videoTracks
  | None => []
  end.

Definition _getParsedAdaptiveVideoTracks (w : World) : list Track :=
  match el_videoTracks (el w) with
  | Some videoTracks =>
      imap (λ i v, VideoTrack
        (mkSettings (Some (pvt_id v)) (Z.of_nat i) (pvt_selected v)
           (Some (pvt_label v)) (Some (pvt_language v)) None
           None None None)) videoTracks
  | None => []
  end.

Definition _getParsedVideoTracks (a : Adapter) (w : World) : list Track :=
  if _isProgressivePlayback a
  then _getParsedProgressiveVideoTracks a
  else _getParsedAdaptiveVideoTracks w.

Definition _getParsedAudioTracks (w : World) : list Track :=
  match el_audioTracks (el w) with
  | Some audioTracks =>
      imap (λ i v, AudioTrack
        (mkSettings (Some (pat_id v)) (Z.of_nat i) (pat_enabled v)
           (Some (pat_label v)) (Some (pat_language v)) None
           None None None)) audioTracks
  | None => []
  end.

Definition _getParsedTextTracks (w : World) : list Track :=
  imap (λ i v, PKTextTrack
    (mkSettings None (Z.of_nat i) (bool_decide (ptt_mode v = showing))
       (Some (ptt_label v)) (Some (ptt_language v)) (Some (ptt_kind v))
       None None None)) (el_textTracks (el w)).

Definition _getParsedTracks (a : Adapter) (w : World) : list Track :=
  _getParsedVideoTracks a w ++ _getParsedAudioTracks w
    ++ _getParsedTextTracks w.

(** The three [_disable...Tracks] loops. *)
Definition _disableVideoTracks (w : World) : World :=
  match el_videoTracks (el w) with
  | Some videoTracks =>
      foldl (λ w i, set_selected i false w) w (seq 0 (length videoTracks))
  | None => w
  end.

Definition _disableAudioTracks (w : World) : World :=
  match el_audioTracks (el w) with
  | Some audioTracks =>
      foldl (λ w i, set_enabled i false w) w (seq 0 (length audioTracks))
  | None => w
  end.

Definition _disableTextTracks (w : World) : World :=
  foldl (λ w i, set_mode ByAdapter i disabled w) w
        (seq 0 (length (el_textTracks (el w)))).

Definition selectAdaptiveVideoTrack (videoTrack : Arg) (w : World) : World :=
  match instanceof_VideoTrack videoTrack, el_videoTracks (el w) with
  | Some s, Some videoTracks =>
      match js_get videoTracks (index s) with
      | Some _ =>
          let w := _disableVideoTracks w in
          let w := set_selected (Z.to_nat (index s)) true w in
          _onTrackChanged (VideoTrack s) w
      | None => w
      end
  | _, _ => w
  end.

Definition selectAudioTrack (audioTrack : Arg) (w : World) : World :=
  match instanceof_AudioTrack audioTrack, el_audioTracks (el w) with
  | Some s, Some audioTracks =>
      match js_get audioTracks (index s) with
      | Some _ =>
          let w := _disableAudioTracks w in
          let w := set_enabled (Z.to_nat (index s)) true w in
          _onTrackChanged (AudioTrack s) w
      | None => w
      end
  | _, _ => w
  end.

Definition selectTextTrack (textTrack : Arg) (w : World) : World :=
  match instanceof_PKTextTrack textTrack with
  | Some s =>
      if bool_decide (kind s = Some "subtitles")
         || bool_decide (kind s = Some "captions")
      then
        match js_get (el_textTracks (el w)) (index s) with
        | Some _ =>
            let w := _disableTextTracks w in
            let w := set_mode ByAdapter (Z.to_nat (index s)) hidden w in
            _onTrackChanged (PKTextTrack s) w
        | None => w
        end
      else w
  | None => w
  end.

Definition hideTextTrack (w : World) : World := _disableTextTracks w.

(** Live playback. *)
Definition _getLiveEdge (w : World) : option number :=
  let seekable := el_seekable (el w) in
  let buffered := el_buffered (el w) in
  if bool_decide (Z.of_nat (length seekable) ≠ 0)
  then ranges_end seekable (Z.of_nat (length seekable) - 1)
  else if bool_decide (Z.of_nat (length buffered) ≠ 0)
  then ranges_end buffered (Z.of_nat (length buffered) - 1)
  else Some (el_duration (el w)).

(** [seekToLiveEdge()]: whatever is thrown inside the [try], by
    [_getLiveEdge] or by the setter, is swallowed. *)
Definition seekToLiveEdge (w : World) : World :=
  match _getLiveEdge w with
  | Some edge =>
      match set_currentTime edge w with
      | Some w' => w'
      | None => w
      end
  | None => w
  end.

Definition isLive (w : World) : bool :=
  strict_eq (el_duration (el w)) Infinity.

(** Modelled from the spec: [super.duration] is the getter of
    [BaseMediaSourceAdapter], not in the source; by §4.3 it is the raw
    duration the element reports. *)
Definition super_duration (w : World) : number := el_duration (el w).

Definition duration (w : World) : option number :=
  if isLive w then _getLiveEdge w else Some (super_duration w).

Section WithEnv.
Variable env : Env.

Definition _setProgressiveSource (a : Adapter) (w : World) : Adapter :=
  match getSuitableSourceForResolution env (_progressiveSources a)
          (el_offsetWidth (el w)) (el_offsetHeight (el w)) with
  | Some suitableTrack => with_sourceObj (Some suitableTrack) a
  | None => a
  end.

(** [load(startTime)].  The executor of [new Promise] runs at once; the
    handle is stored in [_loadPromise] when it returns.  If the seek to
    the start time throws, the executor ends there: the promise is
    rejected with the error and [load()] is not reached. *)
Definition load (startTime : option number) (a : Adapter) (w : World)
    : handle * Adapter * World :=
  match _loadPromise a with
  | Some p => (p, a, w)
  | None =>
      let '(p, w) := new_promise Pending w in
      let a := listenOnce LOADED_DATA (load_resolve p) a in
      let a := listenOnce ERROR (load_reject p) a in
      let a := if _isProgressivePlayback a
               then _setProgressiveSource a w else a in
      let w := match _sourceObj a with
               | Some s =>
                   if bool_decide (src_url s ≠ "")
                   then _trigger
                          (ABR_MODE_CHANGED
                             (if _isProgressivePlayback a
                              then abr_manual else abr_auto))
                          (set_src (src_url s) w)
                   else w
               | None => w
               end in
      let seeked := match startTime with
                    | Some t => if truthy_number startTime
                                then set_currentTime t w else Some w
                    | None => Some w
                    end in
      match seeked with
      | Some w => (p, with_loadPromise (Some p) a, el_load ByAdapter w)
      | None =>
          (p, with_loadPromise (Some p) a, settle p (Rejected "TypeError") w)
      end
  end.

(** [_selectProgressiveVideoTrack(videoTrack)]: position and paused state
    are read first, then the source is rebound, the one-shot
    [LOADED_DATA] listener is registered and [src] is assigned. *)
Definition _selectProgressiveVideoTrack (videoTrack : Arg) (a : Adapter)
    (w : World) : Adapter * World :=
  match instanceof_VideoTrack videoTrack, _progressiveSources a with
  | Some s, Some videoTracks =>
      match js_get videoTracks (index s) with
      | Some chosen =>
          let currentTime := el_currentTime (el w) in
          let paused := el_paused (el w) in
          let a := with_sourceObj (Some chosen) a in
          let a := listenOnce LOADED_DATA
                     (switch_loaded (VideoTrack s) currentTime paused) a in
          (a, set_src (match _sourceObj a with
                       | Some s => src_url s
                       | None => ""
                       end) w)
      | None => (a, w)
      end
  | _, _ => (a, w)
  end.

Definition selectVideoTrack (videoTrack : Arg) (a : Adapter) (w : World)
    : Adapter * World :=
  if _isProgressivePlayback a
  then _selectProgressiveVideoTrack videoTrack a w
  else (a, selectAdaptiveVideoTrack videoTrack w).

(** The listener bodies.  [detail] is the event object the platform passes
    along (the error, for [ERROR]).  A listener in which the seek throws
    ends at that point. *)
Definition run_handler (h : Handler) (detail : string) (a : Adapter)
    (w : World) : Adapter * World :=
  match h with
  | load_resolve p =>
      (a, settle p (Resolved (TracksObject (_getParsedTracks a w))) w)
  | load_reject p => (a, settle p (Rejected detail) w)
  | switch_loaded videoTrack currentTime paused =>
      if bool_decide (browser_name env = "Android Browser")
      then
        let a := listenOnce DURATION_CHANGE (switch_duration currentTime) a in
        let a := listenOnce SEEKED
                   (switch_seeked_android videoTrack paused) a in
        (a, play w)
      else
        let a := listenOnce SEEKED (switch_seeked videoTrack) a in
        match set_currentTime currentTime w with
        | Some w => (a, if paused then w else play w)
        | None => (a, w)
        end
  | switch_duration currentTime =>
      match set_currentTime currentTime w with
      | Some w => (a, w)
      | None => (a, w)
      end
  | switch_seeked_android videoTrack paused =>
      let w := _onTrackChanged videoTrack w in
      (a, if paused then pause w else w)
  | switch_seeked videoTrack => (a, _onTrackChanged videoTrack w)
  end.

(** The element emits signal [n]: every one-shot listener of that type is
    taken off the event manager and run, in registration order. *)
Definition signal (n : SignalName) (detail : string) (a : Adapter)
    (w : World) : Adapter * World :=
  let due := filter (λ l, l.1 = n) (_eventManager a) in
  let rest := filter (λ l, l.1 ≠ n) (_eventManager a) in
  foldl (λ s l, run_handler l.2 detail s.1 s.2) (with_listeners rest a, w) due.

End WithEnv.

(** [destroy()].  [super.destroy()] is not in the source and is left out;
    the rest is as written. *)
Definition destroy (a : Adapter) (w : World) : Adapter * World :=
  let a := mkAdapter (_sourceObj a) (Some []) None [] in
  match drmProtocol w with
  | Some p =>
      let w := log (E_drm_destroy (protocol_name p)) w in
      (a, mkWorld (el w) (promises w) None (trace w))
  | None => (a, w)
  end.

(** [isAdaptiveBitrateEnabled()] and the [src] getter. *)
Definition isAdaptiveBitrateEnabled (a : Adapter) : bool :=
  negb (_isProgressivePlayback a).

Definition src (w : World) : string := el_src (el w).

End NativeAdapter.

(** ** The engine *)

(** What [attach] and [detach] hand to the event manager: the target
    listened on and the event type.  The element's event names come from
    the [HTML5_EVENTS] table, which is not in the source. *)
Inductive Target := OnElement | OnAdapter.

Inductive CustomEventName :=
| video_track_changed
| audio_track_changed
| text_track_changed
| abr_mode_changed
| text_cue_changed.

Inductive EventType :=
| Html5Event (name : string)
| CustomEvent (name : CustomEventName).


Record Html5 := mkHtml5 {
  _mediaSourceAdapter : option Adapter;
  _showTextTrackFirstTime : gmap Z bool;
  useNativeTextTrack : bool;
}.

Definition with_adapter (a : option Adapter) (f : Html5) : Html5 :=
  mkHtml5 a (_showTextTrackFirstTime f) (useNativeTextTrack f).

Definition with_shown (m : gmap Z bool) (f : Html5) : Html5 :=
  mkHtml5 (_mediaSourceAdapter f) m (useNativeTextTrack f).

Module Html5.

Definition dispatchEvent (ev : Event) (w : World) : World :=
  log (E_emit ByEngine ev) w.

(** The first text track of the element whose mode is not ["disabled"]. *)
Definition _getSelectedTextTrackElement (w : World) : option nat :=
  fst <$> list_find (λ t, ptt_mode t ≠ disabled) (el_textTracks (el w)).

Definition _removeCueChangeListener (w : World) : World :=
  match _getSelectedTextTrackElement w with
  | Some i => set_oncuechange i None w
  | None => w
  end.

(** [this._showTextTrackFirstTime[k]] read as a condition. *)
Definition shown (f : Html5) (k : Z) : bool :=
  match _showTextTrackFirstTime f !! k with
  | Some b => b
  | None => false
  end.

Definition _addCueChangeListener (textTrack : Track) (f : Html5) (w : World)
    : Html5 * World :=
  match _getSelectedTextTrackElement w with
  | Some i =>
      if useNativeTextTrack f
      then (f, set_mode ByEngine i showing w)
      else
        let k := index (settings textTrack) in
        let w := set_mode ByEngine i
                   (if shown f k then hidden else showing) w in
        let f := with_shown (<[k := true]> (_showTextTrackFirstTime f)) f in
        (f, set_oncuechange i (Some call_onCueChange) w)
  | None => (f, w)
  end.

Definition selectTextTrack (textTrack : Track) (f : Html5) (w : World)
    : Html5 * World :=
  let w := _removeCueChangeListener w in
  let w := match _mediaSourceAdapter f with
           | Some _ => NativeAdapter.selectTextTrack (ATrack textTrack) w
           | None => w
           end in
  _addCueChangeListener textTrack f w.

(** One turn of the loop in [_onCueChange]. *)
Definition push_cue (activeCues : list PayloadCue) (cue : PlatformCue)
    : list PayloadCue :=
  match cue with
  | IsVTTCue c => activeCues ++ [Passed c]
  | IsTextTrackCue c =>
      activeCues ++ [Built (mkCue (ttc_startTime c) (ttc_endTime c)
                                  (ttc_text c))]
  | IsForeign _ => activeCues
  end.

(** [_onCueChange(e)], with [i] the position of [e.currentTarget]. *)
Definition _onCueChange (i : nat) (w : World) : World :=
  let w := set_mode ByEngine i hidden w in
  let cues := match el_textTracks (el w) !! i with
              | Some textTrack => ptt_activeCues textTrack
              | None => []
              end in
  dispatchEvent (TEXT_CUE_CHANGED (foldl push_cue [] cues)) w.

(** The platform raises [cuechange] on text track [i]: the handler stored
    in its [oncuechange], if any, runs. *)
Definition cuechange (i : nat) (w : World) : World :=
  match el_textTracks (el w) !! i with
  | Some t =>
      match ptt_oncuechange t with
      | Some call_onCueChange => _onCueChange i w
      | None => w
      end
  | None => w
  end.

Definition hideTextTrack (f : Html5) (w : World) : World :=
  let w := match _mediaSourceAdapter f with
           | Some _ => NativeAdapter.hideTextTrack w
           | None => w
           end in
  _removeCueChangeListener w.

Definition selectVideoTrack (videoTrack : Track) (f : Html5) (w : World)
    : Html5 * World :=
  match _mediaSourceAdapter f with
  | Some a =>
      let '(a, w) := NativeAdapter.selectVideoTrack (ATrack videoTrack) a w in
      (with_adapter (Some a) f, w)
  | None => (f, w)
  end.

Definition selectAudioTrack (audioTrack : Track) (f : Html5) (w : World)
    : World :=
  match _mediaSourceAdapter f with
  | Some _ => NativeAdapter.selectAudioTrack (ATrack audioTrack) w
  | None => w
  end.

Definition isLive (f : Html5) (w : World) : bool :=
  match _mediaSourceAdapter f with
  | Some _ => NativeAdapter.isLive w
  | None => false
  end.

Definition duration (f : Html5) (w : World) : option number :=
  match _mediaSourceAdapter f with
  | Some _ => NativeAdapter.duration w
  | None => Some NaN
  end.

Section WithEnv.
Variable env : Env.

(** [load(startTime)]; [Promise.resolve({})] is a fresh promise that is
    already resolved with the empty object. *)
Definition load (startTime : option number) (f : Html5) (w : World)
    : handle * Html5 * World :=
  let w := el_load ByEngine w in
  match _mediaSourceAdapter f with
  | Some a =>
      let '(p, a, w) := NativeAdapter.load env startTime a w in
      (p, with_adapter (Some a) f, w)
  | None =>
      let '(p, w) := new_promise (Resolved EmptyObject) w in
      (p, f, w)
  end.

(** A signal of the element reaches the adapter's listeners. *)
Definition signal (n : SignalName) (detail : string) (f : Html5) (w : World)
    : Html5 * World :=
  match _mediaSourceAdapter f with
  | Some a =>
      let '(a, w) := NativeAdapter.signal env n detail a w in
      (with_adapter (Some a) f, w)
  | None => (f, w)
  end.

End WithEnv.

Definition seekToLiveEdge (f : Html5) (w : World) : World :=
  match _mediaSourceAdapter f with
  | Some _ => NativeAdapter.seekToLiveEdge w
  | None => w
  end.

Definition isAdaptiveBitrateEnabled (f : Html5) : bool :=
  match _mediaSourceAdapter f with
  | Some a => NativeAdapter.isAdaptiveBitrateEnabled a
  | None => false
  end.

Definition src (f : Html5) (w : World) : string :=
  match _mediaSourceAdapter f with
  | Some _ => NativeAdapter.src w
  | None => ""
  end.

(** [attach()]: the [listen] calls it makes, in order.  [Html5Events] are
    the values of the [HTML5_EVENTS] table in key order. *)
Definition attach (Html5Events : list string) (f : Html5)
    : list (Target * EventType) :=
  ((λ playerEvent, (OnElement, Html5Event playerEvent)) <$> Html5Events)
  ++ match _mediaSourceAdapter f with
     | Some _ =>
         [(OnAdapter, CustomEvent video_track_changed);
          (OnAdapter, CustomEvent audio_track_changed);
          (OnAdapter, CustomEvent text_track_changed);
          (OnAdapter, CustomEvent abr_mode_changed);
          (OnAdapter, CustomEvent text_cue_changed)]
     | None => []
     end.

(** [detach()]: the [unlisten] calls it makes, in order. *)
Definition detach (Html5Events : list string) (f : Html5)
    : list (Target * EventType) :=
  ((λ playerEvent, (OnElement, Html5Event playerEvent)) <$> Html5Events)
  ++ match _mediaSourceAdapter f with
     | Some _ =>
         [(OnAdapter, CustomEvent video_track_changed);
          (OnAdapter, CustomEvent audio_track_changed);
          (OnAdapter, CustomEvent text_track_changed);
          (OnAdapter, CustomEvent text_cue_changed)]
     | None => []
     end.

(** The [playsinline] setter and getter, on the attributes of the video
    element: [setAttribute('playsinline', '')] or
    [removeAttribute('playsinline')], and
    [getAttribute('playsinline') === '']. *)
Definition set_playsinline (playsinline : bool) (attrs : gmap string string)
    : gmap string string :=
  if playsinline
  then <["playsinline" := ""]> attrs
  else delete "playsinline" attrs.

Definition get_playsinline (attrs : gmap string string) : bool :=
  bool_decide (attrs !! "playsinline" = Some "").

End Html5.

(** * Vocabulary of the properties *)

(** ** Live edge, DRM choice, selection arguments *)

(** The end of the last range of a [TimeRanges] object, if it has one. *)
Definition last_end (r : TimeRanges) : option number := snd <$> last r.

(** The protocols [canPlayDrm] asks, in order: all of them up to and
    including the first that reports support. *)
Fixpoint asked (protocols : list DrmProtocol) (drmData : list DrmData)
    : list DrmProtocol :=
  match protocols with
  | [] => []
  | p :: rest =>
      if protocol_canPlayDrm p drmData then [p] else p :: asked rest drmData
  end.

Definition supports (drmData : list DrmData) (p : DrmProtocol) : Prop :=
  protocol_canPlayDrm p drmData = true.

Global Instance supports_dec drmData p : Decision (supports drmData p).
Proof. unfold supports. apply _. Defined.

Definition in_bounds {A} (tracks : list A) (i : Z) : Prop :=
  0 ≤ i < Z.of_nat (length tracks).

(** [arg] is no instance of the class [cls] checks for, or its index lies
    outside [tracks]. *)
Definition invalid_for {A} (cls : Arg → option Settings) (tracks : list A)
    (arg : Arg) : Prop :=
  match cls arg with
  | Some s => ¬ in_bounds tracks (index s)
  | None => True
  end.

Definition kind_selectable (s : Settings) : Prop :=
  kind s = Some "subtitles" ∨ kind s = Some "captions".

Definition invalid_text (tracks : list PlatTextTrack) (arg : Arg) : Prop :=
  match instanceof_PKTextTrack arg with
  | Some s => ¬ in_bounds tracks (index s) ∨ ¬ kind_selectable s
  | None => True
  end.

(** A track list the platform does not provide has no valid index. *)
Definition or_empty {A} (l : option (list A)) : list A := default [] l.

(** The three public selection methods of the adapter as one call. *)
Inductive Selection :=
| SelectVideo (arg : Arg)
| SelectAudio (arg : Arg)
| SelectText (arg : Arg).

Definition select (c : Selection) (a : Adapter) (w : World)
    : Adapter * World :=
  match c with
  | SelectVideo arg => NativeAdapter.selectVideoTrack arg a w
  | SelectAudio arg => (a, NativeAdapter.selectAudioTrack arg w)
  | SelectText arg => (a, NativeAdapter.selectTextTrack arg w)
  end.

(** The argument of the call is of the wrong class, or its index is outside
    the list the call would select from, or (text) its kind is neither
    subtitles nor captions. *)
Definition invalid (c : Selection) (a : Adapter) (w : World) : Prop :=
  match c with
  | SelectVideo arg =>
      if NativeAdapter._isProgressivePlayback a
      then invalid_for instanceof_VideoTrack
             (or_empty (_progressiveSources a)) arg
      else invalid_for instanceof_VideoTrack
             (or_empty (el_videoTracks (el w))) arg
  | SelectAudio arg =>
      invalid_for instanceof_AudioTrack (or_empty (el_audioTracks (el w))) arg
  | SelectText arg => invalid_text (el_textTracks (el w)) arg
  end.

(** ** Cues, loading, rendition switch, text tracks *)

(** The two platform cue shapes the handler understands. *)
Definition supported (c : PlatformCue) : Prop :=
  match c with
  | IsVTTCue _ | IsTextTrackCue _ => True
  | IsForeign _ => False
  end.

(** Start, end and text of a platform cue of a supported shape. *)
Definition fields (c : PlatformCue) : option Cue :=
  match c with
  | IsVTTCue v => Some (mkCue (vtt_startTime v) (vtt_endTime v) (vtt_text v))
  | IsTextTrackCue t =>
      Some (mkCue (ttc_startTime t) (ttc_endTime t) (ttc_text t))
  | IsForeign _ => None
  end.

(** A payload cue read through its canonical fields. *)
Definition canonical (c : PayloadCue) : Cue :=
  mkCue (startTime c) (endTime c) (text c).

Definition normalize (c : PlatformCue) : option PayloadCue :=
  match c with
  | IsVTTCue v => Some (Passed v)
  | IsTextTrackCue t =>
      Some (Built (mkCue (ttc_startTime t) (ttc_endTime t) (ttc_text t)))
  | IsForeign _ => None
  end.

Definition is_adapter_load (e : Effect) : bool :=
  match e with E_load ByAdapter => true | _ => false end.

(** How often the adapter has called [load()] on the element so far. *)
Definition adapter_loads (w : World) : nat :=
  length (filter (λ e, is_adapter_load e = true) (trace w)).

(** What the adapter-level calls are. *)
Inductive AdapterCall :=
| Load (startTime : option number)
| Select (c : Selection)
| HideTextTrack
| SeekToLiveEdge
| Signal (n : SignalName) (detail : string).

(** One call on the adapter; a [Load] hands back the promise handle. *)
Definition step (env : Env) (c : AdapterCall) (s : Adapter * World)
    : option handle * (Adapter * World) :=
  match c with
  | Load startTime =>
      let '(p, a, w) := NativeAdapter.load env startTime s.1 s.2 in
      (Some p, (a, w))
  | Select c => (None, select c s.1 s.2)
  | HideTextTrack => (None, (s.1, NativeAdapter.hideTextTrack s.2))
  | SeekToLiveEdge => (None, (s.1, NativeAdapter.seekToLiveEdge s.2))
  | Signal n detail => (None, NativeAdapter.signal env n detail s.1 s.2)
  end.

(** A sequence of calls; the result lists the handles the [Load]s
    returned, in call order. *)
Fixpoint run (env : Env) (calls : list AdapterCall) (s : Adapter * World)
    : list handle * (Adapter * World) :=
  match calls with
  | [] => ([], s)
  | c :: calls =>
      let r := step env c s in
      let r' := run env calls r.2 in
      (option_list r.1 ++ r'.1, r'.2)
  end.

(** The part of the world [load] is judged by. *)
Definition load_view (w : World) : nat * nat :=
  (adapter_loads w, length (promises w)).

(** Selecting, hiding, seeking and signals leave the load handle, the count
    of platform loads and the number of promise objects alone. *)
Definition load_state (s : Adapter * World) : option handle * (nat * nat) :=
  (_loadPromise s.1, load_view s.2).

(** Start times at which the seek in [load] throws: the truthy ones that
    are not finite, which are the two infinities. *)
Definition throwing (startTime : option number) : bool :=
  match startTime with
  | Some t => truthy_number startTime && negb (finite t)
  | None => false
  end.

(** The start time of the first [Load] among [calls]. *)
Fixpoint first_start (calls : list AdapterCall) : option (option number) :=
  match calls with
  | [] => None
  | Load startTime :: _ => Some startTime
  | _ :: calls => first_start calls
  end.

(** How often [calls], made on a fresh adapter, lead to [load()] on the
    element. *)
Definition platform_loads (calls : list AdapterCall) : nat :=
  match first_start calls with
  | Some startTime => if throwing startTime then 0 else 1
  | None => 0
  end.

(** What a run of [calls] from a state with load state [ls] must satisfy. *)
Definition run_post (ls : option handle * (nat * nat))
    (calls : list AdapterCall) (r : list handle * (Adapter * World)) : Prop :=
  match ls.1 with
  | Some p => Forall (eq p) r.1 ∧ load_state r.2 = ls
  | None =>
      match r.1 with
      | [] => load_state r.2 = ls
      | p :: hs =>
          Forall (eq p) hs
          ∧ load_state r.2 =
              (Some p, ((ls.2.1 + platform_loads calls)%nat, S ls.2.2))
          ∧ p = ls.2.2
      end
  end.

Definition extends (w w' : World) : Prop := ∃ tl, trace w' = trace w ++ tl.

(** The listeners [load()] leaves on the event manager. *)
Definition is_load_listener (l : SignalName * Handler) : Prop :=
  match l with
  | (LOADED_DATA, load_resolve _) | (ERROR, load_reject _) => True
  | _ => False
  end.

(** Two worlds with the same element and the same trace. *)
Definition same_sink (w w' : World) : Prop :=
  el w' = el w ∧ trace w' = trace w.

Definition deliver (env : Env) (signals : list SignalName)
    (s : Adapter * World) : Adapter * World :=
  foldl (λ s n, NativeAdapter.signal env n "" s.1 s.2) s signals.

Definition android (env : Env) : bool :=
  bool_decide (browser_name env = "Android Browser").

(** What a switch of a progressive rendition does at each signal it waits
    for, by platform family: [currentTime] and [paused] are the values the
    element had when the switch was requested. *)
Definition switch_script (env : Env) (videoTrack : Track)
    (currentTime : number) (paused : bool)
    : list (SignalName * list Effect) :=
  if android env
  then [ (LOADED_DATA, [E_play]);
         (DURATION_CHANGE, [E_set_currentTime currentTime]);
         (SEEKED, E_emit ByAdapter (VIDEO_TRACK_CHANGED videoTrack)
                  :: (if paused then [E_pause] else [])) ]
  else [ (LOADED_DATA, E_set_currentTime currentTime
                       :: (if paused then [] else [E_play]));
         (SEEKED, [E_emit ByAdapter (VIDEO_TRACK_CHANGED videoTrack)]) ].

(** Calls that restore position or play state. *)
Definition restoring (e : Effect) : bool :=
  match e with
  | E_set_currentTime _ | E_play | E_pause => true
  | _ => false
  end.

Definition run_handlers (env : Env) (detail : string)
    (due : list (SignalName * Handler)) (s : Adapter * World)
    : Adapter * World :=
  foldl (λ (s : Adapter * World) (l : SignalName * Handler),
           NativeAdapter.run_handler env l.2 detail s.1 s.2) s due.

(** The effects of [_disableTextTracks] on [n] text tracks. *)
Definition disabling (n : nat) : list Effect :=
  (λ i, E_set_mode ByAdapter i disabled) <$> seq 0 n.

(** A text track the adapter accepts for selection. *)
Definition selectable (tracks : list PlatTextTrack) (t : Track) : bool :=
  match t with
  | PKTextTrack s =>
      (bool_decide (kind s = Some "subtitles")
       || bool_decide (kind s = Some "captions"))
      && bool_decide (in_bounds tracks (index s))
  | _ => false
  end.

(** What the adapter's [selectTextTrack] does, seen from outside. *)
Definition switching (tracks : list PlatTextTrack) (t : Track)
    : list Effect :=
  if selectable tracks t
  then disabling (length tracks)
       ++ [E_set_mode ByAdapter (Z.to_nat (index (settings t))) hidden;
           E_emit ByAdapter (TEXT_TRACK_CHANGED t)]
  else [].

Definition switched (tracks : list PlatTextTrack) (t : Track)
    : list PlatTextTrack :=
  if selectable tracks t
  then alter (mode_to hidden) (Z.to_nat (index (settings t)))
         (mode_to disabled <$> tracks)
  else tracks.

(** The position of the first text track that is not disabled. *)
Definition first_active (tracks : list PlatTextTrack) : option nat :=
  fst <$> list_find (λ t, ptt_mode t ≠ disabled) tracks.

(** Step (a): what [_removeCueChangeListener] does. *)
Definition removal (tracks : list PlatTextTrack) : list Effect :=
  match first_active tracks with
  | Some i => [E_set_oncuechange i None]
  | None => []
  end.

Definition unsubscribed (tracks : list PlatTextTrack)
    : list PlatTextTrack :=
  match first_active tracks with
  | Some i => alter (oncuechange_to None) i tracks
  | None => tracks
  end.

(** Step (c): what [_addCueChangeListener] does on the track that is active
    once the switch is over. *)
Definition installation (f : Html5) (k : Z) (tracks : list PlatTextTrack)
    : list Effect :=
  match first_active tracks with
  | Some j =>
      if useNativeTextTrack f
      then [E_set_mode ByEngine j showing]
      else [E_set_mode ByEngine j (if Html5.shown f k then hidden else showing);
            E_set_oncuechange j (Some call_onCueChange)]
  | None => []
  end.

Definition bound (f : Html5) : bool :=
  match _mediaSourceAdapter f with Some _ => true | None => false end.

(** What an application may call on the engine between two activations,
    and what the platform may signal. *)
Inductive EngineCall :=
| CallSelectTextTrack (t : Track)
| CallHideTextTrack
| CallSelectAudioTrack (t : Track)
| CallSelectVideoTrack (t : Track)
| CallLoad (startTime : option number)
| ElementSignal (n : SignalName) (detail : string)
| CueChangeOn (i : nat).

Definition engine_step (env : Env) (c : EngineCall) (s : Html5 * World)
    : Html5 * World :=
  match c with
  | CallSelectTextTrack t => Html5.selectTextTrack t s.1 s.2
  | CallHideTextTrack => (s.1, Html5.hideTextTrack s.1 s.2)
  | CallSelectAudioTrack t => (s.1, Html5.selectAudioTrack t s.1 s.2)
  | CallSelectVideoTrack t => Html5.selectVideoTrack t s.1 s.2
  | CallLoad startTime =>
      let r := Html5.load env startTime s.1 s.2 in (r.1.2, r.2)
  | ElementSignal n detail => Html5.signal env n detail s.1 s.2
  | CueChangeOn i => (s.1, Html5.cuechange i s.2)
  end.

Definition engine_run (env : Env) (calls : list EngineCall)
    (s : Html5 * World) : Html5 * World :=
  foldl (λ s c, engine_step env c s) s calls.

(** A [selectTextTrack] call that passes a track with index [K]. *)
Definition carries (K : Z) (c : EngineCall) : bool :=
  match c with
  | CallSelectTextTrack t => bool_decide (index (settings t) = K)
  | _ => false
  end.

(** Every [selectTextTrack] among [calls] passes a track the adapter
    accepts when the call is made. *)
Fixpoint all_accepted (env : Env) (calls : list EngineCall)
    (s : Html5 * World) : bool :=
  match calls with
  | [] => true
  | c :: calls =>
      match c with
      | CallSelectTextTrack t => selectable (el_textTracks (el s.2)) t
      | _ => true
      end
      && all_accepted env calls (engine_step env c s)
  end.

(** What of the engine the cue bookkeeping depends on: the configuration,
    whether an adapter is bound, and which indices are recorded. *)
Definition keeps_record (K : Z) (f f' : Html5) : Prop :=
  useNativeTextTrack f' = useNativeTextTrack f
  ∧ bound f' = bound f
  ∧ (Html5.shown f K = true → Html5.shown f' K = true).

(** ** Sample states

    Two progressive renditions, an element playing at 12.5 s with three
    text tracks, an adapter bound to the first rendition, and engines with
    and without native text-track rendering. *)

Definition src_360 : Source :=
  mkSource "360p" "https://cdn.example/360.mp4" "video/mp4" None
           800000 640 360.

Definition src_720 : Source :=
  mkSource "720p" "https://cdn.example/720.mp4" "video/mp4" None
           2400000 1280 720.

Definition english : PlatTextTrack :=
  mkPTT "subtitles" disabled "English" "en" None
    [IsVTTCue (mkVTT (Num (Qc_of_Z 1)) (Num (Qc_of_Z 4)) "Hello" "center" "");
     IsTextTrackCue (mkTTC "c2" (Num (Qc_of_Z 2)) (Num (Qc_of_Z 5)) "world");
     IsVTTCue (mkVTT (Num (Qc_of_Z 3)) (Num (Qc_of_Z 6)) "again" "start" "")].

Definition french : PlatTextTrack :=
  mkPTT "captions" disabled "Français" "fr" None [].

Definition chapters : PlatTextTrack :=
  mkPTT "metadata" disabled "Chapters" "en" None [].

Definition el_playing : VideoElement :=
  mkEl "https://cdn.example/360.mp4" (Num (Q2Qc (25 # 2))) false
       (Num (Qc_of_Z 600)) [] [] 640 360 None None [english; french; chapters].

Definition world0 : World := mkWorld el_playing [] None [].

Definition adapter0 : Adapter :=
  mkAdapter (Some src_360) (Some [src_360; src_720]) None [].

(** A stand-in for the resolution-match rule: the first variant. *)
Definition first_variant (sources : option (list Source)) (w h : Z)
    : option Source :=
  sources ≫= head.

Definition env_desktop : Env := mkEnv "Chrome" first_variant.
Definition env_android : Env := mkEnv "Android Browser" first_variant.

Definition engine0 : Html5 := mkHtml5 (Some adapter0) ∅ false.
Definition engine_native : Html5 := mkHtml5 (Some adapter0) ∅ true.

Definition video_720 : Settings :=
  mkSettings (Some "720p") 1 false None None None
             (Some 2400000) (Some 1280) (Some 720).

Definition text_english : Settings :=
  mkSettings None 0 false (Some "English") (Some "en") (Some "subtitles")
             None None None.

Definition text_out_of_range : Settings :=
  mkSettings None 7 false (Some "Klingon") (Some "tlh") (Some "subtitles")
             None None None.

Definition text_english_again : Settings :=
  mkSettings None 0 true (Some "English") (Some "en") (Some "subtitles")
             None None None.

Definition text_french : Settings :=
  mkSettings None 1 false (Some "Français") (Some "fr") (Some "captions")
             None None None.

(** The world after the engine has activated the English track once: the
    track is showing and carries the engine's handler. *)
Definition world_showing : World :=
  (Html5.selectTextTrack (PKTextTrack text_english) engine0 world0).2.

Definition english_showing : PlatTextTrack :=
  oncuechange_to (Some call_onCueChange) (mode_to showing english).

(** ** The specification's wording, where the code differs *)

(** §4.3, §8: no position or play-state restoration before the seek is
    confirmed.  [signals] are the signals delivered after the switch was
    requested. *)
Definition restores_only_after_seeked (env : Env) (a : Adapter) (w : World)
    (s : Settings) (signals : list SignalName) : Prop :=
  SEEKED ∉ signals →
  let s0 := NativeAdapter.selectVideoTrack (ATrack (VideoTrack s)) a w in
  existsb restoring
    (drop (length (trace w)) (trace (deliver env signals s0).2)) = false.

(** §4.2: every [selectTextTrack] ends with a fresh cue-change
    subscription on the track now active. *)
Definition subscribes_active_track (t : Track) (f : Html5) (w : World)
    : Prop :=
  let r := Html5.selectTextTrack t f w in
  ∀ j, first_active (el_textTracks (el r.2)) = Some j →
       ptt_oncuechange <$> el_textTracks (el r.2) !! j =
       Some (Some call_onCueChange).

(** §4.1, §8: the first [load()] hands back a pending handle. *)
Definition first_load_pending (env : Env) (startTime : option number)
    (a : Adapter) (w : World) : Prop :=
  _loadPromise a = None →
  let r := NativeAdapter.load env startTime a w in
  promises r.2 !! r.1.1 = Some Pending.

(** §4.3: after its first cue change a text track is hidden, whatever the
    application calls next. *)
Definition hidden_for_good (env : Env) (j : nat) (f : Html5) (w : World)
    (calls : list EngineCall) : Prop :=
  let r := engine_run env calls (f, Html5.cuechange j w) in
  ptt_mode <$> el_textTracks (el r.2) !! j = Some hidden.

(** §4.3, §8: an activation records the index, and a second activation of
    the same index uses hidden mode. *)
Definition second_activation_hidden (s : Settings) (f : Html5) (w : World)
    : Prop :=
  let r1 := Html5.selectTextTrack (PKTextTrack s) f w in
  let r2 := Html5.selectTextTrack (PKTextTrack s) r1.1 r1.2 in
  Html5.shown r1.1 (index s) = true
  ∧ ptt_mode <$> el_textTracks (el r2.2) !! Z.to_nat (index s) = Some hidden.

(** ** Selection and enumeration *)

(** The effects of [_disableVideoTracks] and [_disableAudioTracks] on [n]
    tracks. *)
Definition unselecting (n : nat) : list Effect :=
  (λ i, E_set_selected i false) <$> seq 0 n.

Definition muting (n : nat) : list Effect :=
  (λ i, E_set_enabled i false) <$> seq 0 n.

(** The [active] flags of an enumeration, in order. *)
Definition actives (tracks : list Track) : list bool :=
  (λ t, active (settings t)) <$> tracks.

(** The flags with only position [j] set, for [n] tracks. *)
Definition only (j n : nat) : list bool :=
  (λ i, bool_decide (i = j)) <$> seq 0 n.

(** An enumeration without its [active] flags. *)
Definition inactive (t : Track) : Track :=
  let s := settings t in
  let s' := mkSettings (id s) (index s) false (label s) (language s)
              (kind s) (bandwidth s) (width s) (height s) in
  match t with
  | VideoTrack _ => VideoTrack s'
  | AudioTrack _ => AudioTrack s'
  | PKTextTrack _ => PKTextTrack s'
  end.

(** ** Loading *)

(** What [load] calls on the element to bind the source [a] ends up with:
    the [src] assignment and the ABR mode announcement, if the source has a
    URL. *)
Definition binding (a : Adapter) : list Effect :=
  match _sourceObj a with
  | Some s =>
      if bool_decide (src_url s ≠ "")
      then [E_set_src (src_url s);
            E_emit ByAdapter
              (ABR_MODE_CHANGED
                 (if NativeAdapter.isAdaptiveBitrateEnabled a
                  then abr_auto else abr_manual))]
      else []
  | None => []
  end.

(** The seek [load] issues for its start time, when the element takes
    it. *)
Definition preseek (startTime : option number) : list Effect :=
  match startTime with
  | Some (Num q) =>
      if bool_decide (q = 0%Qc) then [] else [E_set_currentTime (Num q)]
  | _ => []
  end.

(** What [load] calls on the element once the source is bound: the seek
    and [load()], or nothing when the seek throws. *)
Definition loading (startTime : option number) : list Effect :=
  if throwing startTime then []
  else preseek startTime ++ [E_load ByAdapter].

(** What the first [load(startTime)] leaves of its promise. *)
Definition first_state (startTime : option number) : PromiseState :=
  if throwing startTime then Rejected "TypeError" else Pending.

(** ** Live edge and signals *)

(** The live edge as the ranges give it. *)
Definition live_edge (w : World) : number :=
  match last_end (el_seekable (el w)) with
  | Some e => e
  | None =>
      match last_end (el_buffered (el w)) with
      | Some e => e
      | None => el_duration (el w)
      end
  end.

(** Signals with their event objects, delivered in order. *)
Definition deliver_all (env : Env) (signals : list (SignalName * string))
    (s : Adapter * World) : Adapter * World :=
  foldl (λ s n, NativeAdapter.signal env n.1 n.2 s.1 s.2) s signals.

(** ** Repeated loads at the engine *)

Definition is_load_by (c : Caller) (e : Effect) : bool :=
  match e, c with
  | E_load ByEngine, ByEngine | E_load ByAdapter, ByAdapter => true
  | _, _ => false
  end.

(** How often [c] has called [load()] on the element. *)
Definition loads_by (c : Caller) (w : World) : nat :=
  length (filter (λ e, is_load_by c e = true) (trace w)).

(** The engine's [load] called once per start time, in order; the result
    lists the handles returned. *)
Fixpoint engine_loads (env : Env) (starts : list (option number))
    (s : Html5 * World) : list handle * (Html5 * World) :=
  match starts with
  | [] => ([], s)
  | startTime :: starts =>
      let r := Html5.load env startTime s.1 s.2 in
      let r' := engine_loads env starts (r.1.2, r.2) in
      (r.1.1 :: r'.1, r'.2)
  end.

(** ** More sample states

    An adaptive stream with two video and three audio renditions. *)

Definition src_hls : Source :=
  mkSource "hls" "https://cdn.example/master.m3u8" "application/x-mpegURL"
           None 0 0 0.

Definition hls_video : list PlatVideoTrack :=
  [mkPVT "v-low" true "low" "en"; mkPVT "v-high" false "high" "en"].

Definition hls_audio : list PlatAudioTrack :=
  [mkPAT "a-en" true "English" "en"; mkPAT "a-fr" false "Français" "fr";
   mkPAT "a-de" false "Deutsch" "de"].

Definition el_hls : VideoElement :=
  mkEl "https://cdn.example/master.m3u8" (Num 0%Qc) true Infinity
       [(Num 0%Qc, Num (Qc_of_Z 90))] [] 1280 720
       (Some hls_video) (Some hls_audio) [english; french].

Definition world_hls : World := mkWorld el_hls [] None [].

Definition adapter_hls : Adapter := mkAdapter (Some src_hls) None None [].

Definition video_high : Settings :=
  mkSettings (Some "v-high") 1 false (Some "high") (Some "en") None
             None None None.

Definition audio_de : Settings :=
  mkSettings (Some "a-de") 2 false (Some "Deutsch") (Some "de") None
             None None None.

(** The English track as the enumeration of [world0] returns it. *)
Definition enumerated_english : Track :=
  PKTextTrack (mkSettings None 0 false (Some "English") (Some "en")
                 (Some "subtitles") None None None).

(** The world in which the English track, shown once, has had its first
    cue change. *)
Definition world_hidden : World := Html5.cuechange 0 world_showing.

Definition engine_shown : Html5 :=
  (Html5.selectTextTrack (PKTextTrack text_english) engine0 world0).1.

(** * Properties *)

(** ** Array access *)

Lemma js_get_in_bounds {A} (l : list A) (i : Z) :
  is_Some (js_get l i) ↔ 0 ≤ i < Z.of_nat (length l).
Proof.
  unfold js_get. case_decide as Hi.
  - rewrite lookup_lt_is_Some. lia.
  - split; [intros [x Hx]; discriminate | lia].
Qed.

Lemma js_get_out_of_bounds {A} (l : list A) (i : Z) :
  ¬ (0 ≤ i < Z.of_nat (length l)) → js_get l i = None.
Proof.
  intros Hi. destruct (js_get l i) eqn:E; [|done].
  exfalso. apply Hi, js_get_in_bounds. by eexists.
Qed.

Lemma js_get_last {A} (l : list A) :
  l ≠ [] → js_get l (Z.of_nat (length l) - 1) = last l.
Proof.
  intros Hl. unfold js_get. destruct l as [|x l]; [done|].
  rewrite last_lookup. cbn [length]. case_decide; [|lia].
  f_equal. lia.
Qed.

(** ** Live playback (C5) *)

Lemma strict_eq_Infinity (n : number) :
  strict_eq n Infinity = true ↔ n = Infinity.
Proof. destruct n; cbn; split; intros H; first [discriminate | reflexivity]. Qed.

Lemma ranges_end_last (r : TimeRanges) :
  r ≠ [] → ranges_end r (Z.of_nat (length r) - 1) = last_end r.
Proof. intros Hr. unfold ranges_end, last_end. by rewrite js_get_last. Qed.

Lemma last_end_nonempty (r : TimeRanges) :
  r ≠ [] → ∃ e, last_end r = Some e.
Proof.
  intros Hr. unfold last_end. destruct (last r) as [x|] eqn:El.
  - by exists x.2.
  - by apply last_None in El.
Qed.

(** C5. [isLive()] is true exactly when the element's duration is
    [Infinity]; [_getLiveEdge()] never throws and yields the end of the
    last seekable range when there is one, else the end of the last
    buffered range when there is one, else the reported duration; and the
    [duration] getter answers with the live edge while [isLive()] holds and
    with the raw duration otherwise. *)
Theorem C5_live_edge_and_duration (w : World) :
  (NativeAdapter.isLive w = true ↔ el_duration (el w) = Infinity)
  ∧ NativeAdapter._getLiveEdge w =
      Some (match last_end (el_seekable (el w)) with
            | Some e => e
            | None =>
                match last_end (el_buffered (el w)) with
                | Some e => e
                | None => el_duration (el w)
                end
            end)
  ∧ NativeAdapter.duration w =
      (if NativeAdapter.isLive w
       then NativeAdapter._getLiveEdge w
       else Some (el_duration (el w)))
  ∧ is_Some (NativeAdapter.duration w).
Proof.
  assert (Hedge : NativeAdapter._getLiveEdge w =
      Some (match last_end (el_seekable (el w)) with
            | Some e => e
            | None =>
                match last_end (el_buffered (el w)) with
                | Some e => e
                | None => el_duration (el w)
                end
            end)).
  { unfold NativeAdapter._getLiveEdge.
    destruct (el_seekable (el w)) as [|s ss] eqn:Hs.
    - rewrite bool_decide_eq_false_2 by (cbn; lia).
      destruct (el_buffered (el w)) as [|b bs] eqn:Hb.
      + rewrite bool_decide_eq_false_2 by (cbn; lia). reflexivity.
      + rewrite bool_decide_eq_true_2 by (cbn; lia).
        rewrite ranges_end_last by done.
        destruct (last_end_nonempty (b :: bs)) as [e He]; [done|].
        rewrite He. reflexivity.
    - rewrite bool_decide_eq_true_2 by (cbn; lia).
      rewrite ranges_end_last by done.
      destruct (last_end_nonempty (s :: ss)) as [e He]; [done|].
      rewrite He. reflexivity. }
  split; [apply strict_eq_Infinity|].
  split; [exact Hedge|].
  split; [reflexivity|].
  unfold NativeAdapter.duration.
  destruct (NativeAdapter.isLive w); [rewrite Hedge|]; by eexists.
Qed.

(** ** DRM protocol choice (C3) *)

Lemma canPlayDrm_loop_spec protocols drmData w :
  let r := NativeAdapter.canPlayDrm_loop protocols drmData w in
  el r.2 = el w ∧ promises r.2 = promises w
  ∧ trace r.2 = trace w ++ (E_probe ∘ protocol_name <$> asked protocols drmData)
  ∧ match list_find (supports drmData) protocols with
    | Some (i, p) =>
        r.1 = true ∧ drmProtocol r.2 = Some p
        ∧ asked protocols drmData = take (S i) protocols
    | None =>
        r.1 = false ∧ drmProtocol r.2 = drmProtocol w
        ∧ asked protocols drmData = protocols
    end.
Proof.
  revert w. induction protocols as [|p rest IH]; intros w; cbn.
  - by rewrite app_nil_r.
  - case_decide as Hp; unfold supports in Hp.
    + rewrite Hp. cbn. done.
    + apply not_true_is_false in Hp. rewrite Hp.
      specialize (IH (log (E_probe (protocol_name p)) w)).
      cbn in IH. destruct IH as (He & Hpr & Htr & Hfind).
      rewrite He, Hpr, Htr. cbn. rewrite <- app_assoc. cbn.
      repeat split; try done.
      destruct (list_find (supports drmData) rest) as [[i q]|]; cbn.
      * destruct Hfind as (? & ? & ->). done.
      * destruct Hfind as (? & ? & ->). done.
Qed.

(** C3. [canPlayDrm] asks the registered DRM protocols in order and stops
    at the first that reports support: that protocol becomes the bound
    protocol, none after it is asked, and the result is [true]; the result
    is [true] exactly when some registered protocol supports the data; when
    none does the result is [false], every protocol has been asked and the
    bound protocol is left as it was (none, if none was bound). *)
Theorem C3_canPlayDrm_first_match (protocols : list DrmProtocol)
    (drmData : list DrmData) (w : World) :
  let r := NativeAdapter.canPlayDrm protocols drmData w in
  match list_find (supports drmData) protocols with
  | Some (i, p) =>
      r.1 = true ∧ drmProtocol r.2 = Some p
      ∧ trace r.2 =
          trace w ++ (E_probe ∘ protocol_name <$> take (S i) protocols)
  | None =>
      r.1 = false ∧ drmProtocol r.2 = drmProtocol w
      ∧ trace r.2 = trace w ++ (E_probe ∘ protocol_name <$> protocols)
  end
  ∧ (r.1 = true ↔ ∃ p, p ∈ protocols ∧ supports drmData p)
  ∧ el r.2 = el w ∧ promises r.2 = promises w.
Proof.
  intros r. subst r. unfold NativeAdapter.canPlayDrm.
  pose proof (canPlayDrm_loop_spec protocols drmData w) as H.
  cbn zeta in H. destruct H as (He & Hpr & Htr & Hfind).
  destruct (list_find (supports drmData) protocols) as [[i p]|] eqn:Hf.
  - destruct Hfind as (Hr & Hb & Ha). rewrite Ha in Htr.
    apply list_find_Some in Hf as (Hi & Hp & _).
    repeat split; try done.
    intros _. exists p. split; [|done].
    apply list_elem_of_lookup. by exists i.
  - destruct Hfind as (Hr & Hb & Ha). rewrite Ha in Htr.
    repeat split; try done.
    + rewrite Hr. discriminate.
    + intros (p & Hin & Hp). exfalso.
      apply list_find_None in Hf. rewrite Forall_forall in Hf.
      by apply (Hf p).
Qed.

(** ** Invalid selection arguments (C4) *)

Lemma selectAdaptiveVideoTrack_invalid arg w :
  invalid_for instanceof_VideoTrack (or_empty (el_videoTracks (el w))) arg →
  NativeAdapter.selectAdaptiveVideoTrack arg w = w.
Proof.
  unfold invalid_for, NativeAdapter.selectAdaptiveVideoTrack.
  destruct (instanceof_VideoTrack arg) as [s|]; [|done].
  destruct (el_videoTracks (el w)) as [l|]; [|done]. cbn.
  intros H. by rewrite js_get_out_of_bounds.
Qed.

Lemma selectProgressiveVideoTrack_invalid arg a w :
  invalid_for instanceof_VideoTrack (or_empty (_progressiveSources a)) arg →
  NativeAdapter._selectProgressiveVideoTrack arg a w = (a, w).
Proof.
  unfold invalid_for, NativeAdapter._selectProgressiveVideoTrack.
  destruct (instanceof_VideoTrack arg) as [s|]; [|done].
  destruct (_progressiveSources a) as [l|]; [|done]. cbn.
  intros H. by rewrite js_get_out_of_bounds.
Qed.

Lemma selectAudioTrack_invalid arg w :
  invalid_for instanceof_AudioTrack (or_empty (el_audioTracks (el w))) arg →
  NativeAdapter.selectAudioTrack arg w = w.
Proof.
  unfold invalid_for, NativeAdapter.selectAudioTrack.
  destruct (instanceof_AudioTrack arg) as [s|]; [|done].
  destruct (el_audioTracks (el w)) as [l|]; [|done]. cbn.
  intros H. by rewrite js_get_out_of_bounds.
Qed.

Lemma selectTextTrack_invalid arg w :
  invalid_text (el_textTracks (el w)) arg →
  NativeAdapter.selectTextTrack arg w = w.
Proof.
  unfold invalid_text, NativeAdapter.selectTextTrack, kind_selectable.
  destruct (instanceof_PKTextTrack arg) as [s|]; [|done].
  intros [H|H].
  - rewrite js_get_out_of_bounds by done. by destruct (_ || _).
  - destruct (bool_decide (kind s = Some "subtitles")) eqn:E1.
    { apply bool_decide_eq_true in E1. tauto. }
    destruct (bool_decide (kind s = Some "captions")) eqn:E2.
    { apply bool_decide_eq_true in E2. tauto. }
    done.
Qed.

(** C4. A selection call on the adapter ([selectVideoTrack],
    [selectAudioTrack], [selectTextTrack]) whose argument is not an
    instance of the expected track class, or whose index lies outside the
    track list in use, or, for text, whose kind is neither subtitles nor
    captions, returns with the adapter and the whole world as they were:
    no flag or mode is written, no listener is registered and no event is
    emitted. *)
Theorem C4_invalid_selection_is_noop (c : Selection) (a : Adapter)
    (w : World) :
  invalid c a w → select c a w = (a, w).
Proof.
  destruct c as [arg|arg|arg]; cbn.
  - unfold NativeAdapter.selectVideoTrack.
    destruct (NativeAdapter._isProgressivePlayback a); intros H.
    + by apply selectProgressiveVideoTrack_invalid.
    + by rewrite selectAdaptiveVideoTrack_invalid.
  - intros H. by rewrite selectAudioTrack_invalid.
  - intros H. by rewrite selectTextTrack_invalid.
Qed.

(** ** Cue changes (C8, C10) *)

Lemma foldl_push_cue (cues : list PlatformCue) (acc : list PayloadCue) :
  foldl Html5.push_cue acc cues = acc ++ omap normalize cues.
Proof.
  revert acc. induction cues as [|c cues IH]; intros acc; cbn.
  - by rewrite app_nil_r.
  - rewrite IH. destruct c; cbn; [by rewrite <- app_assoc ..|done].
Qed.

Lemma normalize_fields (c : PlatformCue) :
  canonical <$> normalize c = fields c.
Proof. by destruct c. Qed.

Lemma omap_normalize_supported (cues : list PlatformCue) :
  Forall supported cues →
  Some ∘ canonical <$> omap normalize cues = fields <$> cues.
Proof.
  induction 1 as [|c cues Hc _ IH]; [done|].
  destruct c; cbn in *; [by rewrite IH ..|done].
Qed.

Lemma onCueChange_textTracks (i : nat) (w : World) :
  el_textTracks (el (Html5._onCueChange i w)) =
  alter (mode_to hidden) i (el_textTracks (el w)).
Proof. reflexivity. Qed.

Lemma onCueChange_trace (i : nat) (w : World) (t : PlatTextTrack) :
  el_textTracks (el w) !! i = Some t →
  trace (Html5._onCueChange i w) =
  trace w ++ [E_set_mode ByEngine i hidden;
              E_emit ByEngine
                (TEXT_CUE_CHANGED (omap normalize (ptt_activeCues t)))].
Proof.
  intros Ht. unfold Html5._onCueChange, Html5.dispatchEvent. cbn.
  rewrite list_lookup_alter_eq, Ht. cbn. rewrite foldl_push_cue. cbn.
  by rewrite <- app_assoc.
Qed.

(** C8. One run of the cue-change handler on a text track whose active
    cues are all of the two supported platform shapes appends, after
    hiding the track, exactly one [text-cue-changed] event; its payload
    holds one cue per active cue, in order, each with the start time, end
    time and text of the platform cue it comes from. *)
Theorem C8_cue_change_batches_all_active_cues (i : nat) (w : World)
    (t : PlatTextTrack) :
  el_textTracks (el w) !! i = Some t →
  Forall supported (ptt_activeCues t) →
  ∃ cues : list PayloadCue,
    trace (Html5._onCueChange i w) =
      trace w ++ [E_set_mode ByEngine i hidden;
                  E_emit ByEngine (TEXT_CUE_CHANGED cues)]
    ∧ length cues = length (ptt_activeCues t)
    ∧ Some ∘ canonical <$> cues = fields <$> ptt_activeCues t.
Proof.
  intros Ht Hs. exists (omap normalize (ptt_activeCues t)).
  split; [by apply onCueChange_trace|].
  pose proof (omap_normalize_supported _ Hs) as Heq.
  split; [|exact Heq].
  apply (f_equal length) in Heq. by rewrite !length_fmap in Heq.
Qed.

Lemma cuechange_installed (i : nat) (w : World) (t : PlatTextTrack) :
  el_textTracks (el w) !! i = Some t →
  ptt_oncuechange t = Some call_onCueChange →
  Html5.cuechange i w = Html5._onCueChange i w.
Proof. intros Ht Hh. unfold Html5.cuechange. by rewrite Ht, Hh. Qed.

Lemma cuechange_iter_hidden (i : nat) (n : nat) (w : World)
    (t : PlatTextTrack) :
  el_textTracks (el w) !! i = Some t →
  ptt_oncuechange t = Some call_onCueChange →
  el_textTracks (el (Nat.iter (S n) (Html5.cuechange i) w)) !! i =
  Some (mode_to hidden t).
Proof.
  intros Ht Hh. induction n as [|n IH].
  - rewrite Nat.iter_succ. change (Nat.iter 0 (Html5.cuechange i) w) with w.
    rewrite (cuechange_installed i w t) by done.
    rewrite onCueChange_textTracks, list_lookup_alter_eq, Ht. done.
  - rewrite Nat.iter_succ.
    rewrite (cuechange_installed i _ (mode_to hidden t)) by done.
    rewrite onCueChange_textTracks, list_lookup_alter_eq, IH. done.
Qed.

(** ** The position setter *)

Lemma set_currentTime_Some t w w' :
  set_currentTime t w = Some w' → finite t = true ∧ w' = seek_to t w.
Proof.
  unfold set_currentTime. destruct (finite t); [|done].
  intros [= <-]. done.
Qed.

Lemma set_currentTime_None t w :
  set_currentTime t w = None → finite t = false.
Proof. unfold set_currentTime. by destruct (finite t). Qed.

Lemma set_currentTime_finite t w :
  finite t = true → set_currentTime t w = Some (seek_to t w).
Proof. intros H. unfold set_currentTime. by rewrite H. Qed.

(** Names the world a successful seek leaves. *)
Ltac seeks :=
  repeat match goal with
         | H : set_currentTime _ _ = Some _ |- _ =>
             apply set_currentTime_Some in H; destruct H as [_ ->]
         end.

(** ** Loading (C1, C9) *)

Lemma load_view_with_el f w : load_view (with_el f w) = load_view w.
Proof. reflexivity. Qed.

Lemma load_view_log e w :
  is_adapter_load e = false → load_view (log e w) = load_view w.
Proof.
  intros He. unfold load_view, adapter_loads. cbn.
  rewrite filter_app, length_app. cbn.
  rewrite decide_False by (rewrite He; done). cbn.
  f_equal. lia.
Qed.

Lemma load_view_settle p st w : load_view (settle p st w) = load_view w.
Proof.
  unfold settle. destruct (promises w !! p) as [[| |]|]; try done.
  unfold load_view, adapter_loads. cbn. by rewrite length_insert.
Qed.

Lemma load_view_foldl {A} (f : World → A → World) (l : list A) (w : World) :
  (∀ w x, load_view (f w x) = load_view w) →
  load_view (foldl f w l) = load_view w.
Proof.
  intros Hf. revert w. induction l as [|x l IH]; intros w; cbn; [done|].
  by rewrite IH, Hf.
Qed.

(** Rewrites the view of a world built from the element calls. *)
Ltac view :=
  repeat first
    [ rewrite load_view_settle
    | rewrite load_view_with_el
    | rewrite load_view_log by reflexivity
    | rewrite load_view_foldl by (intros; view; reflexivity) ].

Lemma load_view_set_src url w : load_view (set_src url w) = load_view w.
Proof. unfold set_src. by view. Qed.
Lemma load_view_seek_to t w : load_view (seek_to t w) = load_view w.
Proof. unfold seek_to. by view. Qed.
Lemma load_view_play w : load_view (play w) = load_view w.
Proof. unfold play. by view. Qed.
Lemma load_view_pause w : load_view (pause w) = load_view w.
Proof. unfold pause. by view. Qed.
Lemma load_view_set_selected i b w :
  load_view (set_selected i b w) = load_view w.
Proof. unfold set_selected. by view. Qed.
Lemma load_view_set_enabled i b w :
  load_view (set_enabled i b w) = load_view w.
Proof. unfold set_enabled. by view. Qed.
Lemma load_view_set_mode c i m w :
  load_view (set_mode c i m w) = load_view w.
Proof. unfold set_mode. by view. Qed.
Lemma load_view_trigger ev w : load_view (_trigger ev w) = load_view w.
Proof. unfold _trigger. by view. Qed.
Lemma load_view_onTrackChanged t w :
  load_view (_onTrackChanged t w) = load_view w.
Proof. destruct t; unfold _onTrackChanged, _trigger; by view. Qed.

Create Rewrite HintDb view_db.
#[local] Hint Rewrite load_view_set_src load_view_seek_to
  load_view_play load_view_pause load_view_set_selected
  load_view_set_enabled load_view_set_mode load_view_onTrackChanged
  load_view_settle load_view_trigger : view_db.

Lemma load_view_disableVideoTracks w :
  load_view (NativeAdapter._disableVideoTracks w) = load_view w.
Proof.
  unfold NativeAdapter._disableVideoTracks.
  destruct (el_videoTracks (el w)); [|done].
  apply load_view_foldl. intros. apply load_view_set_selected.
Qed.

Lemma load_view_disableAudioTracks w :
  load_view (NativeAdapter._disableAudioTracks w) = load_view w.
Proof.
  unfold NativeAdapter._disableAudioTracks.
  destruct (el_audioTracks (el w)); [|done].
  apply load_view_foldl. intros. apply load_view_set_enabled.
Qed.

Lemma load_view_disableTextTracks w :
  load_view (NativeAdapter._disableTextTracks w) = load_view w.
Proof.
  unfold NativeAdapter._disableTextTracks.
  apply load_view_foldl. intros. apply load_view_set_mode.
Qed.

#[local] Hint Rewrite load_view_disableVideoTracks
  load_view_disableAudioTracks load_view_disableTextTracks : view_db.

Lemma load_state_select c a w : load_state (select c a w) = load_state (a, w).
Proof.
  unfold load_state. destruct c as [arg|arg|arg]; cbn.
  - unfold NativeAdapter.selectVideoTrack,
      NativeAdapter._selectProgressiveVideoTrack,
      NativeAdapter.selectAdaptiveVideoTrack.
    repeat case_match; cbn; autorewrite with view_db; done.
  - unfold NativeAdapter.selectAudioTrack.
    repeat case_match; cbn; autorewrite with view_db; done.
  - unfold NativeAdapter.selectTextTrack.
    repeat case_match; cbn; autorewrite with view_db; done.
Qed.

Lemma load_state_run_handler env h detail a w :
  load_state (NativeAdapter.run_handler env h detail a w) = load_state (a, w).
Proof.
  unfold load_state, NativeAdapter.run_handler.
  destruct h; repeat case_match; seeks; cbn; autorewrite with view_db; done.
Qed.

Lemma load_state_handlers env detail (due : list (SignalName * Handler))
    (s : Adapter * World) :
  load_state
    (foldl (λ (s : Adapter * World) (l : SignalName * Handler),
              NativeAdapter.run_handler env l.2 detail s.1 s.2) s due)
  = load_state s.
Proof.
  revert s. induction due as [|l due IH]; intros s; cbn [foldl]; [done|].
  rewrite IH. destruct s as [a w]. apply load_state_run_handler.
Qed.

Lemma load_state_signal env n detail a w :
  load_state (NativeAdapter.signal env n detail a w) = load_state (a, w).
Proof. unfold NativeAdapter.signal. by rewrite load_state_handlers. Qed.

Lemma load_again env startTime a w p :
  _loadPromise a = Some p → NativeAdapter.load env startTime a w = (p, a, w).
Proof. intros Hp. unfold NativeAdapter.load. by rewrite Hp. Qed.

Lemma load_view_el_load_adapter w :
  load_view (el_load ByAdapter w) = (S (load_view w).1, (load_view w).2).
Proof.
  unfold el_load, load_view, adapter_loads. cbn.
  rewrite filter_app, length_app. cbn.
  rewrite decide_True by done. cbn. f_equal. lia.
Qed.

Lemma settle_pending (p : handle) (st : PromiseState) (w : World) :
  promises w !! p = Some Pending →
  promises (settle p st w) !! p = Some st.
Proof.
  intros Hp. unfold settle. rewrite Hp. cbn.
  apply list_lookup_insert_eq. by apply lookup_lt_Some in Hp.
Qed.

Lemma settle_settled (p : handle) (st : PromiseState) (w : World) :
  promises w !! p ≠ Some Pending → settle p st w = w.
Proof.
  intros Hp. unfold settle. by destruct (promises w !! p) as [[| |]|].
Qed.

(** The seek [load] makes for its start time: it throws exactly at the
    [throwing] start times, and otherwise changes neither the view nor the
    promises. *)
Lemma load_seek startTime w :
  match (match startTime with
         | Some t => if truthy_number startTime
                     then set_currentTime t w else Some w
         | None => Some w
         end) with
  | Some w' =>
      throwing startTime = false
      ∧ load_view w' = load_view w ∧ promises w' = promises w
      ∧ trace w' = trace w ++ preseek startTime
      ∧ el_src (el w') = el_src (el w)
  | None => throwing startTime = true
  end.
Proof.
  unfold throwing. destruct startTime as [t|].
  - destruct (truthy_number (Some t)) eqn:Ht.
    + destruct t as [q| | |]; try done. cbn in *.
      rewrite load_view_seek_to. repeat split.
      by destruct (bool_decide (q = 0%Qc)).
    + repeat split. destruct t as [q| | |]; cbn in *; try done;
        try by rewrite app_nil_r.
      destruct (bool_decide (q = 0%Qc)); [|done]. by rewrite app_nil_r.
  - repeat split. cbn. by rewrite app_nil_r.
Qed.

Lemma load_first env startTime a w :
  _loadPromise a = None →
  let r := NativeAdapter.load env startTime a w in
  r.1.1 = length (promises w)
  ∧ _loadPromise r.1.2 = Some r.1.1
  ∧ load_view r.2 =
      ((adapter_loads w + (if throwing startTime then 0 else 1))%nat,
       S (length (promises w)))
  ∧ promises r.2 !! r.1.1 = Some (first_state startTime).
Proof.
  intros Hp. unfold NativeAdapter.load, first_state. rewrite Hp. cbn zeta.
  unfold new_promise. cbn beta iota zeta.
  set (w1 := mkWorld _ _ _ _).
  set (a1 := if NativeAdapter._isProgressivePlayback _ then _ else _).
  set (w2 := match _sourceObj a1 with Some _ => _ | None => _ end).
  assert (H2 : load_view w2 = load_view w1 ∧ promises w2 = promises w1).
  { subst w2. destruct (_sourceObj a1); [|done].
    case_bool_decide; [|done]. split; [|done].
    by rewrite load_view_trigger, load_view_set_src. }
  destruct H2 as [Hv2 Hps2].
  assert (Hv1 : load_view w1 = (adapter_loads w, S (length (promises w)))).
  { subst w1. unfold load_view, adapter_loads. cbn. rewrite length_app. cbn.
    f_equal. lia. }
  assert (Hl1 : promises w1 !! length (promises w) = Some Pending).
  { subst w1. cbn. by rewrite lookup_app_r, Nat.sub_diag. }
  pose proof (load_seek startTime w2) as Hs.
  destruct (match startTime with Some _ => _ | None => _ end) as [w3|].
  - destruct Hs as (-> & Hv & Hps & _). cbn.
    repeat split; try done.
    + rewrite load_view_el_load_adapter, Hv, Hv2, Hv1. cbn. f_equal. lia.
    + by rewrite Hps, Hps2.
  - rewrite Hs. cbn [fst snd]. repeat split; try done.
    + rewrite load_view_settle, Hv2, Hv1. f_equal. lia.
    + apply settle_pending. by rewrite Hps2.
Qed.

Lemma load_state_step env c s :
  (∀ startTime, c ≠ Load startTime) →
  (step env c s).1 = None ∧ load_state (step env c s).2 = load_state s.
Proof.
  intros Hc. destruct s as [a w].
  destruct c as [startTime|c| | |n detail]; cbn [step fst snd].
  - by destruct (Hc startTime).
  - split; [done|]. apply load_state_select.
  - split; [done|]. unfold load_state. cbn [fst snd].
    unfold NativeAdapter.hideTextTrack.
    by rewrite load_view_disableTextTracks.
  - split; [done|]. unfold load_state. cbn [fst snd].
    unfold NativeAdapter.seekToLiveEdge.
    destruct (NativeAdapter._getLiveEdge w); [|done].
    case_match; [|done]. seeks. by rewrite load_view_seek_to.
  - split; [done|]. apply load_state_signal.
Qed.

Lemma run_spec env calls (s : Adapter * World) :
  run_post (load_state s) calls (run env calls s).
Proof.
  revert s. induction calls as [|c calls IH]; intros s.
  - unfold run_post. cbn. by destruct (_loadPromise s.1).
  - cbn [run]. cbn zeta.
    assert (Hcases : (∃ st, c = Load st) ∨ (∀ st, c ≠ Load st)).
    { destruct c; [left; eauto|right; intros; discriminate ..]. }
    destruct Hcases as [[st ->]|Hc].
    + destruct s as [a w]. cbn [step fst snd].
      destruct (_loadPromise a) as [p|] eqn:Hp.
      * rewrite (load_again _ _ _ _ p) by done. cbn [fst snd option_list].
        specialize (IH (a, w)). unfold run_post, load_state in *.
        cbn [fst snd] in *. rewrite Hp in *. cbn.
        destruct IH as [Hall Hst]. split; [by constructor|done].
      * pose proof (load_first env st a w Hp) as Hf.
        cbn zeta in Hf.
        destruct (NativeAdapter.load env st a w) as [[p a'] w'].
        cbn [fst snd] in Hf. destruct Hf as (-> & Hp' & Hv & _).
        cbn [fst snd option_list].
        specialize (IH (a', w')). unfold run_post, load_state in *.
        cbn [fst snd] in *. rewrite Hp' in IH. rewrite Hp. cbn.
        destruct IH as [Hall Hst]. split; [done|]. split; [|done].
        by rewrite Hst, Hv.
    + destruct (load_state_step env c s) as [Hn Hs].
      { exact Hc. }
      rewrite Hn. cbn [option_list app]. rewrite <- Hs.
      specialize (IH (step env c s).2).
      assert (Hpl : platform_loads (c :: calls) = platform_loads calls).
      { unfold platform_loads. destruct c as [st| | | |]; try done.
        by destruct (Hc st). }
      unfold run_post in *. cbn [fst snd] in *. rewrite Hpl. exact IH.
Qed.

Lemma constructor_load_state source progressive w0 :
  load_state (NativeAdapter.constructor source progressive w0) =
  (None, load_view w0).
Proof.
  unfold NativeAdapter.constructor, NativeAdapter._maybeSetDrmPlayback,
    load_state.
  cbn. repeat case_match; by view.
Qed.

(** C1, as the code has it. Take any adapter as its constructor leaves it and any sequence of
    calls on it (loads with any start time, selections, hiding, seeking to
    the live edge, signals of the element).  The first [load(startTime)] on
    the fresh adapter creates a new promise; it is pending and the adapter
    has made the element load once, unless [startTime] is one of the
    infinities: then the seek throws, the promise is rejected at once and
    the element is not made to load.  If the sequence holds no [load()],
    the adapter has not made the element load.  If it holds one or more,
    they all returned one and the same handle, that handle is the one
    promise object created since construction, the adapter has made the
    element load at most once (once exactly, unless the first start time
    was an infinity), and any further [load()] returns that handle again
    and leaves adapter and world as they are. *)
Theorem C1_load_is_memoized (env : Env) (source : option Source)
    (progressive : option (list Source)) (w0 : World)
    (calls : list AdapterCall) :
  let s0 := NativeAdapter.constructor source progressive w0 in
  let r := run env calls s0 in
  (∀ startTime,
     let r1 := NativeAdapter.load env startTime s0.1 s0.2 in
     r1.1.1 = length (promises w0)
     ∧ promises r1.2 !! r1.1.1 =
         Some (if throwing startTime then Rejected "TypeError" else Pending)
     ∧ adapter_loads r1.2 =
         (adapter_loads w0 + (if throwing startTime then 0 else 1))%nat)
  ∧ match r.1 with
    | [] => _loadPromise r.2.1 = None ∧ adapter_loads r.2.2 = adapter_loads w0
    | p :: hs =>
        Forall (eq p) hs
        ∧ p = length (promises w0)
        ∧ _loadPromise r.2.1 = Some p
        ∧ adapter_loads r.2.2 = (adapter_loads w0 + platform_loads calls)%nat
        ∧ (adapter_loads r.2.2 ≤ S (adapter_loads w0))%nat
        ∧ length (promises r.2.2) = S (length (promises w0))
        ∧ ∀ startTime,
            NativeAdapter.load env startTime r.2.1 r.2.2 = (p, r.2.1, r.2.2)
    end.
Proof.
  intros s0 r.
  pose proof (constructor_load_state source progressive w0) as Hs0.
  fold s0 in Hs0. split.
  - intros startTime r1.
    assert (Hp : _loadPromise s0.1 = None).
    { unfold load_state in Hs0. by injection Hs0. }
    destruct (load_first env startTime s0.1 s0.2 Hp) as (H1 & _ & H3 & H4).
    fold r1 in H1, H3, H4.
    assert (Hl : adapter_loads s0.2 = adapter_loads w0
                 ∧ length (promises s0.2) = length (promises w0)).
    { unfold load_state, load_view in Hs0. by injection Hs0. }
    destruct Hl as [Hl Hn]. rewrite <- Hl, <- Hn. split; [done|]. split.
    + exact H4.
    + unfold load_view in H3. by injection H3.
  - pose proof (run_spec env calls s0) as Hr. fold r in Hr.
    rewrite Hs0 in Hr. unfold run_post in Hr. cbn [fst snd] in Hr.
    destruct r.1 as [|p hs].
    + unfold load_state, load_view in Hr. by injection Hr.
    + destruct Hr as (Hall & Hst & ->).
      unfold load_state, load_view in Hst. injection Hst as Hp Hl Hn.
      repeat split; try done.
      * rewrite Hl. unfold platform_loads.
        destruct (first_start calls) as [st|]; [destruct (throwing st)|]; lia.
      * intros startTime. by apply load_again.
Qed.

(** ** Traces only grow *)

Lemma extends_refl w : extends w w.
Proof. exists []. by rewrite app_nil_r. Qed.

Lemma extends_trans w1 w2 w3 : extends w1 w2 → extends w2 w3 → extends w1 w3.
Proof.
  intros [t1 H1] [t2 H2]. exists (t1 ++ t2). by rewrite H2, H1, app_assoc.
Qed.

Lemma extends_log e w w' : extends w w' → extends w (log e w').
Proof. intros [tl H]. exists (tl ++ [e]). cbn. by rewrite H, app_assoc. Qed.

Lemma extends_with_el f w w' : extends w w' → extends w (with_el f w').
Proof. done. Qed.

Lemma extends_same_trace w w' : trace w' = trace w → extends w w'.
Proof. intros H. exists []. by rewrite app_nil_r. Qed.

Lemma trace_settle p st w : trace (settle p st w) = trace w.
Proof. unfold settle. by destruct (promises w !! p) as [[| |]|]. Qed.

Lemma extends_settle p st w w' : extends w w' → extends w (settle p st w').
Proof. intros [tl H]. exists tl. by rewrite trace_settle. Qed.

(** Peels the element calls off a world and compares what is left. *)
Ltac grow :=
  repeat first
    [ apply extends_log
    | apply extends_with_el
    | apply extends_settle
    | progress unfold set_src, el_load, seek_to, play, pause,
        set_selected, set_enabled, set_mode, set_oncuechange, _trigger,
        _onTrackChanged ];
  by apply extends_same_trace.

Lemma load_extends env startTime a w :
  extends w (NativeAdapter.load env startTime a w).2.
Proof.
  unfold NativeAdapter.load. destruct (_loadPromise a); [apply extends_refl|].
  unfold new_promise. cbn beta iota zeta.
  repeat case_match; simplify_eq; seeks; cbn [snd]; grow.
Qed.

(** C9. The engine's [load(startTime)] first calls [load()] on the element.
    With an adapter bound, the rest of the call is the adapter's
    [load(startTime)], run on the world the element's load left, and its
    handle is what the engine returns.  With no adapter bound the engine
    returns a fresh promise that is already resolved with the empty
    object, and does nothing else. *)
Theorem C9_engine_load_delegates (env : Env) (startTime : option number)
    (f : Html5) (w : World) :
  let r := Html5.load env startTime f w in
  match _mediaSourceAdapter f with
  | Some a =>
      let ra := NativeAdapter.load env startTime a (el_load ByEngine w) in
      r = (ra.1.1, with_adapter (Some ra.1.2) f, ra.2)
      ∧ ∃ tl, trace ra.2 = trace w ++ E_load ByEngine :: tl
  | None =>
      r.1.1 = length (promises w)
      ∧ r.1.2 = f
      ∧ promises r.2 = promises w ++ [Resolved EmptyObject]
      ∧ promises r.2 !! r.1.1 = Some (Resolved EmptyObject)
      ∧ trace r.2 = trace w ++ [E_load ByEngine]
      ∧ el r.2 = media_load_algorithm (el w)
  end.
Proof.
  intros r. subst r. unfold Html5.load.
  destruct (_mediaSourceAdapter f) as [a|].
  - cbn zeta. split.
    + by destruct (NativeAdapter.load env startTime a (el_load ByEngine w))
        as [[p a'] w'].
    + destruct (load_extends env startTime a (el_load ByEngine w)) as [tl H].
      exists tl. rewrite H. cbn. by rewrite <- app_assoc.
  - cbn. repeat split; try done.
    by rewrite lookup_app_r, Nat.sub_diag.
Qed.

(** ** Progressive rendition switch (C2) *)

Lemma signal_unfold env n detail a w :
  NativeAdapter.signal env n detail a w =
  run_handlers env detail (filter (λ l, l.1 = n) (_eventManager a))
    (with_listeners (filter (λ l, l.1 ≠ n) (_eventManager a)) a, w).
Proof. reflexivity. Qed.

Lemma same_sink_refl w : same_sink w w.
Proof. done. Qed.

Lemma same_sink_settle p st w : same_sink w (settle p st w).
Proof. unfold settle. by repeat case_match. Qed.

Lemma load_listeners_quiet env detail due a w :
  Forall is_load_listener due →
  ∃ w', run_handlers env detail due (a, w) = (a, w') ∧ same_sink w w'.
Proof.
  revert w. induction due as [|[n h] due IH]; intros w Hall.
  - by exists w.
  - apply Forall_cons in Hall as [Hl Hall]. unfold run_handlers in *.
    cbn [foldl fst snd].
    assert (∃ w1, NativeAdapter.run_handler env h detail a w = (a, w1)
                  ∧ same_sink w w1) as (w1 & -> & [He Ht]).
    { destruct n, h; try done; cbn; eexists; (split; [done|]);
        apply same_sink_settle. }
    destruct (IH w1 Hall) as (w' & Hr & [He' Ht']). exists w'.
    split; [exact Hr|]. split; congruence.
Qed.

Lemma filter_load_listeners (P : SignalName * Handler → Prop)
    `{∀ l, Decision (P l)} (L : list (SignalName * Handler)) :
  Forall is_load_listener L → Forall is_load_listener (filter P L).
Proof.
  intros Hall. apply Forall_forall. intros l Hl.
  apply list_elem_of_filter in Hl as [_ Hl].
  rewrite Forall_forall in Hall. by apply Hall.
Qed.

Lemma load_listeners_not_due (n : SignalName)
    (L : list (SignalName * Handler)) :
  Forall is_load_listener L → n ≠ LOADED_DATA → n ≠ ERROR →
  filter (λ l, l.1 = n) L = [] ∧ filter (λ l, l.1 ≠ n) L = L.
Proof.
  intros Hall H1 H2. induction Hall as [|[m h] L Hl _ [IH1 IH2]]; [done|].
  rewrite !filter_cons. cbn [fst].
  assert (m ≠ n) by (destruct m, h; done || congruence).
  rewrite decide_False, decide_True by done. by rewrite IH1, IH2.
Qed.

Lemma run_handlers_app env detail due1 due2 s :
  run_handlers env detail (due1 ++ due2) s =
  run_handlers env detail due2 (run_handlers env detail due1 s).
Proof. unfold run_handlers. apply foldl_app. Qed.

(** A signal on an event manager that holds load listeners followed by
    [L1]: the load listeners only settle the promise, then the due
    listeners of [L1] run. *)
Lemma signal_after_load_listeners env n detail a w L0 L1 :
  _eventManager a = L0 ++ L1 →
  Forall is_load_listener L0 →
  ∃ w', same_sink w w'
    ∧ NativeAdapter.signal env n detail a w =
      run_handlers env detail (filter (λ l, l.1 = n) L1)
        (with_listeners (filter (λ l, l.1 ≠ n) L0 ++ filter (λ l, l.1 ≠ n) L1)
           a, w').
Proof.
  intros HL Hall. rewrite signal_unfold, HL, !filter_app, run_handlers_app.
  destruct (load_listeners_quiet env detail (filter (λ l, l.1 = n) L0)
              (with_listeners
                 (filter (λ l, l.1 ≠ n) L0 ++ filter (λ l, l.1 ≠ n) L1) a) w)
    as (w' & -> & Hs).
  { by apply filter_load_listeners. }
  by exists w'.
Qed.

Lemma select_progressive_valid a w s srcs chosen :
  NativeAdapter._isProgressivePlayback a = true →
  _progressiveSources a = Some srcs →
  js_get srcs (index s) = Some chosen →
  NativeAdapter.selectVideoTrack (ATrack (VideoTrack s)) a w =
  (listenOnce LOADED_DATA
     (switch_loaded (VideoTrack s) (el_currentTime (el w)) (el_paused (el w)))
     (with_sourceObj (Some chosen) a),
   set_src (src_url chosen) w).
Proof.
  intros Hp Hsrcs Hget. unfold NativeAdapter.selectVideoTrack.
  rewrite Hp. unfold NativeAdapter._selectProgressiveVideoTrack.
  cbn [instanceof_VideoTrack]. by rewrite Hsrcs, Hget.
Qed.

Lemma filter_none {A} (P : A → Prop) `{∀ x, Decision (P x)} (l : list A) :
  Forall (λ x, ¬ P x) l → filter P l = [].
Proof.
  induction 1 as [|x l Hx _ IH]; [done|]. by rewrite filter_cons_False.
Qed.

Lemma filter_all {A} (P : A → Prop) `{∀ x, Decision (P x)} (l : list A) :
  Forall P l → filter P l = l.
Proof.
  induction 1 as [|x l Hx _ IH]; [done|]. by rewrite filter_cons_True, IH.
Qed.

(** A signal for which exactly one switch listener is due. *)
Lemma signal_one env n detail a w L h rest :
  _eventManager a = L ++ (n, h) :: rest →
  Forall is_load_listener L →
  Forall (λ l, l.1 ≠ n) rest →
  ∃ w', same_sink w w'
    ∧ NativeAdapter.signal env n detail a w =
      NativeAdapter.run_handler env h detail
        (with_listeners (filter (λ l, l.1 ≠ n) L ++ rest) a) w'.
Proof.
  intros HL Hall Hrest.
  destruct (signal_after_load_listeners env n detail a w L ((n, h) :: rest)
              HL Hall) as (w' & Hs & ->).
  exists w'. split; [done|].
  rewrite (filter_cons_True (λ l, l.1 = n)) by done.
  rewrite (filter_cons_False (λ l, l.1 ≠ n)) by (cbn; tauto).
  rewrite (filter_none (λ l, l.1 = n) rest) by exact Hrest.
  rewrite (filter_all (λ l, l.1 ≠ n) rest) by exact Hrest.
  done.
Qed.

Lemma stage_loaded_desktop env a w L t ct (p : bool) :
  android env = false →
  finite ct = true →
  _eventManager a = L ++ [(LOADED_DATA, switch_loaded t ct p)] →
  Forall is_load_listener L →
  ∃ a1 w1,
    NativeAdapter.signal env LOADED_DATA "" a w = (a1, w1)
    ∧ _eventManager a1 =
        filter (λ l, l.1 ≠ LOADED_DATA) L ++ [(SEEKED, switch_seeked t)]
    ∧ trace w1 =
        trace w ++ E_set_currentTime ct :: (if p then [] else [E_play])
    ∧ el w1 = (if p then put_currentTime ct (el w)
               else put_paused false (put_currentTime ct (el w))).
Proof.
  intros Hand Hfin HL Hall.
  destruct (signal_one env LOADED_DATA "" a w L _ [] HL Hall)
    as (w' & [He Ht] & ->); [done|].
  unfold NativeAdapter.run_handler. fold (android env). rewrite Hand.
  rewrite (set_currentTime_finite ct) by done.
  eexists _, _. split; [done|]. cbn. rewrite app_nil_r.
  split; [done|]. rewrite <- He, <- Ht.
  destruct p; cbn; [done|]. by rewrite <- app_assoc.
Qed.

Lemma stage_seeked_desktop env a w L s :
  _eventManager a = L ++ [(SEEKED, switch_seeked (VideoTrack s))] →
  Forall is_load_listener L →
  ∃ a2 w2,
    NativeAdapter.signal env SEEKED "" a w = (a2, w2)
    ∧ _eventManager a2 = L
    ∧ trace w2 = trace w ++ [E_emit ByAdapter (VIDEO_TRACK_CHANGED (VideoTrack s))]
    ∧ el w2 = el w.
Proof.
  intros HL Hall.
  destruct (signal_one env SEEKED "" a w L _ [] HL Hall)
    as (w' & [He Ht] & ->); [done|].
  unfold NativeAdapter.run_handler.
  eexists _, _. split; [done|]. cbn. rewrite app_nil_r.
  split; [by apply load_listeners_not_due|]. by rewrite <- He, <- Ht.
Qed.

Lemma stage_loaded_android env a w L t ct (p : bool) :
  android env = true →
  _eventManager a = L ++ [(LOADED_DATA, switch_loaded t ct p)] →
  Forall is_load_listener L →
  ∃ a1 w1,
    NativeAdapter.signal env LOADED_DATA "" a w = (a1, w1)
    ∧ _eventManager a1 =
        filter (λ l, l.1 ≠ LOADED_DATA) L
        ++ [(DURATION_CHANGE, switch_duration ct);
            (SEEKED, switch_seeked_android t p)]
    ∧ trace w1 = trace w ++ [E_play]
    ∧ el w1 = put_paused false (el w).
Proof.
  intros Hand HL Hall.
  destruct (signal_one env LOADED_DATA "" a w L _ [] HL Hall)
    as (w' & [He Ht] & ->); [done|].
  unfold NativeAdapter.run_handler. fold (android env). rewrite Hand.
  eexists _, _. split; [done|]. cbn. rewrite app_nil_r, <- app_assoc.
  split; [done|]. by rewrite <- He, <- Ht.
Qed.

Lemma stage_duration_android env a w L t ct (p : bool) :
  finite ct = true →
  _eventManager a =
    L ++ [(DURATION_CHANGE, switch_duration ct);
          (SEEKED, switch_seeked_android t p)] →
  Forall is_load_listener L →
  ∃ a2 w2,
    NativeAdapter.signal env DURATION_CHANGE "" a w = (a2, w2)
    ∧ _eventManager a2 = L ++ [(SEEKED, switch_seeked_android t p)]
    ∧ trace w2 = trace w ++ [E_set_currentTime ct]
    ∧ el w2 = put_currentTime ct (el w).
Proof.
  intros Hfin HL Hall.
  destruct (signal_one env DURATION_CHANGE "" a w L _ _ HL Hall)
    as (w' & [He Ht] & ->).
  { by repeat constructor. }
  unfold NativeAdapter.run_handler.
  rewrite (set_currentTime_finite ct) by done.
  eexists _, _. split; [done|]. cbn.
  split; [f_equal; by apply load_listeners_not_due|]. by rewrite <- He, <- Ht.
Qed.

Lemma stage_seeked_android env a w L s (p : bool) :
  _eventManager a = L ++ [(SEEKED, switch_seeked_android (VideoTrack s) p)] →
  Forall is_load_listener L →
  ∃ a3 w3,
    NativeAdapter.signal env SEEKED "" a w = (a3, w3)
    ∧ _eventManager a3 = L
    ∧ trace w3 =
        trace w ++ E_emit ByAdapter (VIDEO_TRACK_CHANGED (VideoTrack s))
                   :: (if p then [E_pause] else [])
    ∧ el w3 = (if p then put_paused true (el w) else el w).
Proof.
  intros HL Hall.
  destruct (signal_one env SEEKED "" a w L _ [] HL Hall)
    as (w' & [He Ht] & ->); [done|].
  unfold NativeAdapter.run_handler.
  eexists _, _. split; [done|]. cbn. rewrite app_nil_r.
  split; [by apply load_listeners_not_due|]. rewrite <- He, <- Ht.
  destruct p; cbn; rewrite <- ?app_assoc; done.
Qed.

(** C2, as the code has it. A progressive [selectVideoTrack] on a video track whose
    index is in range of the progressive sources, with no earlier switch
    in flight, on an element whose position is finite (as the position an
    element reports is), reads the element's position and paused state, rebinds the
    source and assigns its URL to [src], and leaves a one-shot listener
    holding the two values read.  After that the element calls follow the
    script of the platform family signal by signal: the seek to the
    position read is issued at data-loaded (on Android Browser at the
    duration-known signal after it), [play()] is called at data-loaded when
    playback was running (on Android Browser always), and only the seeked
    signal brings [video-track-changed] (and, on Android Browser,
    [pause()] when playback was paused).  When the script is through, the
    paused state is the one read at the start, the position is the one
    read at the start, and no switch listener is left. *)
Theorem C2_progressive_switch (env : Env) (a : Adapter) (w : World)
    (s : Settings) (srcs : list Source) (chosen : Source) (k : nat) :
  NativeAdapter._isProgressivePlayback a = true →
  _progressiveSources a = Some srcs →
  js_get srcs (index s) = Some chosen →
  Forall is_load_listener (_eventManager a) →
  finite (el_currentTime (el w)) = true →
  let t := VideoTrack s in
  let ct := el_currentTime (el w) in
  let p := el_paused (el w) in
  let script := switch_script env t ct p in
  let s0 := NativeAdapter.selectVideoTrack (ATrack t) a w in
  let sk := deliver env (take k script.*1) s0 in
  _eventManager s0.1 = _eventManager a ++ [(LOADED_DATA, switch_loaded t ct p)]
  ∧ _sourceObj s0.1 = Some chosen
  ∧ el s0.2 = media_load_algorithm (put_src (src_url chosen) (el w))
  ∧ trace sk.2 =
      trace w ++ E_set_src (src_url chosen) :: concat (take k script.*2)
  ∧ ((length script ≤ k)%nat →
       el_paused (el sk.2) = p
       ∧ el_currentTime (el sk.2) = ct
       ∧ Forall is_load_listener (_eventManager sk.1)).
Proof.
  intros Hp Hsrcs Hget Hall Hfin. cbn zeta.
  rewrite (select_progressive_valid a w s srcs chosen) by done.
  set (t := VideoTrack s). set (ct := el_currentTime (el w)).
  set (p := el_paused (el w)). cbn [fst snd].
  set (a0 := listenOnce LOADED_DATA _ _). set (w0 := set_src _ w).
  assert (HL0 : _eventManager a0 =
                _eventManager a ++ [(LOADED_DATA, switch_loaded t ct p)])
    by done.
  assert (Ht0 : trace w0 = trace w ++ [E_set_src (src_url chosen)]) by done.
  assert (Hp0 : el_paused (el w0) = true) by done.
  split; [done|]. split; [done|]. split; [done|].
  pose proof (filter_load_listeners (λ l, l.1 ≠ LOADED_DATA) _ Hall) as Hall1.
  unfold switch_script. destruct (android env) eqn:Hand.
  - destruct (stage_loaded_android env a0 w0 _ t ct p Hand HL0 Hall)
      as (a1 & w1 & E1 & HL1 & Ht1 & He1).
    destruct (stage_duration_android env a1 w1 _ t ct p Hfin HL1 Hall1)
      as (a2 & w2 & E2 & HL2 & Ht2 & He2).
    destruct (stage_seeked_android env a2 w2 _ s p HL2 Hall1)
      as (a3 & w3 & E3 & HL3 & Ht3 & He3).
    destruct k as [|[|[|k]]]; cbn [fmap list_fmap take fst snd length concat];
      unfold deliver; cbn [foldl fst snd];
      rewrite ?E1; cbn [fst snd]; rewrite ?E2; cbn [fst snd];
      rewrite ?E3; cbn [fst snd].
    + split; [by rewrite Ht0|]. lia.
    + split; [|lia]. rewrite Ht1, Ht0, <- app_assoc. done.
    + split; [|lia]. rewrite Ht2, Ht1, Ht0, <- !app_assoc. done.
    + rewrite !take_nil. cbn [concat foldl fst snd].
      split.
      { rewrite Ht3, Ht2, Ht1, Ht0, <- !app_assoc. cbn.
        by rewrite ?app_nil_r. }
      intros _. rewrite He3, He2, He1, HL3.
      split; [|split; [|done]]; by destruct p.
  - destruct (stage_loaded_desktop env a0 w0 _ t ct p Hand Hfin HL0 Hall)
      as (a1 & w1 & E1 & HL1 & Ht1 & He1).
    destruct (stage_seeked_desktop env a1 w1 _ s HL1 Hall1)
      as (a2 & w2 & E2 & HL2 & Ht2 & He2).
    destruct k as [|[|k]]; cbn [fmap list_fmap take fst snd length concat];
      unfold deliver; cbn [foldl fst snd];
      rewrite ?E1; cbn [fst snd]; rewrite ?E2; cbn [fst snd].
    + split; [by rewrite Ht0|]. lia.
    + split; [|lia]. rewrite Ht1, Ht0, <- app_assoc. cbn.
      by rewrite ?app_nil_r.
    + rewrite !take_nil. cbn [concat foldl fst snd].
      split.
      { rewrite Ht2, Ht1, Ht0, <- !app_assoc. cbn.
        by rewrite ?app_nil_r. }
      intros _. rewrite He2, He1, HL2.
      split; [|split; [|done]]; by destruct p.
Qed.

(** ** Text tracks and the cue-change subscription (C6, C7) *)

Lemma foldl_set_mode_tracks c m (n k : nat) (w : World) (i : nat) :
  el_textTracks (el (foldl (λ w i, set_mode c i m w) w (seq k n))) !! i =
  if decide (k ≤ i < k + n)%nat
  then mode_to m <$> el_textTracks (el w) !! i
  else el_textTracks (el w) !! i.
Proof.
  revert k w. induction n as [|n IH]; intros k w; cbn [seq foldl].
  - by rewrite decide_False by lia.
  - rewrite IH. cbn [set_mode log with_el el put_textTracks el_textTracks].
    destruct (decide (i = k)) as [->|Hne].
    + rewrite decide_False by lia. rewrite decide_True by lia.
      apply list_lookup_alter_eq.
    + rewrite list_lookup_alter_ne by done.
      destruct (decide (S k ≤ i < S k + n)%nat).
      * by rewrite decide_True by lia.
      * by rewrite decide_False by lia.
Qed.

Lemma foldl_set_mode_trace c m (n k : nat) (w : World) :
  trace (foldl (λ w i, set_mode c i m w) w (seq k n)) =
  trace w ++ ((λ i, E_set_mode c i m) <$> seq k n).
Proof.
  revert k w. induction n as [|n IH]; intros k w; cbn [seq foldl].
  - cbn. by rewrite app_nil_r.
  - rewrite IH. cbn. by rewrite <- app_assoc.
Qed.

Lemma disableTextTracks_tracks w :
  el_textTracks (el (NativeAdapter._disableTextTracks w)) =
  mode_to disabled <$> el_textTracks (el w).
Proof.
  apply list_eq. intros i. unfold NativeAdapter._disableTextTracks.
  rewrite foldl_set_mode_tracks, list_lookup_fmap.
  case_decide as Hi; [done|].
  rewrite lookup_ge_None_2 by lia. done.
Qed.

Lemma disableTextTracks_trace w :
  trace (NativeAdapter._disableTextTracks w) =
  trace w ++ disabling (length (el_textTracks (el w))).
Proof. apply foldl_set_mode_trace. Qed.

Lemma adapter_selectTextTrack_spec (t : Track) (w : World) :
  let w' := NativeAdapter.selectTextTrack (ATrack t) w in
  el_textTracks (el w') = switched (el_textTracks (el w)) t
  ∧ trace w' = trace w ++ switching (el_textTracks (el w)) t.
Proof.
  cbn zeta. unfold NativeAdapter.selectTextTrack, switched, switching.
  destruct t as [s|s|s]; cbn [instanceof_PKTextTrack selectable settings];
    try by rewrite app_nil_r.
  destruct (_ || _); cbn [andb]; [|by rewrite app_nil_r].
  case_bool_decide as Hb.
  - apply js_get_in_bounds in Hb as [x ->].
    cbn [_onTrackChanged _trigger log set_mode with_el el trace
         put_textTracks el_textTracks].
    rewrite disableTextTracks_tracks, disableTextTracks_trace.
    split; [done|]. by rewrite <- !app_assoc.
  - rewrite js_get_out_of_bounds by done. by rewrite app_nil_r.
Qed.

Lemma first_active_Some (l : list PlatTextTrack) (j : nat) :
  first_active l = Some j ↔
  (∃ x, l !! j = Some x ∧ ptt_mode x ≠ disabled)
  ∧ ∀ i y, l !! i = Some y → (i < j)%nat → ptt_mode y = disabled.
Proof.
  unfold first_active. split.
  - destruct (list_find _ l) as [[j' x]|] eqn:E; [|done].
    cbn. intros [= ->]. apply list_find_Some in E as (Hx & Hm & Hlt).
    split; [by exists x|]. intros i y Hy Hi.
    destruct (decide (ptt_mode y = disabled)) as [|Hn]; [done|].
    by destruct (Hlt i y Hy Hi).
  - intros [(x & Hx & Hm) Hlt].
    assert (list_find (λ t, ptt_mode t ≠ disabled) l = Some (j, x)) as ->;
      [|done].
    apply list_find_Some. split; [done|]. split; [done|].
    intros i y Hy Hi Hn. apply Hn. by apply (Hlt i y).
Qed.

Lemma first_active_None (l : list PlatTextTrack) :
  first_active l = None ↔ ∀ i y, l !! i = Some y → ptt_mode y = disabled.
Proof.
  unfold first_active. split.
  - destruct (list_find _ l) as [[j' x]|] eqn:E; [done|]. intros _.
    apply list_find_None in E. rewrite Forall_forall in E.
    intros i y Hy.
    destruct (decide (ptt_mode y = disabled)) as [|Hn]; [done|].
    destruct (E y); [|done]. apply list_elem_of_lookup. by exists i.
  - intros Hall.
    destruct (list_find _ l) as [[j' x]|] eqn:E; [|done].
    apply list_find_Some in E as (Hx & Hm & _).
    by destruct (Hm (Hall _ _ Hx)).
Qed.

(** [first_active] looks at the modes only. *)
Lemma first_active_modes (l l' : list PlatTextTrack) :
  ptt_mode <$> l = ptt_mode <$> l' → first_active l = first_active l'.
Proof.
  intros Hm.
  assert (Hlk : ∀ i, ptt_mode <$> l !! i = ptt_mode <$> l' !! i).
  { intros i. by rewrite <- !list_lookup_fmap, Hm. }
  assert (Hgo : ∀ l l' : list PlatTextTrack,
            (∀ i, ptt_mode <$> l !! i = ptt_mode <$> l' !! i) →
            ∀ j, first_active l = Some j → first_active l' = Some j).
  { clear. intros l l' Hlk j. rewrite !first_active_Some.
    intros [(x & Hx & Hmx) Hlt]. split.
    - specialize (Hlk j). rewrite Hx in Hlk. cbn in Hlk.
      destruct (l' !! j) as [x'|]; [|done]. exists x'. split; [done|].
      injection Hlk as Hlk. congruence.
    - intros i y Hy Hi. specialize (Hlk i). rewrite Hy in Hlk.
      destruct (l !! i) as [z|] eqn:Hz; [|done]. injection Hlk as Hlk.
      rewrite <- Hlk. by apply (Hlt i z). }
  destruct (first_active l) as [j|] eqn:E.
  - symmetry. by apply (Hgo l l').
  - destruct (first_active l') as [j|] eqn:E'; [|done].
    apply (Hgo l' l) in E'; [congruence|]. intros i. by rewrite Hlk.
Qed.

Lemma modes_alter_oncuechange h i (l : list PlatTextTrack) :
  ptt_mode <$> alter (oncuechange_to h) i l = ptt_mode <$> l.
Proof.
  apply list_eq. intros j. rewrite !list_lookup_fmap.
  destruct (decide (i = j)) as [->|Hne].
  - rewrite list_lookup_alter_eq. by destruct (l !! j).
  - by rewrite list_lookup_alter_ne.
Qed.

Lemma first_active_alter_mode m j (l : list PlatTextTrack) :
  m ≠ disabled →
  first_active l = Some j →
  first_active (alter (mode_to m) j l) = Some j.
Proof.
  intros Hm. rewrite !first_active_Some. intros [(x & Hx & _) Hlt]. split.
  - exists (mode_to m x). rewrite list_lookup_alter_eq, Hx. done.
  - intros i y Hy Hi. rewrite list_lookup_alter_ne in Hy by lia.
    by apply (Hlt i y).
Qed.

Lemma selectable_length (l l' : list PlatTextTrack) t :
  length l = length l' → selectable l t = selectable l' t.
Proof. intros H. unfold selectable, in_bounds. by rewrite H. Qed.

Lemma first_active_switched (tracks : list PlatTextTrack) (t : Track) :
  first_active (switched tracks t) =
  if selectable tracks t
  then Some (Z.to_nat (index (settings t)))
  else first_active tracks.
Proof.
  unfold switched. destruct (selectable tracks t) eqn:Hs; [|done].
  destruct t as [s|s|s]; try done. cbn in Hs |- *.
  apply andb_true_iff in Hs as [_ Hb]. apply bool_decide_eq_true in Hb.
  unfold in_bounds in Hb.
  destruct (lookup_lt_is_Some_2 tracks (Z.to_nat (index s))) as [x Hx];
    [lia|].
  apply first_active_Some. split.
  - exists (mode_to hidden (mode_to disabled x)).
    by rewrite list_lookup_alter_eq, list_lookup_fmap, Hx.
  - intros i y Hy Hi. rewrite list_lookup_alter_ne in Hy by lia.
    rewrite list_lookup_fmap in Hy.
    destruct (tracks !! i); [|done]. by injection Hy as <-.
Qed.

Lemma removeCueChangeListener_spec (w : World) :
  let w' := Html5._removeCueChangeListener w in
  el_textTracks (el w') = unsubscribed (el_textTracks (el w))
  ∧ trace w' = trace w ++ removal (el_textTracks (el w)).
Proof.
  cbn zeta. unfold Html5._removeCueChangeListener, unsubscribed, removal,
    Html5._getSelectedTextTrackElement.
  fold (first_active (el_textTracks (el w))).
  destruct (first_active _); [done|]. by rewrite app_nil_r.
Qed.

Lemma unsubscribed_length tracks :
  length (unsubscribed tracks) = length tracks.
Proof.
  unfold unsubscribed. destruct (first_active tracks); [|done].
  apply length_alter.
Qed.

Lemma first_active_unsubscribed tracks :
  first_active (unsubscribed tracks) = first_active tracks.
Proof.
  unfold unsubscribed. destruct (first_active tracks) eqn:E; [|done].
  rewrite <- E. apply first_active_modes, modes_alter_oncuechange.
Qed.

Lemma addCueChangeListener_spec (t : Track) (f : Html5) (w : World) :
  let r := Html5._addCueChangeListener t f w in
  let k := index (settings t) in
  let tracks := el_textTracks (el w) in
  trace r.2 = trace w ++ installation f k tracks
  ∧ match first_active tracks with
    | Some j =>
        if useNativeTextTrack f
        then r.1 = f ∧ el_textTracks (el r.2) = alter (mode_to showing) j tracks
        else r.1 = with_shown (<[k := true]> (_showTextTrackFirstTime f)) f
             ∧ el_textTracks (el r.2) =
                 alter (oncuechange_to (Some call_onCueChange)) j
                   (alter (mode_to (if Html5.shown f k then hidden
                                    else showing)) j tracks)
    | None => r = (f, w)
    end.
Proof.
  cbn zeta. unfold Html5._addCueChangeListener, installation,
    Html5._getSelectedTextTrackElement.
  fold (first_active (el_textTracks (el w))).
  destruct (first_active _) as [j|]; [|by rewrite app_nil_r].
  destruct (useNativeTextTrack f); [done|].
  cbn. by rewrite <- app_assoc.
Qed.

(** The engine's [selectTextTrack], block by block. *)
Lemma engine_selectTextTrack_spec (t : Track) (f : Html5) (w : World) :
  let r := Html5.selectTextTrack t f w in
  let k := index (settings t) in
  let tracks0 := el_textTracks (el w) in
  let tracks1 := unsubscribed tracks0 in
  let tracks2 := if bound f then switched tracks1 t else tracks1 in
  trace r.2 =
    trace w ++ removal tracks0
            ++ (if bound f then switching tracks1 t else [])
            ++ installation f k tracks2
  ∧ first_active tracks2 =
      (if bound f && selectable tracks0 t
       then Some (Z.to_nat k)
       else first_active tracks0)
  ∧ match first_active tracks2 with
    | Some j =>
        if useNativeTextTrack f
        then r.1 = f
             ∧ el_textTracks (el r.2) = alter (mode_to showing) j tracks2
        else r.1 = with_shown (<[k := true]> (_showTextTrackFirstTime f)) f
             ∧ el_textTracks (el r.2) =
                 alter (oncuechange_to (Some call_onCueChange)) j
                   (alter (mode_to (if Html5.shown f k then hidden
                                    else showing)) j tracks2)
    | None => r.1 = f ∧ el_textTracks (el r.2) = tracks2
    end.
Proof.
  cbn zeta. unfold Html5.selectTextTrack.
  destruct (removeCueChangeListener_spec w) as [Hl1 Ht1]. cbn zeta in *.
  set (w1 := Html5._removeCueChangeListener w) in *.
  set (w2 := match _mediaSourceAdapter f with
             | Some _ => NativeAdapter.selectTextTrack (ATrack t) w1
             | None => w1
             end).
  assert (H2 : el_textTracks (el w2) =
               (if bound f then switched (el_textTracks (el w1)) t
                else el_textTracks (el w1))
               ∧ trace w2 = trace w1 ++
                   (if bound f then switching (el_textTracks (el w1)) t
                    else [])).
  { subst w2. unfold bound. destruct (_mediaSourceAdapter f).
    - apply adapter_selectTextTrack_spec.
    - by rewrite app_nil_r. }
  destruct H2 as [Hl2 Ht2]. rewrite Hl1 in Hl2, Ht2.
  destruct (addCueChangeListener_spec t f w2) as [Ht3 Hl3]. cbn zeta in *.
  rewrite Hl2 in Ht3, Hl3.
  set (tracks2 := if bound f then _ else _) in *.
  split; [by rewrite Ht3, Ht2, Ht1, <- !app_assoc|].
  split.
  { subst tracks2. destruct (bound f); cbn [andb].
    - rewrite first_active_switched.
      rewrite (selectable_length _ (el_textTracks (el w)))
        by apply unsubscribed_length.
      by rewrite first_active_unsubscribed.
    - apply first_active_unsubscribed. }
  destruct (first_active tracks2) as [j|]; [done|].
  rewrite Hl3. cbn. by rewrite Hl2.
Qed.

(** C6, as the code has it. Every [selectTextTrack] of the engine makes its element
    calls in three blocks, in this order: first the cue-change handler of
    the text track active before the call is cleared (nothing, if none is
    active); then, if an adapter is bound, come the adapter's calls for the
    switch (nothing, if the track is not selectable); last, on the text
    track active after the switch (if there is one), the mode is set and,
    unless native text-track rendering is configured, the cue-change
    handler is stored.  After a switch to a selectable track the active
    track is the requested one; and outside native rendering the active
    track, if any, carries the handler when the call returns. *)
Theorem C6_select_text_track_order (t : Track) (f : Html5) (w : World) :
  let r := Html5.selectTextTrack t f w in
  let tracks0 := el_textTracks (el w) in
  let tracks1 := unsubscribed tracks0 in
  let tracks2 := if bound f then switched tracks1 t else tracks1 in
  trace r.2 =
    trace w ++ removal tracks0
            ++ (if bound f then switching tracks1 t else [])
            ++ installation f (index (settings t)) tracks2
  ∧ first_active tracks2 =
      (if bound f && selectable tracks0 t
       then Some (Z.to_nat (index (settings t)))
       else first_active tracks0)
  ∧ first_active (el_textTracks (el r.2)) = first_active tracks2
  ∧ match first_active tracks2 with
    | Some j =>
        if useNativeTextTrack f then True
        else ptt_oncuechange <$> el_textTracks (el r.2) !! j =
             Some (Some call_onCueChange)
    | None => True
    end.
Proof.
  cbn zeta.
  destruct (engine_selectTextTrack_spec t f w) as (Htr & Hfa & Hfin).
  cbn zeta in *.
  set (tracks2 := if bound f then switched _ t else unsubscribed _) in *.
  split; [exact Htr|]. split; [exact Hfa|].
  destruct (first_active tracks2) as [j|] eqn:Hj.
  - destruct (useNativeTextTrack f).
    + destruct Hfin as [_ ->]. split; [|done].
      by apply first_active_alter_mode.
    + destruct Hfin as [_ ->]. split.
      * rewrite (first_active_modes _ _ (modes_alter_oncuechange _ _ _)).
        apply first_active_alter_mode; [by destruct (Html5.shown _ _)|done].
      * rewrite list_lookup_alter_eq, list_lookup_alter_eq.
        apply first_active_Some in Hj as [(x & -> & _) _]. done.
  - destruct Hfin as [_ ->]. by rewrite Hj.
Qed.

Lemma keeps_record_refl K f : keeps_record K f f.
Proof. done. Qed.

Lemma keeps_record_trans K f1 f2 f3 :
  keeps_record K f1 f2 → keeps_record K f2 f3 → keeps_record K f1 f3.
Proof.
  intros (H1 & H2 & H3) (H1' & H2' & H3').
  repeat split; [congruence..|auto].
Qed.

Lemma keeps_record_with_adapter K f a :
  bound f = true → keeps_record K f (with_adapter (Some a) f).
Proof. intros Hb. repeat split; done. Qed.

Lemma shown_insert f k K :
  Html5.shown (with_shown (<[k := true]> (_showTextTrackFirstTime f)) f) K =
  if decide (k = K) then true else Html5.shown f K.
Proof.
  unfold Html5.shown. cbn. rewrite lookup_insert.
  by destruct (decide (k = K)).
Qed.

Lemma keeps_record_selectTextTrack K t f w :
  keeps_record K f (Html5.selectTextTrack t f w).1.
Proof.
  destruct (engine_selectTextTrack_spec t f w) as (_ & _ & Hfin).
  cbn zeta in Hfin.
  destruct (first_active _) as [j|]; [|destruct Hfin as [-> _]; done].
  destruct (useNativeTextTrack f) eqn:Hn; destruct Hfin as [-> _]; [done|].
  split; [done|]. split; [done|].
  intros HK. rewrite shown_insert. by case_decide.
Qed.

Lemma keeps_record_step env K c s :
  keeps_record K s.1 (engine_step env c s).1.
Proof.
  destruct s as [f w]. destruct c; cbn [engine_step fst snd]; try done.
  - apply keeps_record_selectTextTrack.
  - unfold Html5.selectVideoTrack.
    destruct (_mediaSourceAdapter f) as [a|] eqn:Ha; [|done].
    destruct (NativeAdapter.selectVideoTrack _ a w) as [a' w'].
    apply keeps_record_with_adapter. unfold bound. by rewrite Ha.
  - unfold Html5.load.
    destruct (_mediaSourceAdapter f) as [a|] eqn:Ha; [|done].
    destruct (NativeAdapter.load _ _ a _) as [[p a'] w'].
    apply keeps_record_with_adapter. unfold bound. by rewrite Ha.
  - unfold Html5.signal.
    destruct (_mediaSourceAdapter f) as [a|] eqn:Ha; [|done].
    destruct (NativeAdapter.signal _ _ _ a w) as [a' w'].
    apply keeps_record_with_adapter. unfold bound. by rewrite Ha.
Qed.

Lemma keeps_record_run env K calls s :
  keeps_record K s.1 (engine_run env calls s).1.
Proof.
  revert s. induction calls as [|c calls IH]; intros s; [done|].
  unfold engine_run. cbn [foldl].
  eapply keeps_record_trans; [apply (keeps_record_step env K c)|apply IH].
Qed.

(** One activation of a selectable track with an adapter bound, outside
    native rendering. *)
Lemma activation_spec (s : Settings) (f : Html5) (w : World) :
  useNativeTextTrack f = false →
  bound f = true →
  selectable (el_textTracks (el w)) (PKTextTrack s) = true →
  let K := index s in
  let j := Z.to_nat K in
  let m := if Html5.shown f K then hidden else showing in
  let r := Html5.selectTextTrack (PKTextTrack s) f w in
  r.1 = with_shown (<[K := true]> (_showTextTrackFirstTime f)) f
  ∧ ptt_mode <$> el_textTracks (el r.2) !! j = Some m
  ∧ trace r.2 =
      trace w ++ removal (el_textTracks (el w))
              ++ switching (unsubscribed (el_textTracks (el w)))
                   (PKTextTrack s)
              ++ [E_set_mode ByEngine j m;
                  E_set_oncuechange j (Some call_onCueChange)].
Proof.
  intros Hn Hb Hs. cbn zeta.
  destruct (engine_selectTextTrack_spec (PKTextTrack s) f w)
    as (Htr & Hfa & Hfin).
  cbn zeta in *. rewrite Hb, Hs in *. cbn [andb settings] in *.
  unfold installation in Htr. rewrite Hfa, Hn in *.
  destruct Hfin as [-> ->]. split; [done|]. split; [|exact Htr].
  rewrite !list_lookup_alter_eq.
  apply first_active_Some in Hfa as [(x & -> & _) _]. done.
Qed.

(** The modes after the engine has activated a selectable track. *)
Lemma activation_modes (s : Settings) (f : Html5) (w : World) :
  useNativeTextTrack f = false →
  bound f = true →
  selectable (el_textTracks (el w)) (PKTextTrack s) = true →
  let j := Z.to_nat (index s) in
  let m := if Html5.shown f (index s) then hidden else showing in
  let r := Html5.selectTextTrack (PKTextTrack s) f w in
  (j < length (el_textTracks (el w)))%nat
  ∧ ptt_mode <$> el_textTracks (el r.2) =
      (λ i, if bool_decide (i = j) then m else disabled)
        <$> seq 0 (length (el_textTracks (el w)))
  ∧ ptt_oncuechange <$> el_textTracks (el r.2) !! j =
      Some (Some call_onCueChange).
Proof.
  intros Hn Hb Hs. cbn zeta.
  assert (Hj : (Z.to_nat (index s) < length (el_textTracks (el w)))%nat).
  { cbn in Hs. apply andb_true_iff in Hs as [_ Hi].
    apply bool_decide_eq_true in Hi. unfold in_bounds in Hi. lia. }
  destruct (engine_selectTextTrack_spec (PKTextTrack s) f w)
    as (_ & Hfa & Hfin).
  cbn zeta in *. rewrite Hb, Hs in *. cbn [andb settings] in *.
  rewrite Hfa, Hn in Hfin. destruct Hfin as [_ ->].
  unfold switched.
  rewrite (selectable_length _ (el_textTracks (el w)))
    by apply unsubscribed_length.
  rewrite Hs. cbn [settings].
  split; [exact Hj|].
  assert (Hlen : length (unsubscribed (el_textTracks (el w))) =
                 length (el_textTracks (el w)))
    by apply unsubscribed_length.
  split.
  - apply list_eq. intros i. rewrite !list_lookup_fmap.
    destruct (decide (i = Z.to_nat (index s))) as [->|Hne].
    + rewrite !list_lookup_alter_eq, list_lookup_fmap.
      destruct (lookup_lt_is_Some_2 (unsubscribed (el_textTracks (el w)))
                  (Z.to_nat (index s))) as [y ->]; [lia|].
      rewrite lookup_seq_lt by done. cbn.
      by rewrite bool_decide_eq_true_2.
    + rewrite !list_lookup_alter_ne, list_lookup_fmap by done.
      destruct (unsubscribed (el_textTracks (el w)) !! i) as [y|] eqn:Hy.
      * apply lookup_lt_Some in Hy. rewrite lookup_seq_lt by lia. cbn.
        by rewrite bool_decide_eq_false_2.
      * apply lookup_ge_None in Hy. by rewrite lookup_seq_ge by lia.
  - rewrite !list_lookup_alter_eq, list_lookup_fmap.
    destruct (lookup_lt_is_Some_2 (unsubscribed (el_textTracks (el w)))
                (Z.to_nat (index s))) as [y ->]; [lia|]. done.
Qed.

Lemma no_showing_in_removal tracks c j :
  E_set_mode c j showing ∉ removal tracks.
Proof.
  unfold removal. destruct (first_active tracks).
  - rewrite list_elem_of_singleton. discriminate.
  - apply not_elem_of_nil.
Qed.

Lemma no_showing_in_switching tracks t c j :
  E_set_mode c j showing ∉ switching tracks t.
Proof.
  unfold switching, disabling. destruct (selectable tracks t).
  - rewrite elem_of_app, list_elem_of_fmap, !elem_of_cons, elem_of_nil.
    intros [(i & Hi & _)|[H|[H|[]]]]; discriminate.
  - apply not_elem_of_nil.
Qed.

(** A call that does not pass index [K] to [selectTextTrack] leaves the
    record of [K] as it is. *)
Lemma shown_step env K c s :
  carries K c = false →
  Html5.shown (engine_step env c s).1 K = Html5.shown s.1 K.
Proof.
  destruct s as [f w].
  destruct c as [t| |t|t|startTime|n detail|i];
    cbn [engine_step carries fst snd]; intros Hc; try done.
  - apply bool_decide_eq_false in Hc.
    destruct (engine_selectTextTrack_spec t f w) as (_ & _ & Hfin).
    cbn zeta in Hfin.
    destruct (first_active _) as [j|]; [|destruct Hfin as [-> _]; done].
    destruct (useNativeTextTrack f); destruct Hfin as [-> _]; [done|].
    rewrite shown_insert. by rewrite decide_False.
  - unfold Html5.selectVideoTrack.
    destruct (_mediaSourceAdapter f) as [a|]; [|done].
    by destruct (NativeAdapter.selectVideoTrack _ a w).
  - unfold Html5.load.
    destruct (_mediaSourceAdapter f) as [a|]; [|done].
    by destruct (NativeAdapter.load _ _ a _) as [[p a'] w'].
  - unfold Html5.signal.
    destruct (_mediaSourceAdapter f) as [a|]; [|done].
    by destruct (NativeAdapter.signal _ _ _ a w).
Qed.

Lemma shown_run env K calls s :
  existsb (carries K) calls = false →
  Html5.shown (engine_run env calls s).1 K = Html5.shown s.1 K.
Proof.
  revert s. induction calls as [|c calls IH]; intros s; [done|].
  cbn [existsb]. intros H. apply orb_false_iff in H as [Hc Hcs].
  unfold engine_run. cbn [foldl].
  etrans; [apply IH, Hcs|]. by apply shown_step.
Qed.

(** C7, as the code has it. The engine keeps, per instance, a record of the
    text-track indices it has shown.  Outside native text-track rendering
    and with an adapter bound, take an engine on whose record index K is
    not (as on a new engine, whose record is empty) and let any calls and
    signals follow, none of them a [selectTextTrack] that passes index K.
    If the first [selectTextTrack] that passes index K activates a
    selectable text track, it leaves that track showing, puts K on record
    and changes no other entry; and whatever calls and signals follow,
    every later activation of index K leaves the track hidden and never
    sets it to showing on its way. *)
Theorem C7_shown_once (env : Env) (s s' : Settings) (f : Html5) (w : World)
    (before calls : list EngineCall) :
  useNativeTextTrack f = false →
  bound f = true →
  Html5.shown f (index s) = false →
  existsb (carries (index s)) before = false →
  index s' = index s →
  let K := index s in
  let j := Z.to_nat K in
  let r0 := engine_run env before (f, w) in
  let r1 := Html5.selectTextTrack (PKTextTrack s) r0.1 r0.2 in
  let r2 := engine_run env calls r1 in
  let r3 := Html5.selectTextTrack (PKTextTrack s') r2.1 r2.2 in
  selectable (el_textTracks (el r0.2)) (PKTextTrack s) = true →
  selectable (el_textTracks (el r2.2)) (PKTextTrack s') = true →
  ptt_mode <$> el_textTracks (el r1.2) !! j = Some showing
  ∧ Html5.shown r1.1 K = true
  ∧ (∀ K', K' ≠ K → Html5.shown r1.1 K' = Html5.shown r0.1 K')
  ∧ ptt_mode <$> el_textTracks (el r3.2) !! j = Some hidden
  ∧ ∃ tl, trace r3.2 = trace r2.2 ++ tl
          ∧ ∀ c, E_set_mode c j showing ∉ tl.
Proof.
  intros Hn Hb Hfresh Hbefore Hidx. cbn zeta. intros Hs Hs'.
  set (r0 := engine_run env before (f, w)) in *.
  destruct (keeps_record_run env (index s) before (f, w)) as (Hn0 & Hb0 & _).
  fold r0 in Hn0, Hb0. cbn [fst] in Hn0, Hb0.
  rewrite Hn in Hn0. rewrite Hb in Hb0.
  pose proof (shown_run env (index s) before (f, w) Hbefore) as HK0.
  fold r0 in HK0. cbn [fst] in HK0. rewrite Hfresh in HK0.
  destruct (activation_spec s r0.1 r0.2 Hn0 Hb0 Hs) as (Hf1 & Hm1 & _).
  cbn zeta in *. rewrite HK0 in Hm1.
  set (r1 := Html5.selectTextTrack (PKTextTrack s) r0.1 r0.2) in *.
  set (r2 := engine_run env calls r1) in *.
  assert (HK1 : Html5.shown r1.1 (index s) = true).
  { rewrite Hf1, shown_insert. by rewrite decide_True. }
  destruct (keeps_record_selectTextTrack (index s) (PKTextTrack s) r0.1 r0.2)
    as (Hn1 & Hb1 & _). fold r1 in Hn1, Hb1.
  destruct (keeps_record_run env (index s) calls r1) as (Hn2 & Hb2 & HK2).
  fold r2 in Hn2, Hb2, HK2.
  destruct (activation_spec s' r2.1 r2.2) as (_ & Hm3 & Ht3);
    [congruence..|done|].
  cbn zeta in *. rewrite Hidx in Hm3, Ht3.
  rewrite (HK2 HK1) in Hm3, Ht3.
  split; [exact Hm1|]. split; [exact HK1|].
  split.
  { intros K' HK'. rewrite Hf1, shown_insert. by rewrite decide_False. }
  split; [exact Hm3|].
  eexists. split; [exact Ht3|].
  intros c. rewrite !elem_of_app, !elem_of_cons, elem_of_nil.
  intros [H|[H|[H|[H|[]]]]]; try discriminate.
  - by apply no_showing_in_removal in H.
  - by apply no_showing_in_switching in H.
Qed.

(** ** What leaves the text tracks alone (C10) *)

Lemma texts_foldl {A} (f : World → A → World) (l : list A) (w : World) :
  (∀ w x, el_textTracks (el (f w x)) = el_textTracks (el w)) →
  el_textTracks (el (foldl f w l)) = el_textTracks (el w).
Proof.
  intros Hf. revert w. induction l as [|x l IH]; intros w; cbn; [done|].
  by rewrite IH, Hf.
Qed.

Lemma texts_settle p st w :
  el_textTracks (el (settle p st w)) = el_textTracks (el w).
Proof. unfold settle. by destruct (promises w !! p) as [[| |]|]. Qed.

Lemma texts_onTrackChanged t w :
  el_textTracks (el (_onTrackChanged t w)) = el_textTracks (el w).
Proof. by destruct t. Qed.

Lemma texts_disableVideoTracks w :
  el_textTracks (el (NativeAdapter._disableVideoTracks w)) =
  el_textTracks (el w).
Proof.
  unfold NativeAdapter._disableVideoTracks.
  destruct (el_videoTracks (el w)); [|done]. by apply texts_foldl.
Qed.

Lemma texts_disableAudioTracks w :
  el_textTracks (el (NativeAdapter._disableAudioTracks w)) =
  el_textTracks (el w).
Proof.
  unfold NativeAdapter._disableAudioTracks.
  destruct (el_audioTracks (el w)); [|done]. by apply texts_foldl.
Qed.

Lemma texts_selectVideoTrack arg a w :
  el_textTracks (el (NativeAdapter.selectVideoTrack arg a w).2) =
  el_textTracks (el w).
Proof.
  unfold NativeAdapter.selectVideoTrack,
    NativeAdapter._selectProgressiveVideoTrack,
    NativeAdapter.selectAdaptiveVideoTrack.
  repeat case_match; cbn; by rewrite ?texts_disableVideoTracks.
Qed.

Lemma texts_selectAudioTrack arg w :
  el_textTracks (el (NativeAdapter.selectAudioTrack arg w)) =
  el_textTracks (el w).
Proof.
  unfold NativeAdapter.selectAudioTrack.
  repeat case_match; cbn; by rewrite ?texts_disableAudioTracks.
Qed.

Lemma texts_load env startTime a w :
  el_textTracks (el (NativeAdapter.load env startTime a w).2) =
  el_textTracks (el w).
Proof.
  unfold NativeAdapter.load. destruct (_loadPromise a); [done|].
  unfold new_promise. cbn beta iota zeta.
  repeat case_match; simplify_eq; seeks; cbn [snd];
    rewrite ?texts_settle; done.
Qed.

Lemma texts_run_handler env h detail a w :
  el_textTracks (el (NativeAdapter.run_handler env h detail a w).2) =
  el_textTracks (el w).
Proof.
  unfold NativeAdapter.run_handler.
  destruct h; repeat case_match; seeks; cbn [snd];
    rewrite ?texts_settle, ?texts_onTrackChanged; try done;
    cbn; by rewrite ?texts_onTrackChanged.
Qed.

Lemma texts_signal env n detail a w :
  el_textTracks (el (NativeAdapter.signal env n detail a w).2) =
  el_textTracks (el w).
Proof.
  rewrite signal_unfold. unfold run_handlers.
  generalize (filter (λ l : SignalName * Handler, l.1 = n) (_eventManager a)).
  generalize (with_listeners
                (filter (λ l : SignalName * Handler, l.1 ≠ n) (_eventManager a))
                a).
  intros a0 due. revert a0 w.
  induction due as [|l due IH]; intros a0 w; cbn [foldl fst snd]; [done|].
  destruct (NativeAdapter.run_handler env l.2 detail a0 w) as [a1 w1] eqn:E.
  rewrite IH. apply (f_equal snd) in E. cbn in E. subst w1.
  apply texts_run_handler.
Qed.

Lemma modes_unsubscribed tracks :
  ptt_mode <$> unsubscribed tracks = ptt_mode <$> tracks.
Proof.
  unfold unsubscribed. destruct (first_active tracks); [|done].
  apply modes_alter_oncuechange.
Qed.

(** Once index [K] is on record and the track at that index is hidden or
    disabled, no call of the engine shows it again, as long as every
    [selectTextTrack] passes a track the adapter accepts. *)
Lemma mode_step env (j : nat) c (s : Html5 * World) :
  useNativeTextTrack s.1 = false →
  bound s.1 = true →
  Html5.shown s.1 (Z.of_nat j) = true →
  all_accepted env [c] s = true →
  ptt_mode <$> el_textTracks (el s.2) !! j = Some hidden
  ∨ ptt_mode <$> el_textTracks (el s.2) !! j = Some disabled →
  let s' := engine_step env c s in
  ptt_mode <$> el_textTracks (el s'.2) !! j = Some hidden
  ∨ ptt_mode <$> el_textTracks (el s'.2) !! j = Some disabled.
Proof.
  destruct s as [f w]. cbn [fst snd all_accepted].
  intros Hn Hb HK Hacc Hm. rewrite andb_true_r in Hacc.
  assert (Hj : (j < length (el_textTracks (el w)))%nat).
  { destruct (el_textTracks (el w) !! j) as [x|] eqn:Hx.
    - by apply lookup_lt_Some in Hx.
    - by destruct Hm. }
  destruct c as [t| |t|t|startTime|n detail|i]; cbn [engine_step fst snd].
  - destruct t as [s0|s0|s0]; try done.
    destruct (activation_modes s0 f w Hn Hb Hacc) as (Hj0 & Hmodes & _).
    cbn zeta in Hmodes.
    rewrite <- !list_lookup_fmap, Hmodes, list_lookup_fmap.
    rewrite lookup_seq_lt by done. cbn.
    case_bool_decide as Heq; [|by right].
    assert (Hidx : index s0 = Z.of_nat j).
    { cbn in Hacc. apply andb_true_iff in Hacc as [_ Hi].
      apply bool_decide_eq_true in Hi. unfold in_bounds in Hi. lia. }
    rewrite Hidx, HK. by left.
  - right. unfold Html5.hideTextTrack. unfold bound in Hb.
    destruct (_mediaSourceAdapter f); [|done].
    destruct (removeCueChangeListener_spec (NativeAdapter.hideTextTrack w))
      as [-> _].
    rewrite <- list_lookup_fmap, modes_unsubscribed.
    unfold NativeAdapter.hideTextTrack. rewrite disableTextTracks_tracks.
    rewrite !list_lookup_fmap.
    destruct (lookup_lt_is_Some_2 (el_textTracks (el w)) j Hj) as [x ->].
    done.
  - unfold Html5.selectAudioTrack.
    destruct (_mediaSourceAdapter f); [|done].
    by rewrite texts_selectAudioTrack.
  - unfold Html5.selectVideoTrack.
    destruct (_mediaSourceAdapter f) as [a|]; [|done].
    pose proof (texts_selectVideoTrack (ATrack t) a w) as H.
    destruct (NativeAdapter.selectVideoTrack _ a w) as [a' w'].
    cbn [snd] in *. by rewrite H.
  - unfold Html5.load.
    destruct (_mediaSourceAdapter f) as [a|]; [|done].
    pose proof (texts_load env startTime a (el_load ByEngine w)) as H.
    destruct (NativeAdapter.load _ _ a _) as [[p a'] w'].
    cbn [snd] in *. by rewrite H.
  - unfold Html5.signal.
    destruct (_mediaSourceAdapter f) as [a|]; [|done].
    pose proof (texts_signal env n detail a w) as H.
    destruct (NativeAdapter.signal _ _ _ a w) as [a' w'].
    cbn [snd] in *. by rewrite H.
  - unfold Html5.cuechange.
    destruct (el_textTracks (el w) !! i) as [x|] eqn:Hx; [|done].
    destruct (ptt_oncuechange x) as [[]|]; [|done].
    rewrite onCueChange_textTracks.
    destruct (decide (i = j)) as [->|Hne].
    + rewrite list_lookup_alter_eq, Hx. by left.
    + by rewrite list_lookup_alter_ne.
Qed.

Lemma mode_run env (j : nat) calls (s : Html5 * World) :
  useNativeTextTrack s.1 = false →
  bound s.1 = true →
  Html5.shown s.1 (Z.of_nat j) = true →
  all_accepted env calls s = true →
  ptt_mode <$> el_textTracks (el s.2) !! j = Some hidden
  ∨ ptt_mode <$> el_textTracks (el s.2) !! j = Some disabled →
  let s' := engine_run env calls s in
  ptt_mode <$> el_textTracks (el s'.2) !! j = Some hidden
  ∨ ptt_mode <$> el_textTracks (el s'.2) !! j = Some disabled.
Proof.
  revert s. induction calls as [|c calls IH]; intros s Hn Hb HK Hacc Hm;
    [done|].
  cbn zeta. unfold engine_run. cbn [foldl].
  cbn [all_accepted] in Hacc. apply andb_true_iff in Hacc as [Hc Hcs].
  destruct (keeps_record_step env (Z.of_nat j) c s) as (Hn' & Hb' & HK').
  apply IH; [congruence|congruence|auto|done|].
  apply mode_step; try done.
  cbn [all_accepted]. by rewrite Hc.
Qed.

(** C10, as the code has it. Each run of the engine's cue-change handler
    first sets the mode of the track the signal came from to hidden and
    only then emits the cues.  So, outside native text-track rendering and
    with an adapter bound, a text track that an activation has left showing
    is hidden by its first cue-change signal and hidden after every further
    one; and whatever calls and signals follow the first cue change, as
    long as every [selectTextTrack] among them passes a track the adapter
    accepts, the track is hidden or disabled afterwards, never showing. *)
Theorem C10_cue_change_hides_track (env : Env) (s : Settings) (f : Html5)
    (w : World) (n : nat) (calls : list EngineCall) :
  useNativeTextTrack f = false →
  bound f = true →
  selectable (el_textTracks (el w)) (PKTextTrack s) = true →
  Html5.shown f (index s) = false →
  let j := Z.to_nat (index s) in
  let r1 := Html5.selectTextTrack (PKTextTrack s) f w in
  let w2 := Html5.cuechange j r1.2 in
  let r3 := engine_run env calls (r1.1, w2) in
  all_accepted env calls (r1.1, w2) = true →
  ptt_mode <$> el_textTracks (el r1.2) !! j = Some showing
  ∧ (∃ cues, trace w2 =
               trace r1.2 ++ [E_set_mode ByEngine j hidden;
                              E_emit ByEngine (TEXT_CUE_CHANGED cues)])
  ∧ ptt_mode <$> el_textTracks (el (Nat.iter n (Html5.cuechange j) w2)) !! j
    = Some hidden
  ∧ (ptt_mode <$> el_textTracks (el r3.2) !! j = Some hidden
     ∨ ptt_mode <$> el_textTracks (el r3.2) !! j = Some disabled)
  ∧ ∀ i w' t,
      el_textTracks (el w') !! i = Some t →
      ptt_oncuechange t = Some call_onCueChange →
      (∃ cues, trace (Html5.cuechange i w') =
                 trace w' ++ [E_set_mode ByEngine i hidden;
                              E_emit ByEngine (TEXT_CUE_CHANGED cues)])
      ∧ ptt_mode <$> el_textTracks (el (Html5.cuechange i w')) !! i
        = Some hidden.
Proof.
  intros Hn Hb Hs Hfresh. cbn zeta. intros Hacc.
  destruct (activation_spec s f w Hn Hb Hs) as (Hf1 & Hm1 & _).
  destruct (activation_modes s f w Hn Hb Hs) as (Hj & _ & Hh).
  cbn zeta in *. rewrite Hfresh in Hm1.
  set (j := Z.to_nat (index s)) in *.
  set (r1 := Html5.selectTextTrack (PKTextTrack s) f w) in *.
  destruct (el_textTracks (el r1.2) !! j) as [t1|] eqn:Ht1; [|done].
  cbn in Hh. injection Hh as Hh.
  assert (Hhid : ∀ k, el_textTracks
                        (el (Nat.iter (S k) (Html5.cuechange j) r1.2)) !! j =
                      Some (mode_to hidden t1)).
  { intros k. by apply cuechange_iter_hidden. }
  split; [exact Hm1|]. split.
  { rewrite (cuechange_installed j r1.2 t1) by done.
    eexists. by apply onCueChange_trace. }
  split.
  { change (Nat.iter n (Html5.cuechange j) (Html5.cuechange j r1.2))
      with (Nat.iter n (Html5.cuechange j)
              (Nat.iter 1 (Html5.cuechange j) r1.2)).
    rewrite <- Nat.iter_add, Nat.add_1_r. by rewrite Hhid. }
  split.
  { assert (HK : index s = Z.of_nat j).
    { cbn in Hs. apply andb_true_iff in Hs as [_ Hi].
      apply bool_decide_eq_true in Hi. unfold in_bounds in Hi. lia. }
    destruct (keeps_record_selectTextTrack (index s) (PKTextTrack s) f w)
      as (Hn1 & Hb1 & _). fold r1 in Hn1, Hb1.
    apply (mode_run env j calls (r1.1, Html5.cuechange j r1.2));
      cbn [fst snd]; [congruence|congruence| |exact Hacc|].
    - rewrite <- HK, Hf1, shown_insert. by rewrite decide_True.
    - left. specialize (Hhid 0%nat).
      change (Nat.iter 1 (Html5.cuechange j) r1.2)
        with (Html5.cuechange j r1.2) in Hhid.
      by rewrite Hhid. }
  intros i w' t Ht Hh'. rewrite (cuechange_installed i w' t) by done.
  split.
  - eexists. by apply onCueChange_trace.
  - by rewrite onCueChange_textTracks, list_lookup_alter_eq, Ht.
Qed.

(** ** The properties on the sample states *)

Lemma C4_invalid_selection_witness :
  invalid (SelectText (ATrack (PKTextTrack text_out_of_range)))
    adapter0 world0
  ∧ select (SelectText (ATrack (PKTextTrack text_out_of_range)))
      adapter0 world0 = (adapter0, world0).
Proof.
  assert (Hinv : invalid (SelectText (ATrack (PKTextTrack text_out_of_range)))
                   adapter0 world0).
  { left. unfold in_bounds. cbn. lia. }
  split; [exact Hinv|].
  exact (C4_invalid_selection_is_noop _ adapter0 world0 Hinv).
Defined.

Lemma C8_three_mixed_cues_witness :
  el_textTracks (el world0) !! 0%nat = Some english
  ∧ Forall supported (ptt_activeCues english)
  ∧ ∃ cues : list PayloadCue,
      trace (Html5._onCueChange 0 world0) =
        trace world0 ++ [E_set_mode ByEngine 0 hidden;
                         E_emit ByEngine (TEXT_CUE_CHANGED cues)]
      ∧ length cues = 3%nat
      ∧ Some ∘ canonical <$> cues = fields <$> ptt_activeCues english.
Proof.
  assert (Hs : Forall supported (ptt_activeCues english)).
  { repeat constructor. }
  split; [reflexivity|]. split; [exact Hs|].
  exact (C8_cue_change_batches_all_active_cues 0 world0 english eq_refl Hs).
Defined.

Lemma C1_counterexample :
  ¬ first_load_pending env_desktop (Some Infinity) adapter0 world0.
Proof.
  intros H. specialize (H eq_refl). vm_compute in H. discriminate H.
Qed.

Lemma C10_counterexample :
  ¬ hidden_for_good env_desktop 0 engine_shown world_showing
      [CallSelectTextTrack (PKTextTrack text_out_of_range)].
Proof. intros H. vm_compute in H. discriminate H. Qed.

Lemma C10_cue_change_witness :
  useNativeTextTrack engine0 = false
  ∧ bound engine0 = true
  ∧ selectable (el_textTracks (el world0)) (PKTextTrack text_english) = true
  ∧ Html5.shown engine0 (index text_english) = false
  ∧ let calls := [CueChangeOn 0; CallSelectTextTrack (PKTextTrack text_french);
                  CueChangeOn 1; CallLoad (Some Infinity);
                  CallSelectTextTrack (PKTextTrack text_english_again);
                  ElementSignal LOADED_DATA ""] in
    let r1 := Html5.selectTextTrack (PKTextTrack text_english) engine0 world0 in
    let w2 := Html5.cuechange 0 r1.2 in
    let r3 := engine_run env_desktop calls (r1.1, w2) in
    all_accepted env_desktop calls (r1.1, w2) = true
    ∧ ptt_mode <$> el_textTracks (el r1.2) !! 0%nat = Some showing
    ∧ ptt_mode <$> el_textTracks
        (el (Nat.iter 2 (Html5.cuechange 0) w2)) !! 0%nat = Some hidden
    ∧ (ptt_mode <$> el_textTracks (el r3.2) !! 0%nat = Some hidden
       ∨ ptt_mode <$> el_textTracks (el r3.2) !! 0%nat = Some disabled).
Proof.
  split; [reflexivity|]. split; [reflexivity|]. split; [reflexivity|].
  split; [reflexivity|]. cbn zeta.
  assert (Hacc : all_accepted env_desktop
                   [CueChangeOn 0;
                    CallSelectTextTrack (PKTextTrack text_french);
                    CueChangeOn 1; CallLoad (Some Infinity);
                    CallSelectTextTrack (PKTextTrack text_english_again);
                    ElementSignal LOADED_DATA ""]
                   ((Html5.selectTextTrack (PKTextTrack text_english)
                       engine0 world0).1,
                    Html5.cuechange 0
                      (Html5.selectTextTrack (PKTextTrack text_english)
                         engine0 world0).2) = true).
  { vm_compute. reflexivity. }
  split; [exact Hacc|].
  destruct (C10_cue_change_hides_track env_desktop text_english engine0
              world0 2 _ eq_refl eq_refl eq_refl eq_refl Hacc)
    as (H1 & _ & H3 & H4 & _).
  split; [exact H1|]. split; [exact H3|exact H4].
Defined.

Lemma C2_counterexample :
  ¬ restores_only_after_seeked env_desktop adapter0 world0 video_720
      [LOADED_DATA].
Proof.
  intros H.
  assert (Hno : SEEKED ∉ [LOADED_DATA]).
  { rewrite list_elem_of_singleton. discriminate. }
  specialize (H Hno). vm_compute in H. discriminate H.
Qed.

Lemma C2_progressive_switch_witness :
  NativeAdapter._isProgressivePlayback adapter0 = true
  ∧ _progressiveSources adapter0 = Some [src_360; src_720]
  ∧ js_get [src_360; src_720] (index video_720) = Some src_720
  ∧ Forall is_load_listener (_eventManager adapter0)
  ∧ finite (el_currentTime (el world0)) = true
  ∧ let s0 := NativeAdapter.selectVideoTrack
                (ATrack (VideoTrack video_720)) adapter0 world0 in
    let s2 := deliver env_desktop [LOADED_DATA; SEEKED] s0 in
    trace s2.2 =
      [E_set_src "https://cdn.example/720.mp4";
       E_set_currentTime (el_currentTime el_playing);
       E_play;
       E_emit ByAdapter (VIDEO_TRACK_CHANGED (VideoTrack video_720))]
    ∧ el_paused (el s0.2) = true
    ∧ el_paused (el s2.2) = el_paused el_playing.
Proof.
  assert (Hall : Forall is_load_listener (_eventManager adapter0)).
  { constructor. }
  split; [reflexivity|]. split; [reflexivity|]. split; [reflexivity|].
  split; [exact Hall|]. split; [reflexivity|].
  destruct (C2_progressive_switch env_desktop adapter0 world0 video_720
              [src_360; src_720] src_720 2 eq_refl eq_refl eq_refl Hall
              eq_refl)
    as (_ & _ & He0 & Htr & Hfin).
  destruct (Hfin (le_n 2)) as (Hp & _ & _).
  split; [exact Htr|]. split; [|exact Hp].
  exact (f_equal el_paused He0).
Defined.

Lemma C6_counterexample :
  ¬ subscribes_active_track (PKTextTrack text_english) engine_native world0.
Proof.
  intros H. specialize (H 0%nat eq_refl). vm_compute in H. discriminate H.
Qed.

Lemma C7_counterexample :
  ¬ second_activation_hidden text_english engine_native world0.
Proof. intros [H _]. vm_compute in H. discriminate H. Qed.

Lemma C7_shown_once_witness :
  useNativeTextTrack engine0 = false
  ∧ bound engine0 = true
  ∧ Html5.shown engine0 (index text_english) = false
  ∧ index text_english_again = index text_english
  ∧ let before := [CallSelectTextTrack (PKTextTrack text_french);
                   CueChangeOn 1;
                   CallSelectTextTrack (PKTextTrack text_out_of_range)] in
    let calls := [CueChangeOn 0; CallSelectTextTrack (PKTextTrack text_french);
                  CallHideTextTrack; CallLoad None;
                  ElementSignal LOADED_DATA ""] in
    let r0 := engine_run env_desktop before (engine0, world0) in
    let r1 := Html5.selectTextTrack (PKTextTrack text_english) r0.1 r0.2 in
    let r2 := engine_run env_desktop calls r1 in
    let r3 := Html5.selectTextTrack (PKTextTrack text_english_again)
                r2.1 r2.2 in
    existsb (carries (index text_english)) before = false
    ∧ selectable (el_textTracks (el r0.2)) (PKTextTrack text_english) = true
    ∧ selectable (el_textTracks (el r2.2)) (PKTextTrack text_english_again)
      = true
    ∧ ptt_mode <$> el_textTracks (el r1.2) !! 0%nat = Some showing
    ∧ Html5.shown r1.1 0 = true
    ∧ ptt_mode <$> el_textTracks (el r3.2) !! 0%nat = Some hidden.
Proof.
  split; [reflexivity|]. split; [reflexivity|]. split; [reflexivity|].
  split; [reflexivity|]. cbn zeta.
  split; [reflexivity|]. split; [vm_compute; reflexivity|].
  split; [vm_compute; reflexivity|].
  destruct (C7_shown_once env_desktop text_english text_english_again
              engine0 world0
              [CallSelectTextTrack (PKTextTrack text_french);
               CueChangeOn 1;
               CallSelectTextTrack (PKTextTrack text_out_of_range)]
              [CueChangeOn 0; CallSelectTextTrack (PKTextTrack text_french);
               CallHideTextTrack; CallLoad None;
               ElementSignal LOADED_DATA ""]
              eq_refl eq_refl eq_refl eq_refl eq_refl)
    as (H1 & H2 & _ & H4 & _).
  - vm_compute. reflexivity.
  - vm_compute. reflexivity.
  - split; [exact H1|]. split; [exact H2|exact H4].
Defined.

(** The engine's own [selectTextTrack] is not a no-op on an out-of-range
    track: the adapter ignores the call, but the engine's bookkeeping
    around it runs on the track that is still active.  Here the English
    track, hidden by its first cue change, is set to showing again and the
    out-of-range index is put on record. *)
Remark engine_select_out_of_range_reshows :
  let w1 := Html5.cuechange 0 world_showing in
  let r := Html5.selectTextTrack (PKTextTrack text_out_of_range) engine0 w1 in
  NativeAdapter.selectTextTrack (ATrack (PKTextTrack text_out_of_range)) w1
    = w1
  ∧ ptt_mode <$> el_textTracks (el w1) !! 0%nat = Some hidden
  ∧ ptt_mode <$> el_textTracks (el r.2) !! 0%nat = Some showing
  ∧ Html5.shown r.1 7 = true.
Proof. vm_compute. repeat split; reflexivity. Qed.

(** The three fixtures of §8 for the live edge. *)
Example live_edge_fixtures :
  let seekable := [(Num 0%Qc, Num (Qc_of_Z 30)); (Num (Qc_of_Z 40), Num (Qc_of_Z 90))] in
  let buffered := [(Num (Qc_of_Z 10), Num (Qc_of_Z 55))] in
  let sink s b :=
    mkWorld (mkEl "" (Num 0%Qc) true Infinity s b 0 0 None None []) [] None []
  in
  NativeAdapter._getLiveEdge (sink seekable buffered) = Some (Num (Qc_of_Z 90))
  ∧ NativeAdapter._getLiveEdge (sink [] buffered) = Some (Num (Qc_of_Z 55))
  ∧ NativeAdapter._getLiveEdge (sink [] []) = Some Infinity
  ∧ NativeAdapter.duration (sink seekable buffered) = Some (Num (Qc_of_Z 90)).
Proof. vm_compute. repeat split; reflexivity. Qed.

(** After [destroy()] the load handle is gone: a later [load()] starts
    over with a new promise. *)
Remark destroy_drops_load_handle (env : Env) (a : Adapter) (w : World) :
  let s := NativeAdapter.destroy a w in
  _loadPromise s.1 = None
  ∧ ∀ startTime,
      (NativeAdapter.load env startTime s.1 s.2).1.1 = length (promises s.2).
Proof.
  cbn zeta. split.
  - unfold NativeAdapter.destroy. by destruct (drmProtocol w).
  - intros startTime.
    apply (load_first env startTime). unfold NativeAdapter.destroy.
    by destruct (drmProtocol w).
Qed.

(** * Further properties of the adapter and the engine *)

(** ** Selecting what was enumerated *)

Lemma foldl_set_selected_spec b (n k : nat) (w : World)
    (l : list PlatVideoTrack) :
  el_videoTracks (el w) = Some l →
  let w' := foldl (λ w i, set_selected i b w) w (seq k n) in
  (∃ l', el_videoTracks (el w') = Some l'
         ∧ ∀ i, l' !! i = if decide (k ≤ i < k + n)%nat
                          then selected_to b <$> l !! i else l !! i)
  ∧ trace w' = trace w ++ ((λ i, E_set_selected i b) <$> seq k n)
  ∧ el_audioTracks (el w') = el_audioTracks (el w)
  ∧ el_textTracks (el w') = el_textTracks (el w).
Proof.
  revert k w l. induction n as [|n IH]; intros k w l Hl; cbn [seq foldl].
  - split; [|by rewrite app_nil_r]. exists l. split; [done|].
    intros i. by rewrite decide_False by lia.
  - destruct (IH (S k) (set_selected k b w) (alter (selected_to b) k l))
      as ((l' & Hl' & Hlk) & Htr & Ha & Ht).
    { cbn. by rewrite Hl. }
    split; [|split; [|split]].
    + exists l'. split; [done|]. intros i. rewrite Hlk.
      destruct (decide (i = k)) as [->|Hne].
      * rewrite decide_False by lia. rewrite decide_True by lia.
        apply list_lookup_alter_eq.
      * rewrite list_lookup_alter_ne by done.
        destruct (decide (S k ≤ i < S k + n)%nat).
        -- by rewrite decide_True by lia.
        -- by rewrite decide_False by lia.
    + rewrite Htr. cbn. by rewrite <- app_assoc.
    + by rewrite Ha.
    + by rewrite Ht.
Qed.

Lemma disableVideoTracks_spec (w : World) (l : list PlatVideoTrack) :
  el_videoTracks (el w) = Some l →
  let w' := NativeAdapter._disableVideoTracks w in
  el_videoTracks (el w') = Some (selected_to false <$> l)
  ∧ trace w' = trace w ++ unselecting (length l)
  ∧ el_audioTracks (el w') = el_audioTracks (el w)
  ∧ el_textTracks (el w') = el_textTracks (el w).
Proof.
  intros Hl. cbn zeta. unfold NativeAdapter._disableVideoTracks. rewrite Hl.
  destruct (foldl_set_selected_spec false (length l) 0 w l Hl)
    as ((l' & Hl' & Hlk) & Htr & Ha & Ht).
  split; [|done]. rewrite Hl'. f_equal. apply list_eq. intros i.
  rewrite Hlk, list_lookup_fmap. case_decide as Hi; [done|].
  rewrite lookup_ge_None_2 by lia. done.
Qed.

Lemma foldl_set_enabled_spec b (n k : nat) (w : World)
    (l : list PlatAudioTrack) :
  el_audioTracks (el w) = Some l →
  let w' := foldl (λ w i, set_enabled i b w) w (seq k n) in
  (∃ l', el_audioTracks (el w') = Some l'
         ∧ ∀ i, l' !! i = if decide (k ≤ i < k + n)%nat
                          then enabled_to b <$> l !! i else l !! i)
  ∧ trace w' = trace w ++ ((λ i, E_set_enabled i b) <$> seq k n)
  ∧ el_videoTracks (el w') = el_videoTracks (el w)
  ∧ el_textTracks (el w') = el_textTracks (el w).
Proof.
  revert k w l. induction n as [|n IH]; intros k w l Hl; cbn [seq foldl].
  - split; [|by rewrite app_nil_r]. exists l. split; [done|].
    intros i. by rewrite decide_False by lia.
  - destruct (IH (S k) (set_enabled k b w) (alter (enabled_to b) k l))
      as ((l' & Hl' & Hlk) & Htr & Hv & Ht).
    { cbn. by rewrite Hl. }
    split; [|split; [|split]].
    + exists l'. split; [done|]. intros i. rewrite Hlk.
      destruct (decide (i = k)) as [->|Hne].
      * rewrite decide_False by lia. rewrite decide_True by lia.
        apply list_lookup_alter_eq.
      * rewrite list_lookup_alter_ne by done.
        destruct (decide (S k ≤ i < S k + n)%nat).
        -- by rewrite decide_True by lia.
        -- by rewrite decide_False by lia.
    + rewrite Htr. cbn. by rewrite <- app_assoc.
    + by rewrite Hv.
    + by rewrite Ht.
Qed.

Lemma disableAudioTracks_spec (w : World) (l : list PlatAudioTrack) :
  el_audioTracks (el w) = Some l →
  let w' := NativeAdapter._disableAudioTracks w in
  el_audioTracks (el w') = Some (enabled_to false <$> l)
  ∧ trace w' = trace w ++ muting (length l)
  ∧ el_videoTracks (el w') = el_videoTracks (el w)
  ∧ el_textTracks (el w') = el_textTracks (el w).
Proof.
  intros Hl. cbn zeta. unfold NativeAdapter._disableAudioTracks. rewrite Hl.
  destruct (foldl_set_enabled_spec false (length l) 0 w l Hl)
    as ((l' & Hl' & Hlk) & Htr & Hv & Ht).
  split; [|done]. rewrite Hl'. f_equal. apply list_eq. intros i.
  rewrite Hlk, list_lookup_fmap. case_decide as Hi; [done|].
  rewrite lookup_ge_None_2 by lia. done.
Qed.

Lemma only_lookup (j n i : nat) :
  only j n !! i =
  if decide (i < n)%nat then Some (bool_decide (i = j)) else None.
Proof.
  unfold only. rewrite list_lookup_fmap. case_decide as Hi.
  - by rewrite lookup_seq_lt.
  - by rewrite lookup_seq_ge by lia.
Qed.

(** X1. Selecting, in adaptive mode, a video track whose index is in range
    of the element's video tracks: the enumeration afterwards marks the
    track at that index active and no other, and is otherwise what it was;
    the element calls are the clearing of every [selected] flag, the
    setting of the requested one and one [video-track-changed]; audio and
    text tracks are not touched. *)
Theorem X1_adaptive_video_select_then_enumerate (w : World)
    (l : list PlatVideoTrack) (s : Settings) :
  el_videoTracks (el w) = Some l →
  in_bounds l (index s) →
  let j := Z.to_nat (index s) in
  let w' := NativeAdapter.selectAdaptiveVideoTrack (ATrack (VideoTrack s)) w in
  actives (NativeAdapter._getParsedAdaptiveVideoTracks w') = only j (length l)
  ∧ inactive <$> NativeAdapter._getParsedAdaptiveVideoTracks w' =
    inactive <$> NativeAdapter._getParsedAdaptiveVideoTracks w
  ∧ trace w' =
      trace w ++ unselecting (length l)
              ++ [E_set_selected j true;
                  E_emit ByAdapter (VIDEO_TRACK_CHANGED (VideoTrack s))]
  ∧ el_audioTracks (el w') = el_audioTracks (el w)
  ∧ el_textTracks (el w') = el_textTracks (el w).
Proof.
  intros Hl Hb. cbn zeta. unfold NativeAdapter.selectAdaptiveVideoTrack.
  cbn [instanceof_VideoTrack]. rewrite Hl.
  destruct (proj2 (js_get_in_bounds l (index s)) Hb) as [x ->].
  destruct (disableVideoTracks_spec w l Hl) as (Hv & Htr & Ha & Ht).
  cbn zeta in *.
  set (w1 := NativeAdapter._disableVideoTracks w) in *.
  unfold NativeAdapter._getParsedAdaptiveVideoTracks.
  cbn [_onTrackChanged _trigger log set_selected with_el el trace
       put_videoTracks el_videoTracks el_audioTracks el_textTracks].
  rewrite Hv, Hl, Htr. cbn [fmap option_fmap option_map].
  unfold in_bounds in Hb.
  split; [|split; [|split; [by rewrite <- !app_assoc|done]]].
  - apply list_eq. intros i. unfold actives.
    rewrite only_lookup, list_lookup_fmap, list_lookup_imap.
    destruct (decide (i = Z.to_nat (index s))) as [->|Hne].
    + rewrite list_lookup_alter_eq, list_lookup_fmap.
      destruct (lookup_lt_is_Some_2 l (Z.to_nat (index s))) as [y Hy]; [lia|].
      rewrite Hy. cbn. rewrite decide_True by lia.
      by rewrite bool_decide_eq_true_2.
    + rewrite list_lookup_alter_ne, list_lookup_fmap by done.
      destruct (l !! i) as [y|] eqn:Hy; cbn.
      * apply lookup_lt_Some in Hy. rewrite decide_True by done.
        by rewrite bool_decide_eq_false_2.
      * apply lookup_ge_None in Hy. by rewrite decide_False by lia.
  - apply list_eq. intros i.
    rewrite !list_lookup_fmap, !list_lookup_imap.
    destruct (decide (i = Z.to_nat (index s))) as [->|Hne].
    + rewrite list_lookup_alter_eq, list_lookup_fmap.
      by destruct (l !! Z.to_nat (index s)).
    + rewrite list_lookup_alter_ne, list_lookup_fmap by done.
      by destruct (l !! i).
Qed.

(** X2. The same for audio: after selecting an audio track whose index is
    in range, the enumeration marks that track enabled and no other. *)
Theorem X2_audio_select_then_enumerate (w : World)
    (l : list PlatAudioTrack) (s : Settings) :
  el_audioTracks (el w) = Some l →
  in_bounds l (index s) →
  let j := Z.to_nat (index s) in
  let w' := NativeAdapter.selectAudioTrack (ATrack (AudioTrack s)) w in
  actives (NativeAdapter._getParsedAudioTracks w') = only j (length l)
  ∧ inactive <$> NativeAdapter._getParsedAudioTracks w' =
    inactive <$> NativeAdapter._getParsedAudioTracks w
  ∧ trace w' =
      trace w ++ muting (length l)
              ++ [E_set_enabled j true;
                  E_emit ByAdapter (AUDIO_TRACK_CHANGED (AudioTrack s))]
  ∧ el_videoTracks (el w') = el_videoTracks (el w)
  ∧ el_textTracks (el w') = el_textTracks (el w).
Proof.
  intros Hl Hb. cbn zeta. unfold NativeAdapter.selectAudioTrack.
  cbn [instanceof_AudioTrack]. rewrite Hl.
  destruct (proj2 (js_get_in_bounds l (index s)) Hb) as [x ->].
  destruct (disableAudioTracks_spec w l Hl) as (Ha & Htr & Hv & Ht).
  cbn zeta in *.
  set (w1 := NativeAdapter._disableAudioTracks w) in *.
  unfold NativeAdapter._getParsedAudioTracks.
  cbn [_onTrackChanged _trigger log set_enabled with_el el trace
       put_audioTracks el_videoTracks el_audioTracks el_textTracks].
  rewrite Ha, Hl, Htr. cbn [fmap option_fmap option_map].
  unfold in_bounds in Hb.
  split; [|split; [|split; [by rewrite <- !app_assoc|done]]].
  - apply list_eq. intros i. unfold actives.
    rewrite only_lookup, list_lookup_fmap, list_lookup_imap.
    destruct (decide (i = Z.to_nat (index s))) as [->|Hne].
    + rewrite list_lookup_alter_eq, list_lookup_fmap.
      destruct (lookup_lt_is_Some_2 l (Z.to_nat (index s))) as [y Hy]; [lia|].
      rewrite Hy. cbn. rewrite decide_True by lia.
      by rewrite bool_decide_eq_true_2.
    + rewrite list_lookup_alter_ne, list_lookup_fmap by done.
      destruct (l !! i) as [y|] eqn:Hy; cbn.
      * apply lookup_lt_Some in Hy. rewrite decide_True by done.
        by rewrite bool_decide_eq_false_2.
      * apply lookup_ge_None in Hy. by rewrite decide_False by lia.
  - apply list_eq. intros i.
    rewrite !list_lookup_fmap, !list_lookup_imap.
    destruct (decide (i = Z.to_nat (index s))) as [->|Hne].
    + rewrite list_lookup_alter_eq, list_lookup_fmap.
      by destruct (l !! Z.to_nat (index s)).
    + rewrite list_lookup_alter_ne, list_lookup_fmap by done.
      by destruct (l !! i).
Qed.

(** X3. After the adapter has selected a selectable text track, that track
    is hidden and every other text track is disabled, so it is the one
    selected track; no [oncuechange] handler is touched; and the
    enumeration reports no text track as active, since it takes [active]
    from mode ["showing"] alone. *)
Theorem X3_text_select_then_enumerate (w : World) (s : Settings) :
  selectable (el_textTracks (el w)) (PKTextTrack s) = true →
  let j := Z.to_nat (index s) in
  let n := length (el_textTracks (el w)) in
  let w' := NativeAdapter.selectTextTrack (ATrack (PKTextTrack s)) w in
  ptt_mode <$> el_textTracks (el w') =
    (λ i, if bool_decide (i = j) then hidden else disabled) <$> seq 0 n
  ∧ first_active (el_textTracks (el w')) = Some j
  ∧ ptt_oncuechange <$> el_textTracks (el w') =
    ptt_oncuechange <$> el_textTracks (el w)
  ∧ actives (NativeAdapter._getParsedTextTracks w') = replicate n false.
Proof.
  intros Hs. cbn zeta.
  destruct (adapter_selectTextTrack_spec (PKTextTrack s) w) as [Hl _].
  cbn zeta in Hl.
  pose proof (first_active_switched (el_textTracks (el w)) (PKTextTrack s))
    as Hfa.
  rewrite <- Hl, Hs in Hfa. cbn [settings] in Hfa.
  unfold switched in Hl. rewrite Hs in Hl. cbn [settings] in Hl.
  assert (Hj : (Z.to_nat (index s) < length (el_textTracks (el w)))%nat).
  { cbn in Hs. apply andb_true_iff in Hs as [_ Hb].
    apply bool_decide_eq_true in Hb. unfold in_bounds in Hb. lia. }
  assert (Hmodes : ∀ i,
    ptt_mode <$> el_textTracks (el
      (NativeAdapter.selectTextTrack (ATrack (PKTextTrack s)) w)) !! i =
    if decide (i < length (el_textTracks (el w)))%nat
    then Some (if bool_decide (i = Z.to_nat (index s))
               then hidden else disabled)
    else None).
  { intros i. rewrite Hl.
    destruct (decide (i = Z.to_nat (index s))) as [->|Hne].
    - rewrite list_lookup_alter_eq, list_lookup_fmap.
      destruct (lookup_lt_is_Some_2 _ _ Hj) as [y ->]. cbn.
      rewrite decide_True by done. by rewrite bool_decide_eq_true_2.
    - rewrite list_lookup_alter_ne, list_lookup_fmap by done.
      destruct (el_textTracks (el w) !! i) as [y|] eqn:Hy; cbn.
      + apply lookup_lt_Some in Hy. rewrite decide_True by done.
        by rewrite bool_decide_eq_false_2.
      + apply lookup_ge_None in Hy. by rewrite decide_False by lia. }
  split; [|split; [exact Hfa|split]].
  - apply list_eq. intros i.
    rewrite !list_lookup_fmap, Hmodes. case_decide as Hi.
    + by rewrite lookup_seq_lt.
    + by rewrite lookup_seq_ge by lia.
  - rewrite Hl. apply list_eq. intros i. rewrite !list_lookup_fmap.
    destruct (decide (i = Z.to_nat (index s))) as [->|Hne].
    + rewrite list_lookup_alter_eq, list_lookup_fmap.
      by destruct (el_textTracks (el w) !! _).
    + rewrite list_lookup_alter_ne, list_lookup_fmap by done.
      by destruct (el_textTracks (el w) !! i).
  - apply list_eq. intros i. unfold actives, NativeAdapter._getParsedTextTracks.
    rewrite list_lookup_fmap, list_lookup_imap.
    specialize (Hmodes i).
    destruct (el_textTracks (el
      (NativeAdapter.selectTextTrack (ATrack (PKTextTrack s)) w)) !! i)
      as [y|]; cbn in *.
    + case_decide as Hi; [|done]. injection Hmodes as Hm.
      rewrite lookup_replicate_2 by done. cbn. f_equal.
      apply bool_decide_eq_false_2. rewrite Hm. by case_bool_decide.
    + case_decide as Hi; [done|].
      symmetry. apply lookup_replicate_None. lia.
Qed.

(** X4. A progressive switch to an in-range variant rebinds the source at
    once: already before any signal, the enumeration of the progressive
    variants marks as active exactly the variants whose id is the id of
    the requested one (the requested one alone when ids are distinct), the
    [src] getter answers with the new URL, and the only call made on the
    element is the [src] assignment: no track change is announced yet. *)
Theorem X4_progressive_switch_rebinds_at_once (a : Adapter) (w : World)
    (s : Settings) (srcs : list Source) (chosen : Source) :
  _progressiveSources a = Some srcs →
  js_get srcs (index s) = Some chosen →
  let j := Z.to_nat (index s) in
  let r := NativeAdapter._selectProgressiveVideoTrack
             (ATrack (VideoTrack s)) a w in
  actives (NativeAdapter._getParsedProgressiveVideoTracks r.1) =
    (λ v, bool_decide (src_id v = src_id chosen)) <$> srcs
  ∧ (NoDup (src_id <$> srcs) →
     actives (NativeAdapter._getParsedProgressiveVideoTracks r.1) =
       only j (length srcs))
  ∧ inactive <$> NativeAdapter._getParsedProgressiveVideoTracks r.1 =
    inactive <$> NativeAdapter._getParsedProgressiveVideoTracks a
  ∧ NativeAdapter.src r.2 = src_url chosen
  ∧ trace r.2 = trace w ++ [E_set_src (src_url chosen)].
Proof.
  intros Hsrcs Hget. cbn zeta.
  unfold NativeAdapter._selectProgressiveVideoTrack.
  cbn [instanceof_VideoTrack]. rewrite Hsrcs, Hget. cbn [fst snd].
  unfold NativeAdapter._getParsedProgressiveVideoTracks.
  cbn [listenOnce with_sourceObj _progressiveSources _sourceObj].
  rewrite Hsrcs.
  assert (Hact : actives (imap (λ (i : nat) (v : Source), VideoTrack
             (mkSettings (Some (src_id v)) (Z.of_nat i)
                (bool_decide (src_id v = src_id chosen)) None None None
                (Some (src_bandwidth v)) (Some (src_width v))
                (Some (src_height v)))) srcs) =
          (λ v, bool_decide (src_id v = src_id chosen)) <$> srcs).
  { apply list_eq. intros i. unfold actives.
    rewrite !list_lookup_fmap, list_lookup_imap. by destruct (srcs !! i). }
  split; [exact Hact|]. split; [|split; [|done]].
  - intros Hnd. rewrite Hact. apply list_eq. intros i.
    rewrite only_lookup, list_lookup_fmap.
    unfold js_get in Hget. case_decide as H0; [|done].
    destruct (srcs !! i) as [v|] eqn:Hv; cbn.
    + rewrite decide_True by (by apply lookup_lt_Some in Hv). f_equal.
      apply bool_decide_ext. split.
      * intros Hid.
        apply (NoDup_lookup (src_id <$> srcs) i (Z.to_nat (index s))
                 (src_id v)); [done|..].
        -- by rewrite list_lookup_fmap, Hv.
        -- by rewrite list_lookup_fmap, Hget, Hid.
      * intros ->. congruence.
    + apply lookup_ge_None in Hv. by rewrite decide_False by lia.
  - apply list_eq. intros i.
    rewrite !list_lookup_fmap, !list_lookup_imap. by destruct (srcs !! i).
Qed.

Lemma enumerated_index {A} (F : nat → A → Track) (l : list A) (t : Track) :
  (∀ i x, index (settings (F i x)) = Z.of_nat i) →
  t ∈ imap F l →
  ∃ i x, l !! i = Some x ∧ t = F i x ∧ in_bounds l (index (settings t)).
Proof.
  intros HF Hin. apply elem_of_lookup_imap in Hin as (i & x & -> & Hx).
  exists i, x. split; [done|]. split; [done|].
  unfold in_bounds. rewrite HF. apply lookup_lt_Some in Hx. lia.
Qed.

(** X5. Every track the enumeration returns can be handed back for
    selection in the same state: a video or an audio track is never
    rejected, and a text track carries an index in range and the kind of
    the element's text track at that index, so it is rejected only for a
    kind other than subtitles or captions. *)
Theorem X5_enumerated_tracks_are_selectable (a : Adapter) (w : World)
    (t : Track) :
  t ∈ NativeAdapter._getParsedTracks a w →
  match t with
  | VideoTrack _ => ¬ invalid (SelectVideo (ATrack t)) a w
  | AudioTrack _ => ¬ invalid (SelectAudio (ATrack t)) a w
  | PKTextTrack s =>
      in_bounds (el_textTracks (el w)) (index s)
      ∧ kind s = ptt_kind <$> el_textTracks (el w) !! Z.to_nat (index s)
      ∧ (invalid (SelectText (ATrack t)) a w ↔ ¬ kind_selectable s)
  end.
Proof.
  unfold NativeAdapter._getParsedTracks. rewrite !elem_of_app.
  intros [Hv|[Ha|Ht]].
  - unfold NativeAdapter._getParsedVideoTracks in Hv. cbn [invalid].
    destruct (NativeAdapter._isProgressivePlayback a).
    + unfold NativeAdapter._getParsedProgressiveVideoTracks in Hv.
      destruct (_progressiveSources a) as [l|];
        [|by apply elem_of_nil in Hv].
      apply enumerated_index in Hv as (i & x & _ & -> & Hb); [|done].
      unfold invalid_for. cbn in *. tauto.
    + unfold NativeAdapter._getParsedAdaptiveVideoTracks in Hv.
      destruct (el_videoTracks (el w)) as [l|];
        [|by apply elem_of_nil in Hv].
      apply enumerated_index in Hv as (i & x & _ & -> & Hb); [|done].
      unfold invalid_for. cbn in *. tauto.
  - unfold NativeAdapter._getParsedAudioTracks in Ha.
    destruct (el_audioTracks (el w)) as [l|] eqn:Hl;
      [|by apply elem_of_nil in Ha].
    apply enumerated_index in Ha as (i & x & _ & -> & Hb); [|done].
    cbn [invalid]. rewrite Hl. unfold invalid_for. cbn in *. tauto.
  - unfold NativeAdapter._getParsedTextTracks in Ht.
    apply enumerated_index in Ht as (i & x & Hx & -> & Hb); [|done].
    cbn [settings index] in Hb. split; [exact Hb|]. cbn [kind index].
    rewrite Nat2Z.id, Hx. split; [done|].
    cbn [invalid invalid_text instanceof_PKTextTrack]. tauto.
Qed.

(** ** Loading *)

Lemma el_settle p st w : el (settle p st w) = el w.
Proof. unfold settle. by destruct (promises w !! p) as [[| |]|]. Qed.

Lemma first_load_trace env startTime a w :
  _loadPromise a = None →
  let r := NativeAdapter.load env startTime a w in
  trace r.2 = trace w ++ binding r.1.2 ++ loading startTime
  ∧ NativeAdapter.src r.2 =
      match _sourceObj r.1.2 with
      | Some s => if bool_decide (src_url s ≠ "") then src_url s
                  else el_src (el w)
      | None => el_src (el w)
      end.
Proof.
  intros Hp. cbn zeta. unfold NativeAdapter.load, loading. rewrite Hp.
  unfold new_promise. cbn beta iota zeta.
  set (a0 := listenOnce ERROR _ (listenOnce LOADED_DATA _ a)).
  set (w1 := mkWorld _ _ _ _).
  set (a1 := if NativeAdapter._isProgressivePlayback a0 then _ else a0).
  set (w2 := match _sourceObj a1 with Some _ => _ | None => _ end).
  assert (H2 : trace w2 =
                 trace w ++ binding
                              (with_loadPromise (Some (length (promises w))) a1)
               ∧ el_src (el w2) =
                   match _sourceObj a1 with
                   | Some s => if bool_decide (src_url s ≠ "") then src_url s
                               else el_src (el w)
                   | None => el_src (el w)
                   end).
  { unfold binding.
    change (_sourceObj (with_loadPromise _ a1)) with (_sourceObj a1).
    change (NativeAdapter.isAdaptiveBitrateEnabled (with_loadPromise _ a1))
      with (negb (NativeAdapter._isProgressivePlayback a1)).
    subst w2. destruct (_sourceObj a1) as [s|]; [case_bool_decide|];
      cbn; rewrite ?app_nil_r, <- ?app_assoc;
      try destruct (NativeAdapter._isProgressivePlayback a1); done. }
  destruct H2 as [Ht2 He2].
  pose proof (load_seek startTime w2) as Hs.
  destruct (match startTime with Some _ => _ | None => _ end) as [w3|].
  - destruct Hs as (-> & _ & _ & Ht3 & He3). cbn [fst snd].
    change (_sourceObj (with_loadPromise _ a1)) with (_sourceObj a1).
    split.
    + cbn. by rewrite Ht3, Ht2, <- !app_assoc.
    + unfold NativeAdapter.src. cbn. by rewrite He3, He2.
  - rewrite Hs. cbn [fst snd].
    change (_sourceObj (with_loadPromise _ a1)) with (_sourceObj a1).
    split.
    + by rewrite trace_settle, Ht2, app_nil_r.
    + unfold NativeAdapter.src. by rewrite el_settle, He2.
Qed.

(** X6. The first [load(startTime)] calls the element in this order: if
    the bound source has a URL, the [src] assignment and one
    [abr-mode-changed] whose mode is [auto] exactly when
    [isAdaptiveBitrateEnabled()] holds afterwards; then a seek to the
    start time, unless that is missing, zero or [NaN]; then [load()].
    When the start time is one of the infinities the seek throws: the
    call ends after the binding, with the returned handle rejected, and
    [load()] is not called; otherwise the handle is pending.  The [src]
    getter afterwards answers with the URL assigned.  Outside progressive
    playback the bound source stays as it was; and the two one-shot
    listeners for the returned handle are appended to the event
    manager. *)
Theorem X6_first_load_calls (env : Env) (startTime : option number)
    (a : Adapter) (w : World) :
  _loadPromise a = None →
  let r := NativeAdapter.load env startTime a w in
  let a' := r.1.2 in
  let w' := r.2 in
  trace w' =
    trace w ++ binding a'
            ++ (if throwing startTime then []
                else preseek startTime ++ [E_load ByAdapter])
  ∧ promises w' !! r.1.1 =
      Some (if throwing startTime then Rejected "TypeError" else Pending)
  ∧ NativeAdapter.src w' =
      match _sourceObj a' with
      | Some s => if bool_decide (src_url s ≠ "") then src_url s
                  else el_src (el w)
      | None => el_src (el w)
      end
  ∧ (NativeAdapter._isProgressivePlayback a = false →
     _sourceObj a' = _sourceObj a)
  ∧ _progressiveSources a' = _progressiveSources a
  ∧ _eventManager a' =
      _eventManager a ++ [(LOADED_DATA, load_resolve r.1.1);
                          (ERROR, load_reject r.1.1)].
Proof.
  intros Hp. cbn zeta.
  destruct (first_load_trace env startTime a w Hp) as [Htr Hsrc].
  destruct (load_first env startTime a w Hp) as (_ & _ & _ & Hst).
  cbn zeta in *.
  split; [exact Htr|]. split; [exact Hst|]. split; [exact Hsrc|].
  clear Htr Hsrc Hst.
  unfold NativeAdapter.load. rewrite Hp.
  unfold new_promise. cbn beta iota zeta.
  set (a0 := listenOnce ERROR _ (listenOnce LOADED_DATA _ a)).
  set (a1 := if NativeAdapter._isProgressivePlayback a0 then _ else a0).
  assert (Hprog : NativeAdapter._isProgressivePlayback a0 =
                  NativeAdapter._isProgressivePlayback a) by done.
  assert (Ha1 : _progressiveSources a1 = _progressiveSources a
                ∧ _eventManager a1 = _eventManager a0
                ∧ (NativeAdapter._isProgressivePlayback a = false →
                   _sourceObj a1 = _sourceObj a)).
  { subst a1. rewrite Hprog.
    destruct (NativeAdapter._isProgressivePlayback a); [|done].
    unfold NativeAdapter._setProgressiveSource.
    by destruct (getSuitableSourceForResolution _ _ _ _). }
  destruct Ha1 as (Hps & Hem & Hso).
  destruct (match startTime with Some _ => _ | None => _ end);
    cbn [fst snd]; (split; [exact Hso|]); (split; [exact Hps|]);
    cbn; rewrite Hem; subst a0; cbn; by rewrite <- app_assoc.
Qed.

Lemma load_appends_listeners env startTime a w :
  _loadPromise a = None →
  let r := NativeAdapter.load env startTime a w in
  _eventManager r.1.2 =
    _eventManager a ++ [(LOADED_DATA, load_resolve r.1.1);
                        (ERROR, load_reject r.1.1)].
Proof.
  intros Hp. cbn zeta. unfold NativeAdapter.load. rewrite Hp.
  unfold new_promise. cbn beta iota zeta.
  set (a0 := listenOnce ERROR _ (listenOnce LOADED_DATA _ a)).
  assert (Hem : _eventManager
            (if NativeAdapter._isProgressivePlayback a0
             then NativeAdapter._setProgressiveSource env a0
                    (mkWorld (el w) (promises w ++ [Pending])
                       (drmProtocol w) (trace w))
             else a0) = _eventManager a0).
  { destruct (NativeAdapter._isProgressivePlayback a0); [|done].
    unfold NativeAdapter._setProgressiveSource.
    by destruct (getSuitableSourceForResolution _ _ _ _). }
  destruct (match startTime with Some _ => _ | None => _ end);
    cbn [fst snd with_loadPromise _eventManager]; rewrite Hem;
    subst a0; cbn; by rewrite <- app_assoc.
Qed.

Lemma signal_loaded_two env detail a p w :
  _eventManager a = [(LOADED_DATA, load_resolve p); (ERROR, load_reject p)] →
  NativeAdapter.signal env LOADED_DATA detail a w =
  (with_listeners [(ERROR, load_reject p)] a,
   settle p (Resolved (TracksObject (NativeAdapter._getParsedTracks a w))) w).
Proof.
  intros H. rewrite signal_unfold, H. cbn [filter list_filter fst].
  repeat case_decide; try congruence. reflexivity.
Qed.

Lemma signal_error_two env detail a p w :
  _eventManager a = [(LOADED_DATA, load_resolve p); (ERROR, load_reject p)] →
  NativeAdapter.signal env ERROR detail a w =
  (with_listeners [(LOADED_DATA, load_resolve p)] a,
   settle p (Rejected detail) w).
Proof.
  intros H. rewrite signal_unfold, H. cbn [filter list_filter fst].
  repeat case_decide; try congruence. reflexivity.
Qed.

Lemma signal_loaded_one env detail a p w :
  _eventManager a = [(LOADED_DATA, load_resolve p)] →
  NativeAdapter.signal env LOADED_DATA detail a w =
  (with_listeners [] a,
   settle p (Resolved (TracksObject (NativeAdapter._getParsedTracks a w))) w).
Proof.
  intros H. rewrite signal_unfold, H. cbn [filter list_filter fst].
  repeat case_decide; try congruence. reflexivity.
Qed.

Lemma signal_error_one env detail a p w :
  _eventManager a = [(ERROR, load_reject p)] →
  NativeAdapter.signal env ERROR detail a w =
  (with_listeners [] a, settle p (Rejected detail) w).
Proof.
  intros H. rewrite signal_unfold, H. cbn [filter list_filter fst].
  repeat case_decide; try congruence. reflexivity.
Qed.

(** X7. On an adapter with nothing pending, after the first [load()] the
    handle is settled once and stays so.  When the start time is not one
    of the infinities it is pending, and whichever of the two signals
    comes first settles it: data-loaded resolves it with the tracks
    enumerated at that moment and a later error leaves it resolved; an
    error rejects it with that error and a later data-loaded leaves it
    rejected.  When the start time is one of the infinities it is already
    rejected when [load()] returns, and neither signal changes it.  A
    [load()] after the rejection returns the same rejected handle without
    touching the element again. *)
Theorem X7_load_settles_once (env : Env) (startTime startTime' : option number)
    (a : Adapter) (w : World) (error : string) :
  _loadPromise a = None →
  _eventManager a = [] →
  let r := NativeAdapter.load env startTime a w in
  let p := r.1.1 in
  let loaded := NativeAdapter.signal env LOADED_DATA "" r.1.2 r.2 in
  let failed := NativeAdapter.signal env ERROR error r.1.2 r.2 in
  let loaded_failed := NativeAdapter.signal env ERROR error loaded.1 loaded.2 in
  let failed_loaded := NativeAdapter.signal env LOADED_DATA "" failed.1 failed.2 in
  promises r.2 !! p =
    Some (if throwing startTime then Rejected "TypeError" else Pending)
  ∧ promises loaded.2 !! p =
      Some (if throwing startTime then Rejected "TypeError"
            else Resolved (TracksObject
                             (NativeAdapter._getParsedTracks r.1.2 r.2)))
  ∧ promises loaded_failed.2 = promises loaded.2
  ∧ promises failed.2 !! p =
      Some (Rejected (if throwing startTime then "TypeError" else error))
  ∧ promises failed_loaded.2 = promises failed.2
  ∧ NativeAdapter.load env startTime' failed_loaded.1 failed_loaded.2 =
      (p, failed_loaded.1, failed_loaded.2)
  ∧ trace failed_loaded.2 = trace r.2.
Proof.
  intros Hp Hem. cbn zeta.
  pose proof (load_appends_listeners env startTime a w Hp) as Hl.
  cbn zeta in Hl. rewrite Hem in Hl. cbn [app] in Hl.
  destruct (load_first env startTime a w Hp) as (_ & Hlp & _ & Hpend).
  cbn zeta in *. unfold first_state in Hpend.
  destruct (NativeAdapter.load env startTime a w) as [[p a1] w1].
  cbn [fst snd] in *.
  split; [exact Hpend|].
  rewrite (signal_loaded_two env "" a1 p w1 Hl).
  rewrite (signal_error_two env error a1 p w1 Hl). cbn [fst snd].
  rewrite (signal_error_one env error _ p) by done.
  rewrite (signal_loaded_one env "" _ p) by done. cbn [fst snd].
  destruct (throwing startTime).
  - assert (Hset : ∀ st, settle p st w1 = w1).
    { intros st. apply settle_settled. rewrite Hpend. discriminate. }
    rewrite !Hset. repeat split; try done.
    by apply load_again.
  - assert (Hres : promises (settle p (Resolved (TracksObject
                     (NativeAdapter._getParsedTracks a1 w1))) w1) !! p
                   = Some (Resolved (TracksObject
                        (NativeAdapter._getParsedTracks a1 w1)))).
    { by apply settle_pending. }
    assert (Hrej : promises (settle p (Rejected error) w1) !! p
                   = Some (Rejected error)).
    { by apply settle_pending. }
    split; [exact Hres|]. split.
    { rewrite settle_settled; [done|]. rewrite Hres. discriminate. }
    split; [exact Hrej|]. split.
    { rewrite settle_settled; [done|]. rewrite Hrej. discriminate. }
    split.
    { apply load_again. exact Hlp. }
    rewrite settle_settled by (rewrite Hrej; discriminate).
    apply trace_settle.
Qed.

(** ** Text tracks at the engine *)

Lemma first_active_all_disabled (tracks : list PlatTextTrack) :
  first_active (mode_to disabled <$> tracks) = None.
Proof.
  apply first_active_None. intros i y Hy. rewrite list_lookup_fmap in Hy.
  destruct (tracks !! i); [|done]. by injection Hy as <-.
Qed.

(** X8. With an adapter bound, the engine's [hideTextTrack] disables every
    text track and leaves every [oncuechange] handler where it was: the
    adapter disables the tracks first, so the listener removal that follows
    finds no selected track.  With no adapter bound it changes no mode and
    only clears the handler of the selected track. *)
Theorem X8_hide_text_track_keeps_handlers (f : Html5) (w : World) :
  let tracks := el_textTracks (el w) in
  let w' := Html5.hideTextTrack f w in
  if bound f
  then el_textTracks (el w') = mode_to disabled <$> tracks
       ∧ ptt_oncuechange <$> el_textTracks (el w') = ptt_oncuechange <$> tracks
       ∧ first_active (el_textTracks (el w')) = None
       ∧ trace w' = trace w ++ disabling (length tracks)
  else el_textTracks (el w') = unsubscribed tracks
       ∧ ptt_mode <$> el_textTracks (el w') = ptt_mode <$> tracks
       ∧ trace w' = trace w ++ removal tracks.
Proof.
  cbn zeta. unfold Html5.hideTextTrack, bound.
  destruct (_mediaSourceAdapter f).
  - unfold NativeAdapter.hideTextTrack.
    assert (Hnone : Html5._removeCueChangeListener
                      (NativeAdapter._disableTextTracks w) =
                    NativeAdapter._disableTextTracks w).
    { unfold Html5._removeCueChangeListener,
        Html5._getSelectedTextTrackElement.
      fold (first_active (el_textTracks
              (el (NativeAdapter._disableTextTracks w)))).
      by rewrite disableTextTracks_tracks, first_active_all_disabled. }
    rewrite Hnone, disableTextTracks_tracks, disableTextTracks_trace.
    split; [done|]. split; [|split; [apply first_active_all_disabled|done]].
    rewrite <- list_fmap_compose. done.
  - destruct (removeCueChangeListener_spec w) as [Hl Ht]. cbn zeta in *.
    split; [exact Hl|]. split; [|exact Ht].
    rewrite Hl. unfold unsubscribed.
    destruct (first_active _); [|done]. apply modes_alter_oncuechange.
Qed.

(** X9. Outside native rendering, the engine's [selectTextTrack] on a track
    the adapter does not switch to (not selectable, or no adapter bound),
    while text track [j] is selected: nothing is announced, but the mode of
    track [j] is set from the record of the index of the track passed in,
    that index is put on record, and track [j] gets its handler back. *)
Theorem X9_rejected_text_selection_touches_selected_track (t : Track)
    (f : Html5) (w : World) (j : nat) :
  useNativeTextTrack f = false →
  bound f && selectable (el_textTracks (el w)) t = false →
  first_active (el_textTracks (el w)) = Some j →
  let k := index (settings t) in
  let m := if Html5.shown f k then hidden else showing in
  let r := Html5.selectTextTrack t f w in
  trace r.2 =
    trace w ++ [E_set_oncuechange j None;
                E_set_mode ByEngine j m;
                E_set_oncuechange j (Some call_onCueChange)]
  ∧ ptt_mode <$> el_textTracks (el r.2) !! j = Some m
  ∧ ptt_oncuechange <$> el_textTracks (el r.2) !! j =
      Some (Some call_onCueChange)
  ∧ Html5.shown r.1 k = true.
Proof.
  intros Hn Hrej Hj. cbn zeta.
  destruct (engine_selectTextTrack_spec t f w) as (Htr & Hfa & Hfin).
  cbn zeta in *. rewrite Hrej, Hj in Hfa.
  assert (Hsw : (if bound f
                 then switching (unsubscribed (el_textTracks (el w))) t
                 else []) = []).
  { destruct (bound f); [|done]. cbn [andb] in Hrej.
    unfold switching.
    by rewrite (selectable_length _ (el_textTracks (el w)))
      by apply unsubscribed_length; rewrite Hrej. }
  rewrite Hsw in Htr. unfold installation in Htr.
  rewrite Hfa, Hn in Htr, Hfin. unfold removal in Htr. rewrite Hj in Htr.
  destruct Hfin as [Hf Hl]. rewrite Hl, Hf.
  split; [exact Htr|].
  apply first_active_Some in Hfa as [(x & Hx & _) _].
  rewrite !list_lookup_alter_eq, Hx.
  split; [done|]. split; [done|].
  rewrite shown_insert. by rewrite decide_True.
Qed.

Lemma actives_text (w : World) :
  actives (NativeAdapter._getParsedTextTracks w) =
  (λ md, bool_decide (md = showing)) <$> (ptt_mode <$> el_textTracks (el w)).
Proof.
  apply list_eq. intros i. unfold actives, NativeAdapter._getParsedTextTracks.
  rewrite !list_lookup_fmap, list_lookup_imap.
  by destruct (el_textTracks (el w) !! i).
Qed.

Lemma first_active_of_modes (tracks : list PlatTextTrack) (j n : nat)
    (g : nat → Mode) :
  ptt_mode <$> tracks = g <$> seq 0 n →
  (j < n)%nat →
  g j ≠ disabled →
  (∀ i, (i < j)%nat → g i = disabled) →
  first_active tracks = Some j.
Proof.
  intros Hm Hj Hg Hlt.
  assert (Hlk : ∀ i, (i < n)%nat → ptt_mode <$> tracks !! i = Some (g i)).
  { intros i Hi. rewrite <- list_lookup_fmap, Hm, list_lookup_fmap.
    by rewrite lookup_seq_lt. }
  apply first_active_Some. split.
  - specialize (Hlk j Hj). destruct (tracks !! j) as [x|]; [|done].
    exists x. split; [done|]. injection Hlk as ->. done.
  - intros i y Hy Hi. specialize (Hlk i ltac:(lia)). rewrite Hy in Hlk.
    injection Hlk as ->. by apply Hlt.
Qed.

Lemma replicate_false_seq (n : nat) (g : nat → bool) :
  (∀ i, (i < n)%nat → g i = false) →
  g <$> seq 0 n = replicate n false.
Proof.
  intros Hg. apply list_eq. intros i. rewrite list_lookup_fmap.
  destruct (decide (i < n)%nat) as [Hi|Hi].
  - rewrite lookup_seq_lt, lookup_replicate_2 by done. cbn. by rewrite Hg.
  - rewrite lookup_seq_ge by lia. symmetry. apply lookup_replicate_None. lia.
Qed.

Lemma fmap_pointwise {A B} (g h : A → B) (l : list A) :
  (∀ x, g x = h x) → g <$> l = h <$> l.
Proof. intros H. induction l as [|x l IH]; cbn; [done|]. by rewrite H, IH. Qed.

(** X10. The [active] flag of an enumerated text track says whether the
    track is showing, not whether it is selected.  Outside native
    rendering, after the engine has activated a selectable track with index
    K, the enumeration marks that track active only if K was not on record
    before; and after the next cue change on it the enumeration marks no
    text track active, while the track is still the selected one. *)
Theorem X10_text_active_flag_means_showing (s : Settings) (f : Html5)
    (w : World) :
  useNativeTextTrack f = false →
  bound f = true →
  selectable (el_textTracks (el w)) (PKTextTrack s) = true →
  let j := Z.to_nat (index s) in
  let n := length (el_textTracks (el w)) in
  let r := Html5.selectTextTrack (PKTextTrack s) f w in
  let w2 := Html5.cuechange j r.2 in
  actives (NativeAdapter._getParsedTextTracks r.2) =
    (if Html5.shown f (index s) then replicate n false else only j n)
  ∧ first_active (el_textTracks (el r.2)) = Some j
  ∧ actives (NativeAdapter._getParsedTextTracks w2) = replicate n false
  ∧ first_active (el_textTracks (el w2)) = Some j.
Proof.
  intros Hn Hb Hs. cbn zeta.
  destruct (activation_modes s f w Hn Hb Hs) as (Hj & Hm & Hh).
  cbn zeta in *.
  set (r := Html5.selectTextTrack (PKTextTrack s) f w) in *.
  set (j := Z.to_nat (index s)) in *.
  set (n := length (el_textTracks (el w))) in *.
  destruct (el_textTracks (el r.2) !! j) as [x|] eqn:Hx; [|done].
  injection Hh as Hh.
  assert (Hw2 : el_textTracks (el (Html5.cuechange j r.2)) =
                alter (mode_to hidden) j (el_textTracks (el r.2))).
  { rewrite (cuechange_installed j r.2 x Hx Hh).
    apply onCueChange_textTracks. }
  assert (Hm2 : ptt_mode <$> el_textTracks (el (Html5.cuechange j r.2)) =
                (λ i, if bool_decide (i = j) then hidden else disabled)
                  <$> seq 0 n).
  { rewrite Hw2. apply list_eq. intros i.
    rewrite !list_lookup_fmap.
    destruct (decide (i = j)) as [->|Hne].
    - rewrite list_lookup_alter_eq, Hx, lookup_seq_lt by done. cbn.
      by rewrite bool_decide_eq_true_2.
    - rewrite list_lookup_alter_ne by done.
      rewrite <- list_lookup_fmap, Hm, list_lookup_fmap.
      destruct (seq 0 n !! i) as [i'|] eqn:Hi; [|done].
      apply lookup_seq in Hi as [-> _]. cbn.
      by rewrite !bool_decide_eq_false_2. }
  split; [|split; [|split]].
  - rewrite actives_text, Hm, <- list_fmap_compose.
    destruct (Html5.shown f (index s)).
    + apply replicate_false_seq. intros i _. unfold compose.
      by destruct (bool_decide (i = j)).
    + unfold only. apply fmap_pointwise. intros i. unfold compose.
      by destruct (bool_decide (i = j)).
  - apply (first_active_of_modes _ j n _ Hm Hj).
    + rewrite bool_decide_eq_true_2 by done.
      by destruct (Html5.shown f (index s)).
    + intros i Hi. by rewrite bool_decide_eq_false_2 by lia.
  - rewrite actives_text, Hm2, <- list_fmap_compose.
    apply replicate_false_seq. intros i _. unfold compose.
    by destruct (bool_decide (i = j)).
  - apply (first_active_of_modes _ j n _ Hm2 Hj).
    + by rewrite bool_decide_eq_true_2.
    + intros i Hi. by rewrite bool_decide_eq_false_2 by lia.
Qed.

(** ** Live edge, DRM, teardown *)

Lemma getLiveEdge_value (w : World) :
  NativeAdapter._getLiveEdge w = Some (live_edge w).
Proof.
  unfold NativeAdapter._getLiveEdge, live_edge.
  destruct (el_seekable (el w)) as [|x xs] eqn:Hs.
  - rewrite bool_decide_eq_false_2 by (cbn; lia).
    destruct (el_buffered (el w)) as [|b bs] eqn:Hb.
    + rewrite bool_decide_eq_false_2 by (cbn; lia). reflexivity.
    + rewrite bool_decide_eq_true_2 by (cbn; lia).
      rewrite ranges_end_last by done.
      destruct (last_end_nonempty (b :: bs)) as [e He]; [done|].
      rewrite He. reflexivity.
  - rewrite bool_decide_eq_true_2 by (cbn; lia).
    rewrite ranges_end_last by done.
    destruct (last_end_nonempty (x :: xs)) as [e He]; [done|].
    rewrite He. reflexivity.
Qed.

(** X11. With an adapter bound and a live edge that is a finite number,
    [seekToLiveEdge] makes exactly one call on the element, the seek to
    the live edge, and leaves the paused state and the liveness alone; on
    a live stream the position it leaves is what the [duration] getter
    reports, before and after.  When the live edge is not finite (no
    range and a duration that is infinite or unknown) the seek throws, the
    throw is swallowed and nothing changes.  With no adapter bound the
    call does nothing. *)
Theorem X11_seek_to_live_edge (f : Html5) (w : World) :
  let w' := Html5.seekToLiveEdge f w in
  if bound f && finite (live_edge w)
  then trace w' = trace w ++ [E_set_currentTime (live_edge w)]
       ∧ el_currentTime (el w') = live_edge w
       ∧ el_paused (el w') = el_paused (el w)
       ∧ Html5.isLive f w' = Html5.isLive f w
       ∧ Html5.duration f w' = Html5.duration f w
       ∧ Html5.duration f w =
           Some (if Html5.isLive f w then el_currentTime (el w')
                 else el_duration (el w))
  else w' = w.
Proof.
  cbn zeta. unfold Html5.seekToLiveEdge, Html5.isLive, Html5.duration, bound.
  destruct (_mediaSourceAdapter f); [|done]. cbn [andb].
  unfold NativeAdapter.seekToLiveEdge, NativeAdapter.duration.
  rewrite getLiveEdge_value. unfold set_currentTime.
  destruct (finite (live_edge w)); [|done].
  assert (He : NativeAdapter._getLiveEdge (seek_to (live_edge w) w)
               = Some (live_edge w)).
  { rewrite getLiveEdge_value. done. }
  rewrite He.
  assert (Hl : NativeAdapter.isLive (seek_to (live_edge w) w) =
               NativeAdapter.isLive w) by done.
  rewrite Hl. repeat split; try done.
  by destruct (NativeAdapter.isLive w).
Qed.

(** X12. What DRM protocol an adapter sets up.  After [canPlayDrm], the
    bound protocol is the first registered one that supports the data, or,
    if none does, whatever was bound before the call.  The constructor
    calls [setDrmPlayback] on that protocol exactly when one is bound and
    the source carries DRM data.  [destroy()] calls the protocol's
    [destroy] once and drops the binding, so a second [destroy()] makes no
    further call. *)
Theorem X12_drm_protocol_lifecycle (protocols : list DrmProtocol)
    (drmData : list DrmData) (source : Source)
    (progressive : option (list Source)) (w : World) :
  let r := NativeAdapter.canPlayDrm protocols drmData w in
  let c := NativeAdapter.constructor (Some source) progressive r.2 in
  let d := NativeAdapter.destroy c.1 c.2 in
  let d2 := NativeAdapter.destroy d.1 d.2 in
  drmProtocol c.2 =
    match list_find (supports drmData) protocols with
    | Some (_, p) => Some p
    | None => drmProtocol w
    end
  ∧ trace c.2 =
      trace r.2 ++ match drmProtocol c.2, src_drmData source with
                   | Some p, Some _ => [E_setDrmPlayback (protocol_name p)]
                   | _, _ => []
                   end
  ∧ trace d.2 =
      trace c.2 ++ match drmProtocol c.2 with
                   | Some p => [E_drm_destroy (protocol_name p)]
                   | None => []
                   end
  ∧ drmProtocol d.2 = None
  ∧ trace d2.2 = trace d.2
  ∧ drmProtocol d2.2 = None.
Proof.
  cbn zeta. unfold NativeAdapter.canPlayDrm.
  pose proof (canPlayDrm_loop_spec protocols drmData w) as H.
  cbn zeta in H. destruct H as (_ & _ & _ & Hfind).
  set (r := NativeAdapter.canPlayDrm_loop protocols drmData w) in *.
  assert (Hb : drmProtocol r.2 =
               match list_find (supports drmData) protocols with
               | Some (_, p) => Some p
               | None => drmProtocol w
               end).
  { destruct (list_find _ protocols) as [[i p]|];
      by destruct Hfind as (_ & ? & _). }
  unfold NativeAdapter.constructor, NativeAdapter._maybeSetDrmPlayback.
  cbn [fst snd _sourceObj]. rewrite <- Hb.
  destruct (drmProtocol r.2) as [p|] eqn:Hp.
  - destruct (src_drmData source); unfold NativeAdapter.destroy; cbn;
      repeat (rewrite Hp; cbn); rewrite ?app_nil_r; done.
  - unfold NativeAdapter.destroy. cbn. repeat (rewrite Hp; cbn).
    by rewrite ?app_nil_r.
Qed.

Lemma signal_no_listeners env n detail a w :
  _eventManager a = [] → NativeAdapter.signal env n detail a w = (a, w).
Proof.
  intros H. rewrite signal_unfold, H. cbn. by destruct a; cbn in *; subst.
Qed.

(** X13. After the adapter's [destroy()] no listener is left: whatever
    signals the element still emits, adapter and world stay as [destroy()]
    left them, so a load handle that was pending is never settled; the
    load handle and the progressive variants are cleared, and the promise
    objects themselves are not touched by [destroy()]. *)
Theorem X13_destroy_silences_signals (env : Env) (a : Adapter) (w : World)
    (signals : list (SignalName * string)) :
  let d := NativeAdapter.destroy a w in
  deliver_all env signals d = d
  ∧ promises d.2 = promises w
  ∧ _loadPromise d.1 = None
  ∧ NativeAdapter._getParsedProgressiveVideoTracks d.1 = [].
Proof.
  cbn zeta.
  assert (Hd : _eventManager (NativeAdapter.destroy a w).1 = []
               ∧ promises (NativeAdapter.destroy a w).2 = promises w
               ∧ _loadPromise (NativeAdapter.destroy a w).1 = None
               ∧ _progressiveSources (NativeAdapter.destroy a w).1 = Some []).
  { unfold NativeAdapter.destroy. by destruct (drmProtocol w). }
  destruct Hd as (Hem & Hpr & Hlp & Hps).
  split; [|split; [done|split; [done|]]].
  - destruct (NativeAdapter.destroy a w) as [a' w']. cbn [fst snd] in Hem.
    clear -Hem. induction signals as [|[n detail] signals IH]; [done|].
    unfold deliver_all in *. cbn [foldl fst snd].
    by rewrite (signal_no_listeners env n detail a' w' Hem).
  - unfold NativeAdapter._getParsedProgressiveVideoTracks. by rewrite Hps.
Qed.

(** ** The engine's own bookkeeping *)

(** X14. The [playsinline] setter and getter round-trip on the element's
    attributes: the getter returns what was last set, whatever the
    attributes were; setting twice is setting once; no other attribute is
    touched; and an attribute value other than the empty string reads as
    [false]. *)
Theorem X14_playsinline_round_trip (b b' : bool)
    (attrs : gmap string string) :
  Html5.get_playsinline (Html5.set_playsinline b attrs) = b
  ∧ Html5.set_playsinline b (Html5.set_playsinline b' attrs) =
    Html5.set_playsinline b attrs
  ∧ (∀ k, k ≠ "playsinline" →
          Html5.set_playsinline b attrs !! k = attrs !! k)
  ∧ (∀ v, v ≠ "" →
          Html5.get_playsinline (<["playsinline" := v]> attrs) = false).
Proof.
  unfold Html5.get_playsinline, Html5.set_playsinline.
  split; [|split; [|split]].
  - destruct b.
    + rewrite lookup_insert_eq. by apply bool_decide_eq_true_2.
    + rewrite lookup_delete_eq. by apply bool_decide_eq_false_2.
  - destruct b, b'.
    + apply insert_insert_eq.
    + apply insert_delete_eq.
    + apply delete_insert_eq.
    + apply map_eq. intros k. destruct (decide (k = "playsinline")) as [->|].
      * by rewrite !lookup_delete_eq.
      * by rewrite !lookup_delete_ne.
  - intros k Hk. destruct b.
    + by rewrite lookup_insert_ne.
    + by rewrite lookup_delete_ne.
  - intros v Hv. rewrite lookup_insert_eq.
    apply bool_decide_eq_false_2. congruence.
Qed.

(** X15. [detach()] is not the inverse of [attach()]: every subscription
    [detach()] removes is one [attach()] made, and the subscriptions
    [attach()] makes that [detach()] does not remove are, when an adapter
    is bound, exactly the one to the adapter's [abr-mode-changed], and none
    otherwise. *)
Theorem X15_detach_leaves_abr_listener (Html5Events : list string)
    (f : Html5) (sub : Target * EventType) :
  (sub ∈ Html5.detach Html5Events f → sub ∈ Html5.attach Html5Events f)
  ∧ (sub ∈ Html5.attach Html5Events f ∧ sub ∉ Html5.detach Html5Events f
     ↔ bound f = true ∧ sub = (OnAdapter, CustomEvent abr_mode_changed)).
Proof.
  unfold Html5.attach, Html5.detach, bound.
  destruct (_mediaSourceAdapter f).
  - rewrite !elem_of_app, !elem_of_cons, !elem_of_nil, !list_elem_of_fmap.
    split; [tauto|]. split.
    + intros [[Hel|Had] Hnot]; [tauto|]. split; [done|].
      destruct Had as [->|[->|[->|[->|[->|[]]]]]]; tauto.
    + intros [_ ->]. split; [tauto|].
      intros [(e & He & _)|[H|[H|[H|[H|[]]]]]]; discriminate.
  - rewrite !app_nil_r. split; [done|]. split; [tauto|].
    intros [? _]. discriminate.
Qed.

(** ** Repeated loads, empty cue batches *)

Lemma loads_by_app (c : Caller) (w : World) (tl : list Effect) (w' : World) :
  trace w' = trace w ++ tl →
  loads_by c w' =
  (loads_by c w + length (filter (λ e, is_load_by c e = true) tl))%nat.
Proof. intros H. unfold loads_by. by rewrite H, filter_app, length_app. Qed.

Lemma no_load_in_binding c a :
  filter (λ e, is_load_by c e = true) (binding a) = [].
Proof.
  unfold binding. destruct (_sourceObj a); [|done].
  case_bool_decide; [|done]. by destruct c.
Qed.

Lemma no_load_in_preseek c startTime :
  filter (λ e, is_load_by c e = true) (preseek startTime) = [].
Proof.
  destruct startTime as [[q| | |]|]; cbn; try case_bool_decide;
    by destruct c.
Qed.

Lemma load_singleton (c c' : Caller) (tl : list Effect) :
  filter (λ e, is_load_by c e = true) (E_load c' :: tl) =
  (if is_load_by c (E_load c') then [E_load c'] else [])
  ++ filter (λ e, is_load_by c e = true) tl.
Proof.
  destruct c, c'; cbn [is_load_by];
    first [by rewrite filter_cons_True by done
          |by rewrite filter_cons_False by done].
Qed.

Lemma engine_loads_again env starts f a w p :
  _mediaSourceAdapter f = Some a →
  _loadPromise a = Some p →
  let r := engine_loads env starts (f, w) in
  Forall (eq p) r.1
  ∧ loads_by ByEngine r.2.2 = (loads_by ByEngine w + length starts)%nat
  ∧ loads_by ByAdapter r.2.2 = loads_by ByAdapter w
  ∧ promises r.2.2 = promises w.
Proof.
  revert f a w. induction starts as [|st starts IH]; intros f a w Ha Hp.
  - cbn. repeat split; [constructor|lia].
  - cbn [engine_loads]. cbn zeta. cbn [fst snd]. unfold Html5.load.
    rewrite Ha.
    rewrite (load_again env st a (el_load ByEngine w) p Hp). cbn [fst snd].
    destruct (IH (with_adapter (Some a) f) a (el_load ByEngine w))
      as (Hall & He & Had & Hpr); [done..|].
    cbn zeta in *. split; [by constructor|].
    rewrite He, Had, Hpr.
    rewrite (loads_by_app ByEngine w [E_load ByEngine] (el_load ByEngine w))
      by done.
    rewrite (loads_by_app ByAdapter w [E_load ByEngine] (el_load ByEngine w))
      by done.
    rewrite !load_singleton. cbn. repeat split; lia.
Qed.

Lemma no_load_in_loading startTime :
  length (filter (λ e, is_load_by ByAdapter e = true) (loading startTime)) =
    (if throwing startTime then 0 else 1)%nat
  ∧ filter (λ e, is_load_by ByEngine e = true) (loading startTime) = [].
Proof.
  unfold loading. destruct (throwing startTime); [done|].
  rewrite !filter_app, !no_load_in_preseek. done.
Qed.

(** X16. The engine's [load()] coalesces the handle but not the element
    load.  On an engine whose adapter has not loaded yet, any number of
    [load()] calls (one or more) return one and the same handle and create
    one promise, and the adapter calls the element's [load()] once (not at
    all when the first start time is one of the infinities, at which the
    seek throws); but the engine itself calls the element's [load()] again
    on every call. *)
Theorem X16_engine_load_reloads_element (env : Env) (st : option number)
    (starts : list (option number)) (f : Html5) (a : Adapter) (w : World) :
  _mediaSourceAdapter f = Some a →
  _loadPromise a = None →
  let r := engine_loads env (st :: starts) (f, w) in
  Forall (eq (length (promises w))) r.1
  ∧ length r.1 = S (length starts)
  ∧ loads_by ByEngine r.2.2 = (loads_by ByEngine w + S (length starts))%nat
  ∧ loads_by ByAdapter r.2.2 =
      (loads_by ByAdapter w + (if throwing st then 0 else 1))%nat
  ∧ length (promises r.2.2) = S (length (promises w)).
Proof.
  intros Ha Hp.
  cbn [engine_loads]. cbn zeta. cbn [fst snd]. unfold Html5.load. rewrite Ha.
  pose proof (load_first env st a (el_load ByEngine w) Hp) as Hf.
  pose proof (first_load_trace env st a (el_load ByEngine w) Hp) as Htr.
  cbn zeta in Hf, Htr.
  destruct (NativeAdapter.load env st a (el_load ByEngine w))
    as [[p a1] w1].
  cbn [fst snd] in *. destruct Hf as (-> & Hp1 & Hv & _).
  destruct Htr as [Htr _].
  destruct (engine_loads_again env starts (with_adapter (Some a1) f) a1 w1
              _ eq_refl Hp1) as (Hall & He & Had & Hpr).
  cbn zeta in *.
  assert (Hlen : ∀ s0, length (engine_loads env starts s0).1 = length starts).
  { clear. induction starts as [|x xs IH]; intros s0; [done|].
    cbn. by rewrite IH. }
  assert (Hw1 : trace w1 = trace w ++ E_load ByEngine
                  :: binding a1 ++ loading st).
  { rewrite Htr. cbn. by rewrite <- app_assoc. }
  destruct (no_load_in_loading st) as [Hla Hle].
  split; [by constructor|]. split; [cbn; by rewrite Hlen|].
  rewrite He, Had, Hpr.
  rewrite (loads_by_app ByEngine w _ w1 Hw1).
  rewrite (loads_by_app ByAdapter w _ w1 Hw1).
  rewrite !load_singleton, !filter_app, !no_load_in_binding, Hle.
  cbn [is_load_by app length]. rewrite Hla.
  unfold load_view in Hv. injection Hv as _ Hn.
  repeat split; lia.
Qed.

(** X17. The cue-change signal at its edges.  On a text track that
    carries the engine's handler, the payload of the one
    [text-cue-changed] is the active cues of the two supported shapes in
    their order, cues of any other class being left out, so it is never
    longer than the list of active cues, and with no active cue the event
    is still emitted, with an empty list.  On a track without the handler,
    or at a position where there is no track, the signal changes
    nothing. *)
Theorem X17_cue_change_edges (i : nat) (w : World) :
  match el_textTracks (el w) !! i with
  | Some t =>
      match ptt_oncuechange t with
      | Some _ =>
          ∃ cues,
            trace (Html5.cuechange i w) =
              trace w ++ [E_set_mode ByEngine i hidden;
                          E_emit ByEngine (TEXT_CUE_CHANGED cues)]
            ∧ canonical <$> cues = omap fields (ptt_activeCues t)
            ∧ (length cues ≤ length (ptt_activeCues t))%nat
            ∧ (ptt_activeCues t = [] → cues = [])
      | None => Html5.cuechange i w = w
      end
  | None => Html5.cuechange i w = w
  end.
Proof.
  unfold Html5.cuechange.
  destruct (el_textTracks (el w) !! i) as [t|] eqn:Ht; [|done].
  destruct (ptt_oncuechange t) as [[]|]; [|done].
  exists (omap normalize (ptt_activeCues t)).
  split; [by apply onCueChange_trace|].
  split; [|split].
  - induction (ptt_activeCues t) as [|c cs IH]; [done|].
    destruct c; cbn; by rewrite ?IH.
  - induction (ptt_activeCues t) as [|c cs IH]; [done|].
    destruct c; cbn in *; lia.
  - by intros ->.
Qed.

(** ** The further properties on the sample states *)

Lemma X1_adaptive_video_witness :
  el_videoTracks (el world_hls) = Some hls_video
  ∧ in_bounds hls_video (index video_high)
  ∧ actives (NativeAdapter._getParsedAdaptiveVideoTracks
       (NativeAdapter.selectAdaptiveVideoTrack
          (ATrack (VideoTrack video_high)) world_hls)) = [false; true].
Proof.
  assert (Hb : in_bounds hls_video (index video_high)).
  { unfold in_bounds. cbn. lia. }
  split; [reflexivity|]. split; [exact Hb|].
  exact (proj1 (X1_adaptive_video_select_then_enumerate world_hls hls_video
                  video_high eq_refl Hb)).
Defined.

Lemma X2_audio_witness :
  el_audioTracks (el world_hls) = Some hls_audio
  ∧ in_bounds hls_audio (index audio_de)
  ∧ actives (NativeAdapter._getParsedAudioTracks
       (NativeAdapter.selectAudioTrack (ATrack (AudioTrack audio_de))
          world_hls)) = [false; false; true].
Proof.
  assert (Hb : in_bounds hls_audio (index audio_de)).
  { unfold in_bounds. cbn. lia. }
  split; [reflexivity|]. split; [exact Hb|].
  exact (proj1 (X2_audio_select_then_enumerate world_hls hls_audio
                  audio_de eq_refl Hb)).
Defined.

Lemma X3_text_select_witness :
  selectable (el_textTracks (el world0)) (PKTextTrack text_english) = true
  ∧ first_active (el_textTracks (el
       (NativeAdapter.selectTextTrack (ATrack (PKTextTrack text_english))
          world0))) = Some 0%nat
  ∧ actives (NativeAdapter._getParsedTextTracks
       (NativeAdapter.selectTextTrack (ATrack (PKTextTrack text_english))
          world0)) = [false; false; false].
Proof.
  split; [reflexivity|].
  destruct (X3_text_select_then_enumerate world0 text_english eq_refl)
    as (_ & Hfa & _ & Hact).
  split; [exact Hfa|exact Hact].
Defined.

Lemma X4_progressive_rebind_witness :
  _progressiveSources adapter0 = Some [src_360; src_720]
  ∧ js_get [src_360; src_720] (index video_720) = Some src_720
  ∧ NoDup (src_id <$> [src_360; src_720])
  ∧ actives (NativeAdapter._getParsedProgressiveVideoTracks
       (NativeAdapter._selectProgressiveVideoTrack
          (ATrack (VideoTrack video_720)) adapter0 world0).1)
    = [false; true].
Proof.
  assert (Hnd : NoDup (src_id <$> [src_360; src_720])).
  { apply NoDup_cons. split.
    - rewrite list_elem_of_singleton. discriminate.
    - apply NoDup_singleton. }
  split; [reflexivity|]. split; [reflexivity|]. split; [exact Hnd|].
  destruct (X4_progressive_switch_rebinds_at_once adapter0 world0 video_720
              [src_360; src_720] src_720 eq_refl eq_refl)
    as (_ & Honly & _).
  exact (Honly Hnd).
Defined.

Lemma X5_enumerated_witness :
  enumerated_english ∈ NativeAdapter._getParsedTracks adapter0 world0
  ∧ in_bounds (el_textTracks (el world0)) 0
  ∧ ¬ invalid (SelectText (ATrack enumerated_english)) adapter0 world0.
Proof.
  assert (Hin : enumerated_english
                ∈ NativeAdapter._getParsedTracks adapter0 world0).
  { apply list_elem_of_lookup. exists 2%nat. reflexivity. }
  split; [exact Hin|].
  destruct (X5_enumerated_tracks_are_selectable adapter0 world0
              enumerated_english Hin) as (Hb & _ & Hinv).
  split; [exact Hb|].
  intros H. apply Hinv in H. apply H. by left.
Defined.

Lemma X6_first_load_witness :
  _loadPromise adapter0 = None
  ∧ trace (NativeAdapter.load env_desktop (Some (Num (Qc_of_Z 3)))
             adapter0 world0).2 =
      [E_set_src "https://cdn.example/360.mp4";
       E_emit ByAdapter (ABR_MODE_CHANGED abr_manual);
       E_set_currentTime (Num (Qc_of_Z 3));
       E_load ByAdapter]
  ∧ trace (NativeAdapter.load env_desktop (Some (Num 0%Qc))
             adapter0 world0).2 =
      [E_set_src "https://cdn.example/360.mp4";
       E_emit ByAdapter (ABR_MODE_CHANGED abr_manual);
       E_load ByAdapter]
  ∧ let r := NativeAdapter.load env_desktop (Some Infinity) adapter0 world0 in
    trace r.2 =
      [E_set_src "https://cdn.example/360.mp4";
       E_emit ByAdapter (ABR_MODE_CHANGED abr_manual)]
    ∧ promises r.2 !! r.1.1 = Some (Rejected "TypeError").
Proof.
  split; [reflexivity|]. split; [|split].
  - exact (proj1 (X6_first_load_calls env_desktop (Some (Num (Qc_of_Z 3)))
                    adapter0 world0 eq_refl)).
  - exact (proj1 (X6_first_load_calls env_desktop (Some (Num 0%Qc))
                    adapter0 world0 eq_refl)).
  - destruct (X6_first_load_calls env_desktop (Some Infinity)
                adapter0 world0 eq_refl) as (Htr & Hst & _).
    split; [exact Htr|exact Hst].
Defined.

Lemma X7_load_settles_witness :
  _loadPromise adapter0 = None
  ∧ _eventManager adapter0 = []
  ∧ (let r := NativeAdapter.load env_desktop None adapter0 world0 in
     let failed := NativeAdapter.signal env_desktop ERROR "decode" r.1.2 r.2 in
     promises failed.2 !! r.1.1 = Some (Rejected "decode"))
  ∧ (let r := NativeAdapter.load env_desktop (Some NegInfinity)
                adapter0 world0 in
     let loaded := NativeAdapter.signal env_desktop LOADED_DATA "" r.1.2 r.2 in
     promises loaded.2 !! r.1.1 = Some (Rejected "TypeError")).
Proof.
  split; [reflexivity|]. split; [reflexivity|]. split.
  - destruct (X7_load_settles_once env_desktop None None adapter0 world0
                "decode" eq_refl eq_refl) as (_ & _ & _ & Hrej & _).
    exact Hrej.
  - destruct (X7_load_settles_once env_desktop (Some NegInfinity) None
                adapter0 world0 "decode" eq_refl eq_refl)
      as (_ & Hres & _).
    exact Hres.
Defined.

Lemma X9_rejected_selection_witness :
  useNativeTextTrack engine_shown = false
  ∧ bound engine_shown
    && selectable (el_textTracks (el world_hidden))
         (PKTextTrack text_out_of_range) = false
  ∧ first_active (el_textTracks (el world_hidden)) = Some 0%nat
  ∧ ptt_mode <$> el_textTracks (el world_hidden) !! 0%nat = Some hidden
  ∧ ptt_mode <$> el_textTracks (el
       (Html5.selectTextTrack (PKTextTrack text_out_of_range)
          engine_shown world_hidden).2) !! 0%nat = Some showing.
Proof.
  assert (H1 : useNativeTextTrack engine_shown = false)
    by (vm_compute; reflexivity).
  assert (H2 : bound engine_shown
               && selectable (el_textTracks (el world_hidden))
                    (PKTextTrack text_out_of_range) = false)
    by (vm_compute; reflexivity).
  assert (H3 : first_active (el_textTracks (el world_hidden)) = Some 0%nat)
    by (vm_compute; reflexivity).
  split; [exact H1|]. split; [exact H2|]. split; [exact H3|].
  split; [vm_compute; reflexivity|].
  destruct (X9_rejected_text_selection_touches_selected_track
              (PKTextTrack text_out_of_range) engine_shown world_hidden 0
              H1 H2 H3) as (_ & Hm & _).
  cbn zeta in Hm.
  assert (Hs : Html5.shown engine_shown
                 (index (settings (PKTextTrack text_out_of_range))) = false)
    by (vm_compute; reflexivity).
  rewrite Hs in Hm. exact Hm.
Defined.

Lemma X10_active_flag_witness :
  useNativeTextTrack engine0 = false
  ∧ bound engine0 = true
  ∧ selectable (el_textTracks (el world0)) (PKTextTrack text_english) = true
  ∧ actives (NativeAdapter._getParsedTextTracks world_showing)
    = [true; false; false]
  ∧ actives (NativeAdapter._getParsedTextTracks world_hidden)
    = [false; false; false]
  ∧ first_active (el_textTracks (el world_hidden)) = Some 0%nat.
Proof.
  split; [reflexivity|]. split; [reflexivity|]. split; [reflexivity|].
  destruct (X10_text_active_flag_means_showing text_english engine0 world0
              eq_refl eq_refl eq_refl) as (H1 & _ & H3 & H4).
  split; [exact H1|]. split; [exact H3|exact H4].
Defined.

Lemma X16_engine_load_witness :
  _mediaSourceAdapter engine0 = Some adapter0
  ∧ _loadPromise adapter0 = None
  ∧ (let r := engine_loads env_desktop [None; Some (Num (Qc_of_Z 5)); None]
                (engine0, world0) in
     r.1 = [0%nat; 0%nat; 0%nat]
     ∧ loads_by ByEngine r.2.2 = 3%nat
     ∧ loads_by ByAdapter r.2.2 = 1%nat)
  ∧ (let r := engine_loads env_desktop [Some Infinity; None]
                (engine0, world0) in
     loads_by ByEngine r.2.2 = 2%nat
     ∧ loads_by ByAdapter r.2.2 = 0%nat).
Proof.
  split; [reflexivity|]. split; [reflexivity|]. split.
  - destruct (X16_engine_load_reloads_element env_desktop None
                [Some (Num (Qc_of_Z 5)); None] engine0 adapter0 world0
                eq_refl eq_refl) as (_ & _ & He & Ha & _).
    cbn zeta. split; [vm_compute; reflexivity|].
    split; [exact He|exact Ha].
  - destruct (X16_engine_load_reloads_element env_desktop (Some Infinity)
                [None] engine0 adapter0 world0
                eq_refl eq_refl) as (_ & _ & He & Ha & _).
    split; [exact He|exact Ha].
Defined.
